(** * message-stream: MessageQueue and MessageStream over a Redis client

    A shallow embedding of the two classes of the repository, the list-backed
    queue of [src/MessageQueue.js] and the consumer-group stream
    [MessageStream], and the properties proved about them.

    The methods are written in a small state-and-exception monad.  The store
    behind the client is a parameter: any state, any behaviour, failures
    included; every command a method sends is recorded, with its outcome, in
    a trace next to what the method wrote to the console.  Two stores are
    given in full: a model of Redis lists and streams with consumer groups,
    and a store that always has one more entry to hand out.  The parts of
    the JavaScript runtime the classes lean on, [JSON.stringify],
    [JSON.parse] and truthiness, are modelled on a type of values.

    The file has two parts: the definitions, then the properties. *)

From Stdlib Require Import ZArith Ascii String List Lia Bool.
From Stdlib Require Import DecimalString DecimalN DecimalPos DecimalFacts.
From stdpp Require Import gmap strings list.

Local Open Scope Z_scope.
Set Warnings "-register-all".

(** ** JavaScript values and JSON text *)

Module JS.

(** Numbers are the doubles.  A double whose value is an integer is given
    by that integer ([NInt 0] is +0), any other finite double as [m / 2^e]
    with [m] odd. *)
Inductive number :=
| NInt (z : Z)
| NDyadic (m : Z) (e : positive)
| NNegZero
| NNaN
| NInf (negative : bool).

(** Values a caller can hand to [push] / [addMessage] or get back from
    [JSON.parse].  An object is its list of own properties, in property
    order. *)
Inductive value :=
| Undefined
| Null
| Bool (b : bool)
| Num (n : number)
| Str (s : string)
| Arr (elems : list value)
| Obj (props : list (string * value)).

(** ToBoolean. *)
Definition truthy (v : value) : bool :=
  match v with
  | Undefined | Null => false
  | Bool b => b
  | Num (NInt z) => negb (z =? 0)
  | Num (NDyadic m _) => negb (m =? 0)
  | Num NNegZero => false
  | Num NNaN => false
  | Num (NInf _) => true
  | Str s => negb (String.eqb s "")
  | Arr _ | Obj _ => true
  end.

(** ToBoolean of a string-or-undefined, as in [if (id)]. *)
Definition truthy_id (id : option string) : bool :=
  match id with
  | None => false
  | Some s => negb (String.eqb s "")
  end.

(** *** JSON.stringify *)

Definition hex_digit (n : N) : ascii :=
  if (n <? 10)%N then ascii_of_N (48 + n) else ascii_of_N (87 + n).

(** QuoteJSONString.  A string is the bytes of its UTF-8 form, a surrogate
    on its own being written in three bytes like the other code points
    below U+10000.  The bytes of a character above U+007F are written as
    they are; a surrogate on its own is written as an escape. *)
Definition escape_char (c : ascii) : string :=
  let n := N_of_ascii c in
  if (n =? 8)%N then "\b"
  else if (n =? 9)%N then "\t"
  else if (n =? 10)%N then "\n"
  else if (n =? 12)%N then "\f"
  else if (n =? 13)%N then "\r"
  else if (n =? 34)%N then String "\" (String "034" "")
  else if (n =? 92)%N then "\\"
  else if (n <? 32)%N then
    "\u00" +:+ String (hex_digit (n / 16)) (String (hex_digit (n mod 16)) "")
  else String c "".

(** The surrogate the three bytes stand for, if they do. *)
Definition surrogate (b1 b2 b3 : ascii) : option N :=
  let x := N_of_ascii b1 in
  let y := N_of_ascii b2 in
  let z := N_of_ascii b3 in
  (if (x =? 237) && (160 <=? y) && (y <? 192) && (128 <=? z) && (z <? 192)
   then Some (55296 + (y - 160) * 64 + (z - 128))
   else None)%N.

Definition is_high_surrogate (n : N) : bool := (55296 <=? n)%N && (n <? 56320)%N.
Definition is_low_surrogate (n : N) : bool := (56320 <=? n)%N && (n <? 57344)%N.

Definition escape_unit (u : N) : string :=
  "\u" +:+ String (hex_digit (u / 4096))
            (String (hex_digit ((u / 256) mod 16))
               (String (hex_digit ((u / 16) mod 16))
                  (String (hex_digit (u mod 16)) ""))).

(** A high surrogate followed by a low one is a character, written as it
    is. *)
Fixpoint escape (s : string) : string :=
  match s with
  | EmptyString => ""
  | String c r =>
      match r with
      | String c2 (String c3 r3) =>
          match surrogate c c2 c3 with
          | Some u =>
              if is_high_surrogate u then
                match r3 with
                | String t1 (String t2 (String t3 r6)) =>
                    match surrogate t1 t2 t3 with
                    | Some w =>
                        if is_low_surrogate w
                        then String c (String c2 (String c3 (String t1
                               (String t2 (String t3 (escape r6))))))
                        else escape_unit u +:+ escape r3
                    | None => escape_unit u +:+ escape r3
                    end
                | _ => escape_unit u +:+ escape r3
                end
              else escape_unit u +:+ escape r3
          | None => escape_char c +:+ escape r
          end
      | _ => escape_char c +:+ escape r
      end
  end.

Definition quote (s : string) : string :=
  String "034" (escape s +:+ String "034" "").

Definition digits (n : N) : string := NilEmpty.string_of_uint (N.to_uint n).

(** The digits of an integer, with its sign. *)
Definition string_of_Z (z : Z) : string :=
  match z with
  | Zneg p => String "-" (digits (Npos p))
  | _ => digits (Z.to_N z)
  end.

(** *** The Number value of a decimal *)

Definition number_eqb (a b : number) : bool :=
  match a, b with
  | NInt x, NInt y => x =? y
  | NDyadic m e, NDyadic m' e' => (m =? m') && (e =? e')%positive
  | NNegZero, NNegZero => true
  | NNaN, NNaN => true
  | NInf s, NInf s' => Bool.eqb s s'
  | _, _ => false
  end.

Definition negate (n : number) : number :=
  match n with
  | NInt z => if z =? 0 then NNegZero else NInt (- z)
  | NDyadic m e => NDyadic (- m) e
  | NNegZero => NInt 0
  | NNaN => NNaN
  | NInf s => NInf (negb s)
  end.

(** floor (log2 (p / q)), for p, q > 0. *)
Definition floor_log2 (p q : Z) : Z :=
  let l := Z.log2 p - Z.log2 q in
  if p * 2 ^ Z.max 0 (- l) <? q * 2 ^ Z.max 0 l then l - 1 else l.

(** The integer nearest to num / den, the even one of two. *)
Definition round_half_even (num den : Z) : Z :=
  let m := num / den in
  let r := num mod den in
  if 2 * r <? den then m
  else if den <? 2 * r then m + 1
  else if Z.even m then m else m + 1.

(** How many times 2 divides m (m > 0). *)
Definition trailing_zeros (m : Z) : Z := Z.log2 (Z.land m (- m)).

(** The number m * 2^e (m >= 0). *)
Definition of_binary (m e : Z) : number :=
  if m =? 0 then NInt 0
  else if 0 <=? e then NInt (m * 2 ^ e)
  else
    let t := Z.min (- e) (trailing_zeros m) in
    if - e - t =? 0 then NInt (m / 2 ^ t)
    else NDyadic (m / 2 ^ t) (Z.to_pos (- e - t)).

(** The double nearest to p / q (p, q > 0): 53 bits of mantissa, a binary
    exponent of at least -1074, ties to the even mantissa, infinity from
    2^1024 on. *)
Definition nearest_double (p q : Z) : number :=
  let e := Z.max (floor_log2 p q - 52) (-1074) in
  let m := round_half_even (p * 2 ^ Z.max 0 (- e)) (q * 2 ^ Z.max 0 e) in
  if (0 <=? e) && (2 ^ 1024 <=? m * 2 ^ e) then NInf false
  else of_binary m e.

Definition count_digits (m : Z) : Z :=
  Z.of_nat (String.length (digits (Z.to_N m))).

(** The Number value of the decimal m * 10^e (m >= 0).  An integer up to
    2^53 is a double as it is; a decimal of more than 310 integer digits is
    infinite and one below 10^-330 is zero, whatever its digits; the others
    are rounded. *)
Definition number_of_decimal (m e : Z) : number :=
  if m =? 0 then NInt 0
  else if (0 <=? e) && (e <=? 22) && (m * 10 ^ e <=? 2 ^ 53) then NInt (m * 10 ^ e)
  else if 310 <? count_digits m + e then NInf false
  else if count_digits m + e <? -330 then NInt 0
  else if 0 <=? e then nearest_double (m * 10 ^ e) 1
  else nearest_double m (10 ^ (- e)).

(** *** Number::toString *)

(** floor (log10 (p / q)), for p, q > 0. *)
Definition floor_log10 (p q : Z) : Z :=
  let k := floor_log2 p q * 30103 / 100000 in
  let le10 j := if 0 <=? j then q * 10 ^ j <=? p else q <=? p * 10 ^ (- j) in
  if le10 (k + 1) then k + 1 else if le10 k then k else k - 1.

(** The digits: the decimal s * 10^e of fewest digits whose Number value is
    x = p / q, and of two such the nearer to x; [n] digits are tried, then
    one more, 17 at most. *)
Fixpoint shortest (fuel : nat) (x : number) (p q k n : Z) : Z * Z :=
  let num := if 0 <=? n - k then p * 10 ^ (n - k) else p in
  let den := if 0 <=? n - k then q else q * 10 ^ (k - n) in
  let lo := num / den in
  let hi := lo + 1 in
  let lo_ok := number_eqb (number_of_decimal lo (k - n)) x in
  let hi_ok := number_eqb (number_of_decimal hi (k - n)) x in
  match fuel with
  | O => (round_half_even num den, k - n)
  | S fuel' =>
      if lo_ok && hi_ok then (round_half_even num den, k - n)
      else if lo_ok then (lo, k - n)
      else if hi_ok then (hi, k - n)
      else shortest fuel' x p q k (n + 1)
  end.

Fixpoint strip_zeros (fuel : nat) (s e : Z) : Z * Z :=
  match fuel with
  | O => (s, e)
  | S fuel' =>
      if (s mod 10 =? 0) && negb (s =? 0)
      then strip_zeros fuel' (s / 10) (e + 1)
      else (s, e)
  end.

Definition zeros (n : Z) : string :=
  string_of_list_ascii (repeat "0"%char (Z.to_nat n)).

(** The notation: the digits [ds] with the decimal point after [pt] of
    them; plain up to 21 integer digits and down to 6 zeros after the
    point, with an exponent beyond. *)
Definition notation (ds : string) (pt : Z) : string :=
  let nd := Z.of_nat (String.length ds) in
  if (nd <=? pt) && (pt <=? 21) then ds +:+ zeros (pt - nd)
  else if (0 <? pt) && (pt <=? 21) then
    substring 0 (Z.to_nat pt) ds +:+ "."
    +:+ substring (Z.to_nat pt) (Z.to_nat (nd - pt)) ds
  else if (-6 <? pt) && (pt <=? 0) then "0." +:+ zeros (- pt) +:+ ds
  else
    let e := pt - 1 in
    let mant := if nd =? 1 then ds
                else substring 0 1 ds +:+ "."
                     +:+ substring 1 (Z.to_nat (nd - 1)) ds in
    mant +:+ "e" +:+ (if 0 <=? e then "+" else "-") +:+ digits (Z.to_N (Z.abs e)).

(** Number::toString of the positive number x = p / q. *)
Definition string_of_positive (x : number) (p q : Z) : string :=
  let '(s, e) := shortest 16 x p q (floor_log10 p q + 1) 1 in
  let '(s, e) := strip_zeros 400 s e in
  let ds := digits (Z.to_N s) in
  notation ds (Z.of_nat (String.length ds) + e).

(** An integer up to 2^53 is written in its digits and -0 as 0; [NaN] and
    the infinities have no JSON text of their own. *)
Definition string_of_number (n : number) : string :=
  match n with
  | NInt z =>
      if Z.abs z <=? 2 ^ 53 then string_of_Z z
      else (if z <? 0 then "-" else "")
           +:+ string_of_positive (NInt (Z.abs z)) (Z.abs z) 1
  | NDyadic m e =>
      (if m <? 0 then "-" else "")
      +:+ string_of_positive (NDyadic (Z.abs m) e) (Z.abs m) (2 ^ Zpos e)
  | NNegZero => "0"
  | NNaN | NInf _ => "null"
  end.

Fixpoint join (sep : string) (l : list string) : string :=
  match l with
  | [] => ""
  | [x] => x
  | x :: r => x +:+ sep +:+ join sep r
  end.

(** SerializeJSONProperty: [None] is the result [undefined]. *)
Fixpoint serialize (v : value) : option string :=
  match v with
  | Undefined => None
  | Null => Some "null"
  | Bool true => Some "true"
  | Bool false => Some "false"
  | Num n => Some (string_of_number n)
  | Str s => Some (quote s)
  | Arr elems =>
      Some ("[" +:+
            join "," (List.map (fun x => match serialize x with
                                         | Some t => t
                                         | None => "null"
                                         end) elems)
            +:+ "]")
  | Obj props =>
      Some ("{" +:+
            join "," ((fix members (l : list (string * value)) : list string :=
                         match l with
                         | [] => []
                         | (k, x) :: r =>
                             match serialize x with
                             | Some t => (quote k +:+ ":" +:+ t) :: members r
                             | None => members r
                             end
                         end) props)
            +:+ "}")
  end.

Definition JSON_stringify (v : value) : option string := serialize v.

(** *** JSON.parse *)

Definition is_ws (c : ascii) : bool :=
  let n := N_of_ascii c in
  (n =? 32)%N || (n =? 9)%N || (n =? 10)%N || (n =? 13)%N.

Fixpoint skip_ws (s : string) : string :=
  match s with
  | String c r => if is_ws c then skip_ws r else s
  | EmptyString => s
  end.

Definition is_digit (c : ascii) : bool :=
  let n := N_of_ascii c in (48 <=? n)%N && (n <=? 57)%N.

Fixpoint span_digits (s : string) : string * string :=
  match s with
  | String c r =>
      if is_digit c then let '(d, t) := span_digits r in (String c d, t)
      else ("", s)
  | EmptyString => ("", "")
  end.

Definition hex_value (c : ascii) : option N :=
  let n := N_of_ascii c in
  if (48 <=? n)%N && (n <=? 57)%N then Some (n - 48)%N
  else if (97 <=? n)%N && (n <=? 102)%N then Some (n - 87)%N
  else if (65 <=? n)%N && (n <=? 70)%N then Some (n - 55)%N
  else None.

(** The code unit of a \uXXXX escape. *)
Definition hex4 (a b c d : ascii) : option N :=
  match hex_value a, hex_value b, hex_value c, hex_value d with
  | Some x, Some y, Some z, Some w =>
      Some (((x * 16 + y) * 16 + z) * 16 + w)%N
  | _, _, _, _ => None
  end.

(** The bytes of the code point [n] in UTF-8 (a surrogate on its own is
    written like any other code point below U+10000). *)
Definition utf8 (n : N) : string :=
  let byte k := ascii_of_N k in
  (if n <? 128 then String (byte n) ""
   else if n <? 2048 then
     String (byte (192 + n / 64)) (String (byte (128 + n mod 64)) "")
   else if n <? 65536 then
     String (byte (224 + n / 4096))
       (String (byte (128 + (n / 64) mod 64))
          (String (byte (128 + n mod 64)) ""))
   else
     String (byte (240 + n / 262144))
       (String (byte (128 + (n / 4096) mod 64))
          (String (byte (128 + (n / 64) mod 64))
             (String (byte (128 + n mod 64)) ""))))%N.

(** The code point of a surrogate pair. *)
Definition code_point (high low : N) : N :=
  (65536 + (high - 55296) * 1024 + (low - 56320))%N.

Definition simple_escape (e : ascii) : option ascii :=
  let n := N_of_ascii e in
  if (n =? 34)%N then Some e
  else if (n =? 92)%N then Some e
  else if (n =? 47)%N then Some e
  else if (n =? 98)%N then Some (ascii_of_N 8)
  else if (n =? 102)%N then Some (ascii_of_N 12)
  else if (n =? 110)%N then Some (ascii_of_N 10)
  else if (n =? 114)%N then Some (ascii_of_N 13)
  else if (n =? 116)%N then Some (ascii_of_N 9)
  else None.

Definition cons_char (c : ascii) (r : option (string * string))
  : option (string * string) :=
  match r with
  | Some (t, rest) => Some (String c t, rest)
  | None => None
  end.

Definition cons_string (b : string) (r : option (string * string))
  : option (string * string) :=
  match r with
  | Some (t, rest) => Some (b +:+ t, rest)
  | None => None
  end.

(** The characters of a string literal, after its opening quote, up to and
    including the closing quote.  An escaped high surrogate followed by an
    escaped low surrogate is one character. *)
Fixpoint parse_chars (s : string) : option (string * string) :=
  match s with
  | EmptyString => None
  | String c r =>
      let n := N_of_ascii c in
      if (n =? 34)%N then Some ("", r)
      else if (n =? 92)%N then
        match r with
        | EmptyString => None
        | String e r1 =>
            if (N_of_ascii e =? 117)%N then
              match r1 with
              | String h1 (String h2 (String h3 (String h4 r2))) =>
                  match hex4 h1 h2 h3 h4 with
                  | Some u =>
                      if is_high_surrogate u then
                        match r2 with
                        | String b (String x r2') =>
                            if (N_of_ascii b =? 92)%N && (N_of_ascii x =? 117)%N
                            then
                              match r2' with
                              | String l1 (String l2 (String l3 (String l4 r3))) =>
                                  match hex4 l1 l2 l3 l4 with
                                  | Some w =>
                                      if is_low_surrogate w
                                      then cons_string (utf8 (code_point u w))
                                                       (parse_chars r3)
                                      else cons_string (utf8 u) (parse_chars r2)
                                  | None => cons_string (utf8 u) (parse_chars r2)
                                  end
                              | _ => cons_string (utf8 u) (parse_chars r2)
                              end
                            else cons_string (utf8 u) (parse_chars r2)
                        | _ => cons_string (utf8 u) (parse_chars r2)
                        end
                      else cons_string (utf8 u) (parse_chars r2)
                  | None => None
                  end
              | _ => None
              end
            else
              match simple_escape e with
              | Some u => cons_char u (parse_chars r1)
              | None => None
              end
        end
      else if (n <? 32)%N then None
      else cons_char c (parse_chars r)
  end.

(** A digit sequence is a number when it is a single zero or has no
    leading zero. *)
Definition canonical (d : Decimal.uint) : bool :=
  match d with
  | Decimal.Nil => false
  | Decimal.D0 Decimal.Nil => true
  | Decimal.D0 _ => false
  | _ => true
  end.

(** The digits of the integer part. *)
Definition parse_unsigned (s : string) : option (N * string) :=
  let '(ds, rest) := span_digits s in
  match NilEmpty.uint_of_string ds with
  | Some d => if canonical d then Some (N.of_uint d, rest) else None
  | None => None
  end.

Definition value_of_digits (ds : string) : Z :=
  match NilEmpty.uint_of_string ds with
  | Some d => Z.of_N (N.of_uint d)
  | None => 0
  end.

(** The fraction, when there is one: a point and at least one digit. *)
Definition parse_fraction (s : string) : option (string * string) :=
  match s with
  | String "." r =>
      match span_digits r with
      | (EmptyString, _) => None
      | (fs, rest) => Some (fs, rest)
      end
  | _ => Some ("", s)
  end.

(** The exponent, when there is one: [e] or [E], an optional sign and at
    least one digit. *)
Definition parse_exponent (s : string) : option (Z * string) :=
  match s with
  | String "e" r | String "E" r =>
      let '(neg, r1) := match r with
                        | String "-" r' => (true, r')
                        | String "+" r' => (false, r')
                        | _ => (false, r)
                        end in
      match span_digits r1 with
      | (EmptyString, _) => None
      | (es, rest) =>
          Some (if neg then - value_of_digits es else value_of_digits es, rest)
      end
  | _ => Some (0, s)
  end.

(** A number literal without its sign: integer part, fraction, exponent. *)
Definition parse_positive (s : string) : option (number * string) :=
  match parse_unsigned s with
  | Some (n, r1) =>
      match parse_fraction r1 with
      | Some (fs, r2) =>
          match parse_exponent r2 with
          | Some (ex, rest) =>
              let k := Z.of_nat (String.length fs) in
              Some (number_of_decimal (Z.of_N n * 10 ^ k + value_of_digits fs)
                                      (ex - k),
                    rest)
          | None => None
          end
      | None => None
      end
  | None => None
  end.

(** A number literal: an optional minus sign, then the number. *)
Definition parse_number (s : string) : option (number * string) :=
  match s with
  | String "-" r =>
      match parse_positive r with
      | Some (n, rest) => Some (negate n, rest)
      | None => None
      end
  | _ => parse_positive s
  end.

(** A literal name ([null], [true], [false]) at the head of [s]. *)
Fixpoint strip_prefix (lit s : string) : option string :=
  match lit with
  | EmptyString => Some s
  | String c l =>
      match s with
      | String d r => if Ascii.eqb c d then strip_prefix l r else None
      | EmptyString => None
      end
  end.

Definition expect (lit : string) (v : value) (s : string)
  : option (value * string) :=
  match strip_prefix lit s with
  | Some rest => Some (v, rest)
  | None => None
  end.

(** Adding a parsed member to an object: a repeated key keeps its place and
    takes the later value. *)
Fixpoint obj_set (k : string) (v : value) (l : list (string * value))
  : list (string * value) :=
  match l with
  | [] => [(k, v)]
  | (k', v') :: r =>
      if String.eqb k k' then (k', v) :: r else (k', v') :: obj_set k v r
  end.

Fixpoint obj_of_members (ms : list (string * value)) (acc : list (string * value))
  : list (string * value) :=
  match ms with
  | [] => acc
  | (k, v) :: r => obj_of_members r (obj_set k v acc)
  end.

Fixpoint parse_value (fuel : nat) (s : string) : option (value * string) :=
  match fuel with
  | O => None
  | S fuel =>
      match skip_ws s with
      | String "n" _ => expect "null" Null (skip_ws s)
      | String "t" _ => expect "true" (Bool true) (skip_ws s)
      | String "f" _ => expect "false" (Bool false) (skip_ws s)
      | String "034" r =>
          match parse_chars r with
          | Some (t, rest) => Some (Str t, rest)
          | None => None
          end
      | String "[" r =>
          match skip_ws r with
          | String "]" rest => Some (Arr [], rest)
          | _ =>
              match parse_elements fuel r with
              | Some (vs, rest) => Some (Arr vs, rest)
              | None => None
              end
          end
      | String "{" r =>
          match skip_ws r with
          | String "}" rest => Some (Obj [], rest)
          | _ =>
              match parse_members fuel r with
              | Some (ms, rest) => Some (Obj (obj_of_members ms []), rest)
              | None => None
              end
          end
      | _ =>
          match parse_number (skip_ws s) with
          | Some (n, rest) => Some (Num n, rest)
          | None => None
          end
      end
  end
with parse_elements (fuel : nat) (s : string) : option (list value * string) :=
  match fuel with
  | O => None
  | S fuel =>
      match parse_value fuel s with
      | Some (v, r) =>
          match skip_ws r with
          | String "," r1 =>
              match parse_elements fuel r1 with
              | Some (vs, rest) => Some (v :: vs, rest)
              | None => None
              end
          | String "]" rest => Some ([v], rest)
          | _ => None
          end
      | None => None
      end
  end
with parse_members (fuel : nat) (s : string)
  : option (list (string * value) * string) :=
  match fuel with
  | O => None
  | S fuel =>
      match skip_ws s with
      | String "034" r =>
          match parse_chars r with
          | Some (k, r1) =>
              match skip_ws r1 with
              | String ":" r2 =>
                  match parse_value fuel r2 with
                  | Some (v, r3) =>
                      match skip_ws r3 with
                      | String "," r4 =>
                          match parse_members fuel r4 with
                          | Some (ms, rest) => Some ((k, v) :: ms, rest)
                          | None => None
                          end
                      | String "}" rest => Some ([(k, v)], rest)
                      | _ => None
                      end
                  | None => None
                  end
              | _ => None
              end
          | None => None
          end
      | _ => None
      end
  end.

(** JSON.parse on a text: one value, then nothing but white space.  [None]
    is the SyntaxError. *)
Definition JSON_parse (text : string) : option value :=
  match parse_value (S (String.length text)) text with
  | Some (v, rest) =>
      match skip_ws rest with
      | EmptyString => Some v
      | _ => None
      end
  | None => None
  end.

End JS.


(** ** Errors, results and the effects of a method *)

(** A thrown JavaScript error object. *)
Record error := mkError { err_name : string; err_message : string }.

(** [Error(msg)]. *)
Definition JsError (msg : string) : error :=
  {| err_name := "Error"; err_message := msg |}.

(** What [JSON.parse] throws on malformed text. *)
Definition SyntaxError : error :=
  {| err_name := "SyntaxError"; err_message := "Unexpected token in JSON" |}.

(** What reading a property of [undefined] or [null] throws. *)
Definition TypeError : error :=
  {| err_name := "TypeError"; err_message := "Cannot read properties of undefined" |}.

Inductive result (A : Type) :=
| Ok (a : A)
| Throw (e : error).
Arguments Ok {A} a.
Arguments Throw {A} e.

(** *** The store client *)

(** An entry of a stream as the client hands it over: [{ id, message }],
    [message] being the entry's fields. *)
Record stream_message := {
  sm_id : string;
  sm_message : list (string * string)
}.

(** Reply of XAUTOCLAIM: [{ nextId, messages }]; an entry deleted from the
    stream while pending comes back as [null]. *)
Record autoclaim_reply := {
  nextId : string;
  ac_messages : list (option stream_message)
}.

(** One element of the reply of XREADGROUP: [{ name, messages }]. *)
Record stream_reply := {
  sr_name : string;
  sr_messages : list stream_message
}.

(** The client methods the two classes call, with their arguments.  A text
    argument produced by [JSON.stringify] may be [undefined] ([None]). *)
Inductive command :=
| Connect
| Disconnect
| RPUSH (key : string) (element : option string)
| LPOP (key : string)
| LLEN (key : string)
| XGROUP_CREATE (key group id : string) (MKSTREAM : bool)
| XADD (key id : string) (fields : list (string * option string))
| XAUTOCLAIM (key group consumer : string) (minIdleTime : Z) (start : string)
             (BLOCK COUNT : Z)
| XREADGROUP (group consumer key id : string) (BLOCK COUNT : Z)
| XACK (key group id : string)
| XDEL (key : string) (ids : list string)
| XLEN (key : string).

(** What each of them resolves to; [None] is [null]. *)
Definition reply (c : command) : Type :=
  match c with
  | Connect | Disconnect => unit
  | RPUSH _ _ | LLEN _ | XACK _ _ _ | XDEL _ _ | XLEN _ => Z
  | LPOP _ => option string
  | XGROUP_CREATE _ _ _ _ => string
  | XADD _ _ _ => string
  | XAUTOCLAIM _ _ _ _ _ _ _ => option autoclaim_reply
  | XREADGROUP _ _ _ _ _ _ => option (list stream_reply)
  end.

(** Everything a method does that can be observed from outside: the commands
    it sent with their outcome, and what it wrote to the console. *)
Inductive event :=
| Call (c : command) (r : result (reply c))
| ConsoleLog (text : string)
| ConsoleError (e : error).

(** A store behind the client: any state, any behaviour, failures included. *)
Definition handler (S : Type) : Type :=
  forall c : command, S -> result (reply c) * S.

(** The client of one instance: the store it talks to and the record of
    what the instance did so far. *)
Record world (S : Type) := {
  store : S;
  trace : list event
}.
Arguments store {S} _.
Arguments trace {S} _.

(** An object owning a client. *)
Class HasClient (S T : Type) := {
  get_client : T -> world S;
  set_client : world S -> T -> T
}.

#[export] Instance pair_HasClient {S L T} `{HasClient S T} : HasClient S (L * T) := {
  get_client p := get_client (snd p);
  set_client w p := (fst p, set_client w (snd p))
}.

(** *** Methods: state and exceptions *)

Definition M (T A : Type) : Type := T -> result A * T.

Definition ret {T A} (a : A) : M T A := fun t => (Ok a, t).

Definition bind {T A B} (m : M T A) (k : A -> M T B) : M T B :=
  fun t => match m t with
           | (Ok a, t') => k a t'
           | (Throw e, t') => (Throw e, t')
           end.

Definition throw {T A} (e : error) : M T A := fun t => (Throw e, t).

(** [try { m } catch (error) { h error }]: what [m] did to the state before
    throwing stays done. *)
Definition try_catch {T A} (m : M T A) (h : error -> M T A) : M T A :=
  fun t => match m t with
           | (Ok a, t') => (Ok a, t')
           | (Throw e, t') => h e t'
           end.

Definition gets {T A} (f : T -> A) : M T A := fun t => (Ok (f t), t).

Definition modify {T} (f : T -> T) : M T unit := fun t => (Ok tt, f t).

(** A block with local variables [L]. *)
Definition with_locals {T L A} (init : L) (body : M (L * T) A) : M T A :=
  fun t => let '(r, (_, t')) := body (init, t) in (r, t').

(** A method of [this] called from inside such a block. *)
Definition lift {T L A} (m : M T A) : M (L * T) A :=
  fun '(l, t) => let '(r, t') := m t in (r, (l, t')).

Notation "x <- m ;; k" := (bind m (fun x => k))
  (at level 62, m at next level, right associativity).
Notation "m ;;; k" := (bind m (fun _ => k))
  (at level 62, right associativity).

Definition when {T} (b : bool) (m : M T unit) : M T unit :=
  if b then m else ret tt.

Section Effects.
Context {S T : Type} `{HasClient S T}.
Variable exec : handler S.

Definition log_event (e : event) : M T unit :=
  modify (fun t =>
    let w := get_client t in
    set_client {| store := store w; trace := trace w ++ [e] |} t).

(** [await this.client.CMD(...)]. *)
Definition call (c : command) : M T (reply c) :=
  fun t =>
    let w := get_client t in
    let '(r, s') := exec c (store w) in
    (r, set_client {| store := s'; trace := trace w ++ [Call c r] |} t).

Definition console_log (text : string) : M T unit := log_event (ConsoleLog text).
Definition console_error (e : error) : M T unit := log_event (ConsoleError e).

(** [JSON.parse(text)]. *)
Definition JSON_parse_M (text : string) : M T JS.value :=
  match JS.JSON_parse text with
  | Some v => ret v
  | None => throw SyntaxError
  end.
End Effects.

(** ** src/MessageQueue.js *)

Module MessageQueue.

Record t (S : Type) := {
  url : option string;
  queueName : string;
  client : world S
}.
Arguments url {S} _.
Arguments queueName {S} _.
Arguments client {S} _.

#[export] Instance queue_HasClient {S} : HasClient S (t S) := {
  get_client q := client q;
  set_client w q := {| url := url q; queueName := queueName q; client := w |}
}.

(** [new MessageQueue(queueName, url)] on a store in state [s] (the
    listeners registered on the client are left to the client). *)
Definition constructor {S} (name : string) (url_ : option string) (s : S) : t S :=
  {| url := url_;
     queueName := "queue:" +:+ name;
     client := {| store := s; trace := [] |} |}.

Section Methods.
Context {S : Type}.
Variable exec : handler S.

Definition connect : M (t S) unit :=
  try_catch
    (call exec Connect)
    (fun error =>
       console_error error ;;;
       throw (JsError "Failed to connect to the message stream")).

Definition disconnect : M (t S) unit :=
  try_catch
    (call exec Disconnect)
    (fun error =>
       console_error error ;;;
       throw (JsError "Failed to disconnect from queue")).

Definition push (data : JS.value) : M (t S) unit :=
  try_catch
    (name <- gets queueName ;;
     call exec (RPUSH name (JS.JSON_stringify data)) ;;;
     ret tt)
    (fun error =>
       console_error error ;;;
       name <- gets queueName ;;
       throw (JsError ("Failed to push data to queue (" +:+ name +:+ ")"))).

(** [JSON.parse(data)] turns its argument into text first: [null] reads
    as the text "null". *)
Definition pop : M (t S) JS.value :=
  try_catch
    (name <- gets queueName ;;
     data <- call exec (LPOP name) ;;
     JSON_parse_M (default "null" data))
    (fun error =>
       console_error error ;;;
       name <- gets queueName ;;
       throw (JsError ("Failed to pop from queue (" +:+ name +:+ ")"))).

Definition size : M (t S) Z :=
  try_catch
    (name <- gets queueName ;;
     call exec (LLEN name))
    (fun error =>
       console_error error ;;;
       name <- gets queueName ;;
       throw (JsError ("Failed to retrieve queue length (" +:+ name +:+ ")"))).
End Methods.

End MessageQueue.

(** ** MessageStream *)

Module MessageStream.

Definition MAX_PROCESSED_IDS : Z := 10000.

Definition NoMessageFoundError : error :=
  {| err_name := "NoMessageInStream"; err_message := "No message found" |}.

(** [processedMessageIds] is a [Set]: its elements in insertion order. *)
Record t (S : Type) := {
  url : string;
  streamName : string;
  consumerGroup : string;
  consumerId : string;
  client : world S;
  processedMessageIds : list string
}.
Arguments url {S} _.
Arguments streamName {S} _.
Arguments consumerGroup {S} _.
Arguments consumerId {S} _.
Arguments client {S} _.
Arguments processedMessageIds {S} _.

#[export] Instance stream_HasClient {S} : HasClient S (t S) := {
  get_client m := client m;
  set_client w m :=
    {| url := url m; streamName := streamName m;
       consumerGroup := consumerGroup m; consumerId := consumerId m;
       client := w; processedMessageIds := processedMessageIds m |}
}.

Definition set_processedMessageIds {S} (ids : list string) (m : t S) : t S :=
  {| url := url m; streamName := streamName m;
     consumerGroup := consumerGroup m; consumerId := consumerId m;
     client := client m; processedMessageIds := ids |}.

(** [Set.prototype.add]. *)
Definition set_add (x : string) (l : list string) : list string :=
  if existsb (String.eqb x) l then l else l ++ [x].

(** [Set.prototype.size]. *)
Definition set_size (l : list string) : Z := Z.of_nat (List.length l).

(** [new MessageStream(streamName, url)] on a store in state [s]; [pm_id] is
    [process.env.pm_id].  The listeners the constructor registers on the
    client ([connect], [error]) only write to the console when the client
    calls them; they are not part of the methods below. *)
Definition constructor {S} (name : string) (url_ : option string)
    (pm_id : option string) (s : S) : t S :=
  {| url := default "redis://127.0.0.1:6379" url_;
     streamName := "stream:" +:+ name;
     consumerGroup := name +:+ ":consumer:group";
     consumerId := default "0" pm_id;
     client := {| store := s; trace := [] |};
     processedMessageIds := [] |}.

(** The [{ id, message }] pair, also the two local variables of the read
    paths. *)
Record message_data := {
  id : option string;
  message : JS.value
}.

(** [m.message.data]. *)
Definition data_of (m : stream_message) : option string :=
  snd <$> List.find (fun kv => String.eqb (fst kv) "data") (sm_message m).

Section Methods.
Context {S : Type}.
Variable exec : handler S.

Definition set_id (i : option string) : M (message_data * t S) unit :=
  modify (fun '(l, this) => ({| id := i; message := message l |}, this)).
Definition set_message (v : JS.value) : M (message_data * t S) unit :=
  modify (fun '(l, this) => ({| id := id l; message := v |}, this)).
Definition this {A} (f : t S -> A) : M (message_data * t S) A :=
  gets (fun p => f (snd p)).

Definition connect : M (t S) unit :=
  try_catch
    (call exec Connect ;;;
     key <- gets streamName ;;
     group <- gets consumerGroup ;;
     call exec (XGROUP_CREATE key group "$" true) ;;;
     console_log ("Created consumer group " +:+ group))
    (fun error =>
       if negb (String.eqb (err_message error)
                  "BUSYGROUP Consumer Group name already exists")
       then
         console_error error ;;;
         key <- gets streamName ;;
         throw (JsError ("Failed to connect to the stream (" +:+ key +:+ ")"))
       else ret tt).

Definition deleteProcessedMessages : M (t S) unit :=
  try_catch
    (ids <- gets processedMessageIds ;;
     when (0 <? set_size ids)
       (key <- gets streamName ;;
        call exec (XDEL key ids) ;;;
        modify (set_processedMessageIds [])))
    (fun error =>
       console_error error ;;;
       key <- gets streamName ;;
       group <- gets consumerGroup ;;
       consumer <- gets consumerId ;;
       throw (JsError ("Failed to delete processed messages (" +:+ key +:+ " "
                       +:+ group +:+ " " +:+ consumer +:+ ")"))).

Definition disconnect : M (t S) unit :=
  try_catch
    deleteProcessedMessages
    (fun error => console_error error) ;;;
  try_catch
    (call exec Disconnect)
    (fun error =>
       console_error error ;;;
       key <- gets streamName ;;
       throw (JsError ("Failed to disconnect from the stream (" +:+ key +:+ ")"))).

Definition addMessage (data : JS.value) : M (t S) string :=
  try_catch
    (key <- gets streamName ;;
     messageId <- call exec (XADD key "*" [("data", JS.JSON_stringify data)]) ;;
     ret messageId)
    (fun error =>
       console_error error ;;;
       key <- gets streamName ;;
       throw (JsError ("Failed to add message to stream (" +:+ key +:+ ")"))).

(** [JSON.parse(m.message.data)]: a missing field reads as the text
    "undefined". *)
Definition parse_data (m : stream_message) : M (message_data * t S) JS.value :=
  JSON_parse_M (default "undefined" (data_of m)).

Definition getFailedMessage : M (t S) message_data :=
  with_locals {| id := None; message := JS.Undefined |}
    (try_catch
       (key <- this streamName ;;
        group <- this consumerGroup ;;
        consumer <- this consumerId ;;
        res <- call exec (XAUTOCLAIM key group consumer 0 "0" 0 1) ;;
        match res with
        | Some r =>
            match ac_messages r with
            | [] => ret tt
            | first :: _ =>
                match first with
                | Some m =>
                    set_id (Some (sm_id m)) ;;;
                    v <- parse_data m ;;
                    set_message v
                | None => throw TypeError
                end
            end
        | None => ret tt
        end)
       (fun error =>
          console_error error ;;;
          throw error) ;;;
     gets fst).

(** The three [try] blocks of [consumeMessage], on its local variables
    [id] and [message]: reclaiming a failed entry, ... *)
Definition read_failed : M (message_data * t S) unit :=
  try_catch
    (messageData <- lift getFailedMessage ;;
     set_id (id messageData) ;;;
     set_message (message messageData))
    (fun error => console_error error).

(** ... the blocking group read, ... *)
Definition read_new : M (message_data * t S) unit :=
  try_catch
    (key <- this streamName ;;
     group <- this consumerGroup ;;
     consumer <- this consumerId ;;
     res <- call exec (XREADGROUP group consumer key ">" 2000 1) ;;
     match res with
     | None | Some [] => throw NoMessageFoundError
     | Some (r :: _) =>
         match sr_messages r with
         | [] => throw TypeError
         | m :: _ =>
             set_id (Some (sm_id m)) ;;;
             v <- parse_data m ;;
             set_message v
         end
     end)
    (fun error => console_error error).

(** ... and the acknowledgment of the entry [i] that was obtained. *)
Definition acknowledge (i : string) : M (message_data * t S) unit :=
  try_catch
    (key <- this streamName ;;
     group <- this consumerGroup ;;
     call exec (XACK key group i) ;;;
     modify (fun '(l, m) =>
               (l, set_processedMessageIds
                     (set_add i (processedMessageIds m)) m)) ;;;
     ids <- this processedMessageIds ;;
     when (MAX_PROCESSED_IDS <? set_size ids)
       (lift deleteProcessedMessages))
    (fun error => console_error error).

Definition consumeMessage : M (t S) message_data :=
  with_locals {| id := None; message := JS.Undefined |}
    (read_failed ;;;
     message_ <- gets (fun p => message (fst p)) ;;
     when (negb (JS.truthy message_)) read_new ;;;
     id_ <- gets (fun p => id (fst p)) ;;
     match id_ with
     | Some i => when (JS.truthy_id (Some i)) (acknowledge i)
     | None => ret tt
     end ;;;
     gets fst).

Definition length : M (t S) Z :=
  try_catch
    (key <- gets streamName ;;
     call exec (XLEN key))
    (fun error =>
       console_error error ;;;
       key <- gets streamName ;;
       throw (JsError ("Failed to get length of stream (" +:+ key +:+ ")"))).
End Methods.

End MessageStream.

(** ** The errors the methods raise, under the names of the error taxonomy *)

Module Errors.

Definition ConnectionError : error :=
  JsError "Failed to connect to the message stream".
Definition DisconnectError : error :=
  JsError "Failed to disconnect from queue".
Definition QueueWriteError (queueName : string) : error :=
  JsError ("Failed to push data to queue (" +:+ queueName +:+ ")").
Definition QueueReadError (queueName : string) : error :=
  JsError ("Failed to pop from queue (" +:+ queueName +:+ ")").
Definition QueueQueryError (queueName : string) : error :=
  JsError ("Failed to retrieve queue length (" +:+ queueName +:+ ")").

Definition StreamConnectError (streamName : string) : error :=
  JsError ("Failed to connect to the stream (" +:+ streamName +:+ ")").
Definition StreamDisconnectError (streamName : string) : error :=
  JsError ("Failed to disconnect from the stream (" +:+ streamName +:+ ")").
Definition StreamWriteError (streamName : string) : error :=
  JsError ("Failed to add message to stream (" +:+ streamName +:+ ")").
Definition StreamPurgeError {S} (this : MessageStream.t S) : error :=
  JsError ("Failed to delete processed messages ("
           +:+ MessageStream.streamName this +:+ " "
           +:+ MessageStream.consumerGroup this +:+ " "
           +:+ MessageStream.consumerId this +:+ ")").
Definition StreamQueryError (streamName : string) : error :=
  JsError ("Failed to get length of stream (" +:+ streamName +:+ ")").

(** The message by which [connect] recognises that the group exists. *)
Definition is_BUSYGROUP (e : error) : bool :=
  String.eqb (err_message e) "BUSYGROUP Consumer Group name already exists".

(** [{ id: undefined, message: undefined }]. *)
Definition absent : MessageStream.message_data :=
  {| MessageStream.id := None; MessageStream.message := JS.Undefined |}.

End Errors.

(** ** A model of the store: Redis lists and streams with consumer groups

    The server side of the commands above.  Time is not modelled: a blocking
    read that finds nothing answers [null] at once, and every pending entry
    has idle time zero.  Entry ids are handed out by the store (an id other
    than [*] given to XADD is ignored); a group is created at the end of the
    stream for [$] and at its start otherwise; XAUTOCLAIM scans the pending
    list from its start; XREADGROUP with an id other than [>] answers the
    consumer's own pending entries. *)

Module Redis.

Definition fields := list (string * string).

(** A consumer group: the cursor (sequence number of the last entry handed
    out) and the pending entries with their owner, oldest first. *)
Record group := {
  last_delivered : N;
  pel : list (N * string)
}.

Record stream := {
  entries : list (N * fields);
  last_seq : N;
  groups : gmap string group
}.

Record server := {
  lists : gmap string (list string);
  streams : gmap string stream
}.

Definition empty : server := {| lists := ∅; streams := ∅ |}.

(** Entry ids are [<ms>-<seq>]; the model's clock stands still at 0. *)
Definition entry_id (n : N) : string := "0-" +:+ JS.digits n.

Definition to_message (e : N * fields) : stream_message :=
  {| sm_id := entry_id (fst e); sm_message := snd e |}.

Definition BUSYGROUP : error :=
  {| err_name := "ErrorReply";
     err_message := "BUSYGROUP Consumer Group name already exists" |}.

Definition NOGROUP : error :=
  {| err_name := "ErrorReply";
     err_message := "NOGROUP No such key or consumer group" |}.

Definition ERR (msg : string) : error :=
  {| err_name := "ErrorReply"; err_message := "ERR " +:+ msg |}.

(** The client refuses an argument that is not a string. *)
Definition InvalidArgument : error :=
  {| err_name := "TypeError"; err_message := "Invalid argument type" |}.

Definition list_at (s : server) (key : string) : list string :=
  default [] (lists s !! key).

Definition set_list (key : string) (l : list string) (s : server) : server :=
  {| lists := <[key := l]> (lists s); streams := streams s |}.

Definition set_stream (key : string) (st : stream) (s : server) : server :=
  {| lists := lists s; streams := <[key := st]> (streams s) |}.

Definition set_group (name : string) (g : group) (st : stream) : stream :=
  {| entries := entries st; last_seq := last_seq st;
     groups := <[name := g]> (groups st) |}.

Definition find_entry (n : N) (es : list (N * fields)) : option (N * fields) :=
  List.find (fun e => (fst e =? n)%N) es.

(** XAUTOCLAIM over the pending list: up to [count] entries change owner; a
    pending entry whose stream entry is gone is dropped from the list. *)
Fixpoint autoclaim (count : nat) (consumer : string) (es : list (N * fields))
    (p : list (N * string)) : list stream_message * list (N * string) :=
  match count, p with
  | O, _ | _, [] => ([], p)
  | Datatypes.S count', (n, owner) :: rest =>
      match find_entry n es with
      | Some e =>
          let '(ms, rest') := autoclaim count' consumer es rest in
          (to_message e :: ms, (n, consumer) :: rest')
      | None => autoclaim count consumer es rest
      end
  end.

Fixpoint all_fields (fs : list (string * option string)) : option fields :=
  match fs with
  | [] => Some []
  | (k, Some v) :: r =>
      match all_fields r with
      | Some r' => Some ((k, v) :: r')
      | None => None
      end
  | (_, None) :: _ => None
  end.

Definition exec : handler server :=
  fun c =>
    match c as c0 return server -> result (reply c0) * server with
    | Connect => fun s => (Ok tt, s)
    | Disconnect => fun s => (Ok tt, s)
    | RPUSH key element => fun s =>
        match element with
        | Some e =>
            let l := list_at s key ++ [e] in
            (Ok (Z.of_nat (List.length l)), set_list key l s)
        | None => (Throw InvalidArgument, s)
        end
    | LPOP key => fun s =>
        match list_at s key with
        | [] => (Ok None, s)
        | x :: r => (Ok (Some x), set_list key r s)
        end
    | LLEN key => fun s => (Ok (Z.of_nat (List.length (list_at s key))), s)
    | XGROUP_CREATE key name id MKSTREAM => fun s =>
        match streams s !! key with
        | Some st =>
            match groups st !! name with
            | Some _ => (Throw BUSYGROUP, s)
            | None =>
                let g := {| last_delivered :=
                              if String.eqb id "$" then last_seq st else 0%N;
                            pel := [] |} in
                (Ok "OK", set_stream key (set_group name g st) s)
            end
        | None =>
            if MKSTREAM then
              let g := {| last_delivered := 0%N; pel := [] |} in
              (Ok "OK",
               set_stream key {| entries := []; last_seq := 0%N;
                                 groups := {[ name := g ]} |} s)
            else
              (Throw (ERR "The XGROUP subcommand requires the key to exist"), s)
        end
    | XADD key id fs => fun s =>
        match all_fields fs with
        | Some f =>
            let st := default {| entries := []; last_seq := 0%N; groups := ∅ |}
                              (streams s !! key) in
            let n := (last_seq st + 1)%N in
            (Ok (entry_id n),
             set_stream key {| entries := entries st ++ [(n, f)];
                               last_seq := n; groups := groups st |} s)
        | None => (Throw InvalidArgument, s)
        end
    | XAUTOCLAIM key name consumer minIdleTime start BLOCK COUNT => fun s =>
        match streams s !! key with
        | Some st =>
            match groups st !! name with
            | Some g =>
                if minIdleTime <=? 0 then
                  let '(ms, p) :=
                    autoclaim (Z.to_nat COUNT) consumer (entries st) (pel g) in
                  (Ok (Some {| nextId := "0-0"; ac_messages := Some <$> ms |}),
                   set_stream key
                     (set_group name {| last_delivered := last_delivered g;
                                        pel := p |} st) s)
                else
                  (Ok (Some {| nextId := "0-0"; ac_messages := [] |}), s)
            | None => (Throw NOGROUP, s)
            end
        | None => (Throw NOGROUP, s)
        end
    | XREADGROUP name consumer key id BLOCK COUNT => fun s =>
        match streams s !! key with
        | Some st =>
            match groups st !! name with
            | Some g =>
                if String.eqb id ">" then
                  let fresh :=
                    take (Z.to_nat COUNT)
                      (List.filter (fun e => (last_delivered g <? fst e)%N)
                                   (entries st)) in
                  match fresh with
                  | [] => (Ok None, s)
                  | _ =>
                      let g' :=
                        {| last_delivered :=
                             fold_left N.max (fst <$> fresh) (last_delivered g);
                           pel := pel g ++ ((fun e => (fst e, consumer)) <$> fresh) |} in
                      (Ok (Some [{| sr_name := key;
                                    sr_messages := to_message <$> fresh |}]),
                       set_stream key (set_group name g' st) s)
                  end
                else
                  let mine :=
                    omap (fun p => if String.eqb (snd p) consumer
                                   then find_entry (fst p) (entries st)
                                   else None) (pel g) in
                  (Ok (Some [{| sr_name := key;
                                sr_messages :=
                                  to_message <$> take (Z.to_nat COUNT) mine |}]),
                   s)
            | None => (Throw NOGROUP, s)
            end
        | None => (Throw NOGROUP, s)
        end
    | XACK key name id => fun s =>
        match streams s !! key with
        | Some st =>
            match groups st !! name with
            | Some g =>
                let keep p := negb (String.eqb (entry_id (fst p)) id) in
                let p' := List.filter keep (pel g) in
                (Ok (Z.of_nat (List.length (pel g) - List.length p')),
                 set_stream key
                   (set_group name {| last_delivered := last_delivered g;
                                      pel := p' |} st) s)
            | None => (Ok 0, s)
            end
        | None => (Ok 0, s)
        end
    | XDEL key ids => fun s =>
        match streams s !! key with
        | Some st =>
            let keep e := negb (existsb (String.eqb (entry_id (fst e))) ids) in
            let es := List.filter keep (entries st) in
            (Ok (Z.of_nat (List.length (entries st) - List.length es)),
             set_stream key {| entries := es; last_seq := last_seq st;
                               groups := groups st |} s)
        | None => (Ok 0, s)
        end
    | XLEN key => fun s =>
        (Ok (Z.of_nat (List.length (default [] (entries <$> streams s !! key)))), s)
    end.

(** A connection on which the commands selected by [fault] fail before
    they reach the store. *)
Definition failing {S} (fault : command -> option error) (h : handler S)
  : handler S :=
  fun c s =>
    match fault c with
    | Some e => (Throw e, s)
    | None => h c s
    end.

Definition ECONNRESET : error :=
  {| err_name := "Error"; err_message := "read ECONNRESET" |}.


End Redis.

(** ** Reading a trace *)

(** The events recorded between two states of the same client. *)
Definition new_events {S} (before after : world S) : list event :=
  drop (List.length (trace before)) (trace after).

(** The commands sent, in order. *)
Definition calls (tr : list event) : list command :=
  omap (fun e => match e with Call c _ => Some c | _ => None end) tr.

(** The entry ids of the acknowledgments that succeeded, in order. *)
Definition acked_id (e : event) : option string :=
  match e with
  | Call (XACK _ _ i) (Ok _) => Some i
  | _ => None
  end.

Definition acked (tr : list event) : list string := omap acked_id tr.

(** The bulk deletes sent, whatever their outcome. *)
Definition is_purge (e : event) : bool :=
  match e with
  | Call (XDEL _ _) _ => true
  | _ => false
  end.

Definition purges (tr : list event) : nat := List.length (List.filter is_purge tr).


(** The errors written to the console, in order. *)
Definition console_errors (tr : list event) : list error :=
  omap (fun e => match e with ConsoleError err => Some err | _ => None end) tr.

(** A bulk delete that failed. *)
Definition failed_purge (ev : event) : bool :=
  match ev with
  | Call (XDEL _ _) (Throw _) => true
  | _ => false
  end.

(** The errors of the commands that failed, in order. *)
Definition failures (tr : list event) : list error :=
  omap (fun ev => match ev with Call _ (Throw e) => Some e | _ => None end) tr.

(** The error a method call raised to its caller, if any. *)
Definition raised {A} (r : result A) : option error :=
  match r with
  | Ok _ => None
  | Throw e => Some e
  end.

(** ** JSON-representable values *)

Fixpoint nodup_keys (l : list string) : bool :=
  match l with
  | [] => true
  | k :: r => negb (existsb (String.eqb k) r) && nodup_keys r
  end.

(** [Number.MAX_SAFE_INTEGER]. *)
Definition MAX_SAFE_INTEGER : Z := 9007199254740991.

(** Values whose round trip through JSON text is proved here: no
    [undefined], of the numbers the integers in the safe range (their text
    is their digits; -0 is written as 0 and is not among them), and objects
    whose property names are distinct. *)
Fixpoint representable (v : JS.value) : bool :=
  match v with
  | JS.Undefined => false
  | JS.Null | JS.Bool _ | JS.Str _ => true
  | JS.Num (JS.NInt z) => Z.abs z <=? MAX_SAFE_INTEGER
  | JS.Num _ => false
  | JS.Arr elems => forallb representable elems
  | JS.Obj props =>
      nodup_keys (fst <$> props)
      && forallb (fun p => representable (snd p)) props
  end.

(** ** Sequences of operations on one MessageStream *)

Module StreamOps.
Import MessageStream.

Inductive op :=
| OpConnect
| OpDisconnect
| OpAddMessage (data : JS.value)
| OpGetFailedMessage
| OpConsumeMessage
| OpDeleteProcessedMessages
| OpLength.

Section Run.
Context {S : Type}.
Variable exec : handler S.

(** One method call: the error raised to the caller, if any, and the
    instance afterwards. *)
Definition perform (o : op) (m : t S) : option error * t S :=
  match o with
  | OpConnect => let '(r, m') := connect exec m in (raised r, m')
  | OpDisconnect => let '(r, m') := disconnect exec m in (raised r, m')
  | OpAddMessage data => let '(r, m') := addMessage exec data m in (raised r, m')
  | OpGetFailedMessage => let '(r, m') := getFailedMessage exec m in (raised r, m')
  | OpConsumeMessage => let '(r, m') := consumeMessage exec m in (raised r, m')
  | OpDeleteProcessedMessages =>
      let '(r, m') := deleteProcessedMessages exec m in (raised r, m')
  | OpLength => let '(r, m') := length exec m in (raised r, m')
  end.

Definition run (ops : list op) (m : t S) : t S :=
  fold_left (fun m o => snd (perform o m)) ops m.

(** [n] calls of [consumeMessage] in a row. *)
Definition consume_many (n : nat) (m : t S) : t S :=
  Nat.iter n (fun m => snd (consumeMessage exec m)) m.
End Run.

End StreamOps.

(** ** A store that always has one more entry to hand out

    XAUTOCLAIM finds nothing pending, XREADGROUP hands out the next entry,
    XACK succeeds, and XDEL succeeds or fails as [purge_ok] says.  The state
    counts the entries handed out. *)

Module Feed.

(** The id of the [n]-th entry handed out. *)
Definition feed_id (n : nat) : string := Redis.entry_id (N.of_nat n).

Definition entry (n : nat) : stream_message :=
  {| sm_id := feed_id n; sm_message := [("data", "1")] |}.

Definition exec (purge_ok : bool) : handler nat :=
  fun c =>
    match c as c0 return nat -> result (reply c0) * nat with
    | Connect => fun n => (Ok tt, n)
    | Disconnect => fun n => (Ok tt, n)
    | RPUSH _ _ => fun n => (Ok 1, n)
    | LPOP _ => fun n => (Ok None, n)
    | LLEN _ => fun n => (Ok 0, n)
    | XGROUP_CREATE _ _ _ _ => fun n => (Ok "OK", n)
    | XADD _ _ _ => fun n => (Ok "0-0", n)
    | XAUTOCLAIM _ _ _ _ _ _ _ => fun n =>
        (Ok (Some {| nextId := "0-0"; ac_messages := [] |}), n)
    | XREADGROUP _ _ key _ _ _ => fun n =>
        (Ok (Some [{| sr_name := key; sr_messages := [entry n] |}]), Datatypes.S n)
    | XACK _ _ _ => fun n => (Ok 1, n)
    | XDEL _ ids => fun n =>
        if purge_ok then (Ok (Z.of_nat (List.length ids)), n)
        else (Throw Redis.ECONNRESET, n)
    | XLEN _ => fun n => (Ok (Z.of_nat n), n)
    end.

End Feed.

(** ** Notions for the JSON round trip *)

Module JSONText.
Import JS.

Definition no_digit_head (rest : string) : Prop :=
  match rest with
  | EmptyString => True
  | String c _ => is_digit c = false
  end.

Definition delim (rest : string) : Prop :=
  match rest with
  | EmptyString => True
  | String c _ => c = ","%char \/ c = "]"%char \/ c = "}"%char
  end.

(** The text of a value; "null" stands for what has none. *)
Definition text (v : value) : string := default "null" (serialize v).

(** The low surrogate escaped at the head of a text, with what follows
    it. *)
Definition low_escape (t : string) : option (N * string) :=
  match t with
  | String b (String x t') =>
      if (N_of_ascii b =? 92)%N && (N_of_ascii x =? 117)%N then
        match t' with
        | String l1 (String l2 (String l3 (String l4 r))) =>
            match hex4 l1 l2 l3 l4 with
            | Some w => if is_low_surrogate w then Some (w, r) else None
            | None => None
            end
        | _ => None
        end
      else None
  | _ => None
  end.

(** The string starts with a low surrogate. *)
Definition starts_low (r : string) : bool :=
  match r with
  | String a (String b (String c _)) =>
      match surrogate a b c with
      | Some w => is_low_surrogate w
      | None => false
      end
  | _ => false
  end.

(** The code unit an escape of six characters stands for. *)
Definition unescape_unit (s : string) : option N :=
  match s with
  | String b (String x (String h1 (String h2 (String h3 (String h4 EmptyString))))) =>
      if (N_of_ascii b =? 92)%N && (N_of_ascii x =? 117)%N
      then hex4 h1 h2 h3 h4 else None
  | _ => None
  end.

(** For the bytes 237, y, z: they are a surrogate, its UTF-8 form is these
    bytes, its escape reads as the surrogate, and it is a high or a low
    one. *)
Definition surrogate_check (y z : nat) : bool :=
  let c := ascii_of_nat 237 in
  let c2 := ascii_of_nat y in
  let c3 := ascii_of_nat z in
  match surrogate c c2 c3 with
  | Some u =>
      String.eqb (utf8 u) (String c (String c2 (String c3 "")))
      && match unescape_unit (escape_unit u) with
         | Some w => (w =? u)%N
         | None => false
         end
      && Bool.eqb (is_high_surrogate u) (negb (is_low_surrogate u))
  | None => false
  end.

(** A text between quotes. *)
Definition in_quotes (s : string) : string :=
  String "034" (s +:+ String "034" "").

Definition member (p : string * value) : string :=
  quote (fst p) +:+ ":" +:+ text (snd p).

Fixpoint size (v : value) : nat :=
  match v with
  | Arr l => Datatypes.S (list_sum (List.map (fun x => Datatypes.S (size x)) l))
  | Obj l => Datatypes.S (list_sum (List.map (fun p => Datatypes.S (size (snd p))) l))
  | _ => 1
  end.

(** The first character of a value's text is neither white space nor a
    closing bracket, and selects the value's parser. *)
Definition opens (c : ascii) : bool :=
  negb (is_ws c) && negb (Ascii.eqb c "]") && negb (Ascii.eqb c "}").

Definition parses (v : value) : Prop :=
  forall fuel rest, (size v <= fuel)%nat -> delim rest ->
    parse_value fuel (text v +:+ rest) = Some (v, rest).

End JSONText.

(** ** The buffer of processed ids along a run *)

(** Every id in the buffer was acknowledged, successfully, by this
    instance. *)
Definition buffer_acked {S} (m : MessageStream.t S) : Prop :=
  forall i, In i (MessageStream.processedMessageIds m) ->
            In i (acked (trace (MessageStream.client m))).

(** One step of an instance: the buffer gains only ids acknowledged in the
    step, and loses ids only by being emptied after a bulk delete that
    succeeded and covered them. *)
Definition step_ok (key : string) (ids : list string) (d : list event)
    (ids' : list string) : Prop :=
  (forall x, In x ids' -> In x ids \/ In x (acked d)) /\
  (incl ids ids' \/
   (ids' = [] /\
    exists del n, In (Call (XDEL key del) (Ok n)) d /\ incl ids del)).

(** The state in which a run of [consumeMessage] calls crossed the
    high-water mark: the run sent exactly one XDEL, right after the
    acknowledgment that crossed the mark and inside the same call (the
    [k+1]-th), with all the ids acknowledged so far; when the delete
    succeeded the buffer is empty, otherwise it holds all of them. *)
Definition crossed {S} (exec : handler S) (this : MessageStream.t S) (n : nat)
    (d : list event) (buffer : list string) : Prop :=
  purges d = 1%nat /\
  exists pre post last n_ack r,
    let ack := Call (XACK (MessageStream.streamName this)
                          (MessageStream.consumerGroup this) last) (Ok n_ack) in
    let del := Call (XDEL (MessageStream.streamName this) (acked d)) r in
    d = pre ++ [ack; del] ++ post /\
    acked post = [] /\
    match r with
    | Ok _ =>
        buffer = [] /\
        MessageStream.set_size buffer <= MessageStream.MAX_PROCESSED_IDS
    | Throw _ => buffer = acked d
    end /\
    exists k read tail,
      (k < n)%nat /\
      new_events (MessageStream.client (StreamOps.consume_many exec k this))
                 (MessageStream.client (StreamOps.consume_many exec (Datatypes.S k) this))
      = read ++ [ack; del] ++ tail /\
      calls tail = [].


(** ** Sequences of operations on one MessageQueue *)

Module QueueOps.
Import MessageQueue.

Inductive op :=
| OpConnect
| OpDisconnect
| OpPush (data : JS.value)
| OpPop
| OpSize.

(** What a call gave its caller. *)
Inductive outcome :=
| Done
| Pushed
| Popped (v : JS.value)
| Sized (n : Z)
| Raised (e : error).

Section Run.
Context {S : Type}.
Variable exec : handler S.

Definition perform (o : op) (q : t S) : outcome * t S :=
  match o with
  | OpConnect =>
      match connect exec q with
      | (Ok _, q') => (Done, q')
      | (Throw e, q') => (Raised e, q')
      end
  | OpDisconnect =>
      match disconnect exec q with
      | (Ok _, q') => (Done, q')
      | (Throw e, q') => (Raised e, q')
      end
  | OpPush data =>
      match push exec data q with
      | (Ok _, q') => (Pushed, q')
      | (Throw e, q') => (Raised e, q')
      end
  | OpPop =>
      match pop exec q with
      | (Ok v, q') => (Popped v, q')
      | (Throw e, q') => (Raised e, q')
      end
  | OpSize =>
      match size exec q with
      | (Ok n, q') => (Sized n, q')
      | (Throw e, q') => (Raised e, q')
      end
  end.

Fixpoint run (ops : list op) (q : t S) : list outcome * t S :=
  match ops with
  | [] => ([], q)
  | o :: rest =>
      let '(r, q') := perform o q in
      let '(rs, q'') := run rest q' in
      (r :: rs, q'')
  end.
End Run.





End QueueOps.

(** A command of the stream family on the key, group and consumer of the
    instance [this], or the opening or closing of the connection. *)
Definition own_command {S} (this : MessageStream.t S) (c : command) : bool :=
  let key k := String.eqb k (MessageStream.streamName this) in
  let group g := String.eqb g (MessageStream.consumerGroup this) in
  let consumer x := String.eqb x (MessageStream.consumerId this) in
  match c with
  | Connect | Disconnect => true
  | XGROUP_CREATE k g _ _ | XACK k g _ => key k && group g
  | XAUTOCLAIM k g x _ _ _ _ | XREADGROUP g x k _ _ _ =>
      key k && group g && consumer x
  | XADD k _ _ | XDEL k _ | XLEN k => key k
  | RPUSH _ _ | LPOP _ | LLEN _ => false
  end.
(** * Properties

    ** JSON text: writing and reading back *)

Module JSONFacts.
Import JS JSONText.

Lemma append_cons c s t : String c s +:+ t = String c (s +:+ t).
Proof. reflexivity. Qed.

Lemma append_nil_l t : "" +:+ t = t.
Proof. reflexivity. Qed.

Lemma append_nil_r s : s +:+ "" = s.
Proof. induction s as [|c s IH]; [reflexivity|]. rewrite append_cons, IH. reflexivity. Qed.

Lemma append_assoc s t u : (s +:+ t) +:+ u = s +:+ (t +:+ u).
Proof.
  induction s as [|c s IH]; [reflexivity|].
  rewrite !append_cons, IH. reflexivity.
Qed.

Lemma length_append s t :
  String.length (s +:+ t) = (String.length s + String.length t)%nat.
Proof.
  induction s as [|c s IH]; [reflexivity|].
  rewrite append_cons. simpl. rewrite IH. reflexivity.
Qed.

(** *** String literals *)

Lemma parse_escape_char c t :
  parse_chars (escape_char c +:+ t) = cons_char c (parse_chars t).
Proof.
  destruct c as [[] [] [] [] [] [] [] []]; reflexivity.
Qed.

Lemma surrogate_checks :
  forallb (fun y => forallb (surrogate_check y) (seq 128 64)) (seq 160 32) = true.
Proof. vm_compute. reflexivity. Qed.

Lemma ascii_of_N_of_ascii c : ascii_of_nat (N.to_nat (N_of_ascii c)) = c.
Proof.
  unfold ascii_of_nat. rewrite N2Nat.id. apply ascii_N_embedding.
Qed.

(** The bytes of a surrogate: what they are, and how its escape reads. *)
Lemma surrogate_bytes c c2 c3 u :
  surrogate c c2 c3 = Some u ->
  utf8 u = String c (String c2 (String c3 "")) /\
  unescape_unit (escape_unit u) = Some u /\
  is_high_surrogate u = negb (is_low_surrogate u) /\
  (128 <= N_of_ascii c /\ 128 <= N_of_ascii c2 /\ 128 <= N_of_ascii c3)%N.
Proof.
  intros H.
  assert (Hr : (N_of_ascii c = 237 /\ 160 <= N_of_ascii c2 < 192 /\
                128 <= N_of_ascii c3 < 192)%N).
  { unfold surrogate in H.
    destruct (N_of_ascii c =? 237)%N eqn:E1; [|discriminate].
    destruct (160 <=? N_of_ascii c2)%N eqn:E2; [|discriminate].
    destruct (N_of_ascii c2 <? 192)%N eqn:E3; [|discriminate].
    destruct (128 <=? N_of_ascii c3)%N eqn:E4; [|discriminate].
    destruct (N_of_ascii c3 <? 192)%N eqn:E5; [|discriminate].
    apply N.eqb_eq in E1. apply N.leb_le in E2, E4. apply N.ltb_lt in E3, E5.
    lia. }
  destruct Hr as (Hc & Hy & Hz).
  pose proof surrogate_checks as Hall. rewrite forallb_forall in Hall.
  specialize (Hall (N.to_nat (N_of_ascii c2))
                   ltac:(apply in_seq; lia)).
  rewrite forallb_forall in Hall.
  specialize (Hall (N.to_nat (N_of_ascii c3)) ltac:(apply in_seq; lia)).
  unfold surrogate_check in Hall.
  rewrite !ascii_of_N_of_ascii in Hall.
  replace (ascii_of_nat 237) with c in Hall
    by (rewrite <- (ascii_of_N_of_ascii c), Hc; reflexivity).
  rewrite H in Hall.
  apply andb_prop in Hall as [Hall H3]. apply andb_prop in Hall as [H1 H2].
  apply String.eqb_eq in H1. apply Bool.eqb_prop in H3.
  destruct (unescape_unit (escape_unit u)) as [w|]; [|discriminate].
  apply N.eqb_eq in H2. subst w.
  repeat split; try assumption; lia.
Qed.

(** A byte from 128 on stands for itself. *)
Lemma parse_raw c t :
  (128 <= N_of_ascii c)%N ->
  parse_chars (String c t) = cons_char c (parse_chars t).
Proof.
  intros H. simpl.
  destruct (N.eqb_spec (N_of_ascii c) 34); [lia|].
  destruct (N.eqb_spec (N_of_ascii c) 92); [lia|].
  destruct (N.ltb_spec (N_of_ascii c) 32); [lia|]. reflexivity.
Qed.

(** How an escaped code unit reads. *)
Lemma parse_unit u t :
  unescape_unit (escape_unit u) = Some u ->
  parse_chars (escape_unit u +:+ t)
  = if is_high_surrogate u then
      match low_escape t with
      | Some (w, r) => cons_string (utf8 (code_point u w)) (parse_chars r)
      | None => cons_string (utf8 u) (parse_chars t)
      end
    else cons_string (utf8 u) (parse_chars t).
Proof.
  intros H. unfold escape_unit in *. rewrite !append_cons, append_nil_l.
  cbn [unescape_unit] in H. simpl in H.
  cbn [parse_chars]. simpl N_of_ascii. simpl N.eqb. cbv iota.
  rewrite !append_cons, append_nil_l. cbv iota beta.
  rewrite H.
  destruct (is_high_surrogate u); [|reflexivity].
  destruct t as [|b [|x t']]; try reflexivity.
  cbn [low_escape].
  destruct ((N_of_ascii b =? 92)%N && (N_of_ascii x =? 117)%N); [|reflexivity].
  destruct t' as [|l1 [|l2 [|l3 [|l4 r]]]]; try reflexivity.
  destruct (hex4 l1 l2 l3 l4) as [w|]; [|reflexivity].
  destruct (is_low_surrogate w); reflexivity.
Qed.

(** After the escape of one character no low surrogate is escaped. *)
Lemma low_escape_char c t : low_escape (escape_char c +:+ t) = None.
Proof.
  destruct c as [[] [] [] [] [] [] [] []];
    try reflexivity; destruct t; reflexivity.
Qed.

(** The text of a string that does not start with a low surrogate does not
    start with the escape of one. *)
Lemma low_escape_escape r rest :
  starts_low r = false ->
  low_escape (escape r +:+ String "034" rest) = None.
Proof.
  intros Hr. destruct r as [|a r1].
  - destruct rest; reflexivity.
  - assert (Hdefault :
      low_escape ((escape_char a +:+ escape r1) +:+ String "034" rest) = None)
      by (rewrite append_assoc; apply low_escape_char).
    destruct r1 as [|b [|c r3]]; try exact Hdefault.
    simpl in Hr. cbn [escape].
    destruct (surrogate a b c) as [w|] eqn:Hs; [|exact Hdefault].
    destruct (surrogate_bytes a b c w Hs) as (_ & Hu & Hhl & Ha & _).
    rewrite Hhl, Hr. cbn [negb].
    assert (Hunit : low_escape ((escape_unit w +:+ escape r3) +:+ String "034" rest)
                    = None).
    { unfold escape_unit in *. rewrite !append_assoc.
      rewrite !append_cons, !append_nil_l.
      cbn [low_escape]. simpl N_of_ascii. simpl N.eqb. cbn [andb].
      cbv iota beta.
      cbn [unescape_unit] in Hu. simpl in Hu. rewrite Hu, Hr. reflexivity. }
    destruct r3 as [|t1 [|t2 [|t3 r6]]]; try exact Hunit.
    destruct (surrogate t1 t2 t3) as [w'|]; [|exact Hunit].
    destruct (is_low_surrogate w'); [|exact Hunit].
    rewrite !append_cons. cbn [low_escape].
    destruct (N.eqb_spec (N_of_ascii a) 92); [lia|]. reflexivity.
Qed.

Lemma parse_escape_length n : forall s rest,
  (String.length s <= n)%nat ->
  parse_chars (escape s +:+ String "034" rest) = Some (s, rest).
Proof.
  induction n as [|n IH]; intros s rest Hn.
  - destruct s; [reflexivity|simpl in Hn; lia].
  - destruct s as [|c r]; [reflexivity|]. simpl in Hn.
    assert (Hchar : parse_chars ((escape_char c +:+ escape r) +:+ String "034" rest)
                    = Some (String c r, rest)).
    { rewrite append_assoc, parse_escape_char, IH by lia. reflexivity. }
    destruct r as [|c2 [|c3 r3]]; try exact Hchar.
    cbn [escape].
    destruct (surrogate c c2 c3) as [u|] eqn:Hs; [|exact Hchar].
    destruct (surrogate_bytes c c2 c3 u Hs) as (Hutf & Hu & Hhl & Hc & Hc2 & Hc3).
    simpl in Hn.
    assert (Hunit : starts_low r3 = false \/ is_high_surrogate u = false ->
              parse_chars ((escape_unit u +:+ escape r3) +:+ String "034" rest)
              = Some (String c (String c2 (String c3 r3)), rest)).
    { intros Hcase. rewrite append_assoc, parse_unit by exact Hu.
      assert (E : parse_chars (escape r3 +:+ String "034" rest) = Some (r3, rest))
        by (apply IH; lia).
      destruct (is_high_surrogate u) eqn:Hhigh.
      - destruct Hcase as [Hcase|Hcase]; [|discriminate Hcase].
        rewrite (low_escape_escape r3 rest Hcase), E, Hutf. reflexivity.
      - rewrite E, Hutf. reflexivity. }
    destruct (is_high_surrogate u) eqn:Hhigh; [|apply Hunit; right; reflexivity].
    destruct r3 as [|t1 [|t2 [|t3 r6]]];
      try (apply Hunit; left; reflexivity).
    destruct (surrogate t1 t2 t3) as [w|] eqn:Hs';
      [|apply Hunit; left; simpl; rewrite Hs'; reflexivity].
    destruct (is_low_surrogate w) eqn:Hlow;
      [|apply Hunit; left; simpl; rewrite Hs', Hlow; reflexivity].
    destruct (surrogate_bytes t1 t2 t3 w Hs') as (_ & _ & _ & Ht1 & Ht2 & Ht3).
    rewrite !append_cons.
    rewrite !parse_raw by assumption.
    simpl in Hn. rewrite IH by lia. reflexivity.
Qed.

Lemma parse_escape s rest :
  parse_chars (escape s +:+ String "034" rest) = Some (s, rest).
Proof. apply (parse_escape_length (String.length s)). lia. Qed.

Lemma parse_quote s rest :
  quote s +:+ rest = String "034" (escape s +:+ String "034" rest).
Proof.
  unfold quote. rewrite append_cons, append_assoc. reflexivity.
Qed.

(** *** Numbers *)

Lemma span_digits_uint d rest :
  no_digit_head rest ->
  span_digits (NilEmpty.string_of_uint d +:+ rest)
  = (NilEmpty.string_of_uint d, rest).
Proof.
  intros Hrest. induction d; simpl NilEmpty.string_of_uint;
    rewrite ?append_cons; simpl span_digits; rewrite ?IHd; try reflexivity.
  rewrite append_nil_l. destruct rest as [|c r]; [reflexivity|].
  simpl in *. rewrite Hrest. reflexivity.
Qed.

Lemma nzhead_not_D0 d d' : Decimal.nzhead d <> Decimal.D0 d'.
Proof. induction d; simpl; auto; discriminate. Qed.

Lemma to_uint_canonical n : canonical (N.to_uint n) = true.
Proof.
  pose proof (DecimalN.Unsigned.to_of (N.to_uint n)) as H.
  rewrite DecimalN.Unsigned.of_to in H.
  destruct (N.to_uint n) as [|d| | | | | | | | |]eqn:E; try reflexivity.
  - unfold Decimal.unorm in H. simpl in H. discriminate.
  - destruct d; try reflexivity; exfalso.
    all: unfold Decimal.unorm in H; simpl Decimal.nzhead in H.
    all: try discriminate.
    destruct (Decimal.nzhead d) eqn:E'; try discriminate.
    exact (nzhead_not_D0 _ _ E').
Qed.

Lemma delim_no_digit rest : delim rest -> no_digit_head rest.
Proof.
  destruct rest as [|c r]; [easy|]. simpl. intros [-> | [-> | ->]]; reflexivity.
Qed.

Lemma delim_skip_ws rest : delim rest -> skip_ws rest = rest.
Proof.
  destruct rest as [|c r]; [easy|]. simpl. intros [-> | [-> | ->]]; reflexivity.
Qed.

Lemma digits_head n :
  exists c t, digits n = String c t /\ is_digit c = true.
Proof.
  unfold digits. pose proof (to_uint_canonical n) as H.
  destruct (N.to_uint n); try discriminate; simpl; eauto.
Qed.

Lemma parse_digits n rest :
  delim rest ->
  parse_unsigned (digits n +:+ rest) = Some (n, rest).
Proof.
  intros Hd. unfold parse_unsigned, digits.
  rewrite span_digits_uint by (apply delim_no_digit; exact Hd).
  rewrite NilEmpty.usu, to_uint_canonical, DecimalN.Unsigned.of_to.
  reflexivity.
Qed.

Lemma delim_no_fraction rest : delim rest -> parse_fraction rest = Some ("", rest).
Proof.
  destruct rest as [|c r]; [reflexivity|].
  simpl. intros [-> | [-> | ->]]; reflexivity.
Qed.

Lemma delim_no_exponent rest : delim rest -> parse_exponent rest = Some (0, rest).
Proof.
  destruct rest as [|c r]; [reflexivity|].
  simpl. intros [-> | [-> | ->]]; reflexivity.
Qed.

(** An integer up to 2^53 is its own Number value. *)
Lemma number_of_small_integer m :
  0 <= m <= 2 ^ 53 -> number_of_decimal m 0 = NInt m.
Proof.
  intros Hm. unfold number_of_decimal.
  destruct (m =? 0) eqn:E0; [apply Z.eqb_eq in E0; subst; reflexivity|].
  rewrite Z.pow_0_r, Z.mul_1_r.
  replace (m <=? 2 ^ 53) with true by (symmetry; apply Z.leb_le; lia).
  reflexivity.
Qed.

Lemma parse_positive_digits n rest :
  (Z.of_N n <= 2 ^ 53) ->
  delim rest ->
  parse_positive (digits n +:+ rest) = Some (NInt (Z.of_N n), rest).
Proof.
  intros Hn Hd. unfold parse_positive.
  rewrite (parse_digits n rest Hd), (delim_no_fraction rest Hd),
    (delim_no_exponent rest Hd).
  change (Z.of_nat (String.length "")) with 0.
  change (value_of_digits "") with 0.
  rewrite Z.pow_0_r, Z.mul_1_r, Z.add_0_r, Z.sub_0_r.
  rewrite number_of_small_integer by lia. reflexivity.
Qed.

Lemma parse_string_of_Z z rest :
  Z.abs z <= 2 ^ 53 ->
  delim rest ->
  parse_number (string_of_Z z +:+ rest) = Some (NInt z, rest).
Proof.
  intros Hz Hd.
  assert (Hpos : forall n, Z.of_N n <= 2 ^ 53 ->
            parse_number (digits n +:+ rest) = Some (NInt (Z.of_N n), rest)).
  { intros n Hn. pose proof (parse_positive_digits n rest Hn Hd) as H.
    destruct (digits_head n) as (c & t & E & Hc).
    unfold parse_number. rewrite E, append_cons in *.
    destruct c as [[] [] [] [] [] [] [] []]; try exact H; discriminate. }
  destruct z as [|p|p]; simpl string_of_Z.
  - apply (Hpos 0%N). simpl. lia.
  - apply (Hpos (Npos p)). simpl in *. lia.
  - rewrite append_cons. unfold parse_number.
    rewrite (parse_positive_digits (Npos p) rest) by (simpl in *; lia || exact Hd).
    reflexivity.
Qed.

(** *** Values *)

Lemma value_ind' (P : value -> Prop) :
  P Undefined -> P Null -> (forall b, P (Bool b)) -> (forall n, P (Num n)) ->
  (forall s, P (Str s)) ->
  (forall l, Forall P l -> P (Arr l)) ->
  (forall l, Forall (fun p => P (snd p)) l -> P (Obj l)) ->
  forall v, P v.
Proof.
  intros HU HN HB HNum HS HA HO.
  fix IH 1. intros [| |b|n|s|l|l].
  - exact HU.
  - exact HN.
  - apply HB.
  - apply HNum.
  - apply HS.
  - apply HA. induction l as [|x l IHl]; constructor; [apply IH|exact IHl].
  - apply HO. induction l as [|[k x] l IHl]; constructor; [apply IH|exact IHl].
Qed.

Lemma serialize_representable v :
  representable v = true -> serialize v = Some (text v).
Proof.
  unfold text. destruct v as [| |[]|[]| | |]; simpl; try discriminate; reflexivity.
Qed.

(** A safe integer is written in its digits. *)
Lemma safe_integer z :
  representable (Num (NInt z)) = true ->
  Z.abs z <= 2 ^ 53 /\ string_of_number (NInt z) = string_of_Z z.
Proof.
  intros H. simpl in H. apply Z.leb_le in H. unfold MAX_SAFE_INTEGER in H.
  assert (Hz : Z.abs z <= 2 ^ 53) by (change (2 ^ 53) with 9007199254740992; lia).
  split; [exact Hz|]. unfold string_of_number.
  apply Z.leb_le in Hz. rewrite Hz. reflexivity.
Qed.

Lemma text_Arr l :
  text (Arr l) = "[" +:+ join "," (List.map text l) +:+ "]".
Proof. reflexivity. Qed.

Lemma text_Obj l :
  forallb (fun p => representable (snd p)) l = true ->
  text (Obj l) = "{" +:+ join "," (List.map member l) +:+ "}".
Proof.
  intros H. unfold text. simpl. do 3 f_equal.
  induction l as [|[k x] l IH]; [reflexivity|].
  simpl in H. apply andb_true_iff in H as [Hx Hl].
  rewrite (serialize_representable x Hx). simpl. rewrite IH by exact Hl.
  reflexivity.
Qed.

Lemma text_head v :
  representable v = true ->
  exists c t, text v = String c t /\ opens c = true.
Proof.
  intros H. destruct v as [| |[]|[z|m e| | |]| |l|l]; try discriminate H;
    try (do 2 eexists; split; [reflexivity|reflexivity]).
  - change (text (Num (NInt z))) with (string_of_number (NInt z)).
    rewrite (proj2 (safe_integer z H)).
    destruct z as [|p|p]; simpl.
    + do 2 eexists; split; reflexivity.
    + destruct (digits_head (Npos p)) as (c & t & -> & Hc).
      exists c, t. split; [reflexivity|].
      destruct c as [[] [] [] [] [] [] [] []]; try discriminate Hc; reflexivity.
    + do 2 eexists; split; reflexivity.
Qed.

Lemma skip_ws_opens c t : opens c = true -> skip_ws (String c t) = String c t.
Proof.
  unfold opens. intros H. simpl. destruct (is_ws c); [discriminate|reflexivity].
Qed.

Lemma parse_elements_text l :
  l <> [] -> Forall (fun x => representable x = true /\ parses x) l ->
  forall fuel rest,
    (list_sum (List.map (fun x => Datatypes.S (size x)) l) <= fuel)%nat ->
    parse_elements fuel (join "," (List.map text l) +:+ String "]" rest)
    = Some (l, rest).
Proof.
  induction l as [|x l IH]; [congruence|]. intros _ Hall fuel rest Hfuel.
  apply Forall_cons in Hall as [[Hx Px] Hl].
  simpl in Hfuel. destruct fuel as [|fuel]; [lia|].
  destruct l as [|y l].
  - simpl join. simpl parse_elements.
    rewrite (Px fuel (String "]" rest)) by (simpl; auto; lia).
    reflexivity.
  - specialize (IH ltac:(discriminate) Hl fuel rest ltac:(simpl in *; lia)).
    change (join "," (List.map text (x :: y :: l)))
      with (text x +:+ "," +:+ join "," (List.map text (y :: l))).
    remember (join "," (List.map text (y :: l))) as j.
    rewrite !append_assoc. simpl parse_elements.
    rewrite Px by (simpl; auto; lia).
    simpl. rewrite append_nil_l, IH. reflexivity.
Qed.

Lemma parse_members_text l :
  l <> [] -> Forall (fun p => representable (snd p) = true /\ parses (snd p)) l ->
  forall fuel rest,
    (list_sum (List.map (fun p => Datatypes.S (size (snd p))) l) <= fuel)%nat ->
    parse_members fuel (join "," (List.map member l) +:+ String "}" rest)
    = Some (l, rest).
Proof.
  induction l as [|[k x] l IH]; [congruence|]. intros _ Hall fuel rest Hfuel.
  apply Forall_cons in Hall as [[Hx Px] Hl]. simpl in Hx, Px.
  simpl in Hfuel. destruct fuel as [|fuel]; [lia|].
  destruct l as [|y l].
  - simpl join. unfold member at 1. simpl fst. simpl snd.
    rewrite !append_assoc, parse_quote. simpl parse_members.
    rewrite parse_escape. simpl.
    rewrite append_nil_l, Px by (simpl; auto; lia).
    reflexivity.
  - specialize (IH ltac:(discriminate) Hl fuel rest ltac:(simpl in *; lia)).
    change (join "," (List.map member ((k, x) :: y :: l)))
      with (member (k, x) +:+ "," +:+ join "," (List.map member (y :: l))).
    remember (join "," (List.map member (y :: l))) as j.
    unfold member at 1. simpl fst. simpl snd.
    rewrite !append_assoc, parse_quote. simpl parse_members.
    rewrite parse_escape. simpl.
    rewrite append_nil_l, Px by (simpl; auto; lia).
    simpl. rewrite append_nil_l, IH. reflexivity.
Qed.

Lemma obj_set_fresh k v acc :
  existsb (String.eqb k) (fst <$> acc) = false ->
  obj_set k v acc = acc ++ [(k, v)].
Proof.
  induction acc as [|[k' v'] acc IH]; [reflexivity|]. simpl.
  intros H. apply orb_false_iff in H as [Hk Hacc].
  rewrite Hk, IH by exact Hacc. reflexivity.
Qed.

Lemma existsb_app_false (k : string) (l1 l2 : list string) :
  existsb (String.eqb k) (l1 ++ l2) = false <->
  existsb (String.eqb k) l1 = false /\ existsb (String.eqb k) l2 = false.
Proof. rewrite existsb_app. apply orb_false_iff. Qed.

Lemma obj_of_members_nodup ms acc :
  nodup_keys ((fst <$> acc) ++ (fst <$> ms)) = true ->
  obj_of_members ms acc = acc ++ ms.
Proof.
  revert acc. induction ms as [|[k v] ms IH]; intros acc H.
  - simpl. rewrite app_nil_r. reflexivity.
  - simpl obj_of_members.
    assert (Hfresh : existsb (String.eqb k) (fst <$> acc) = false).
    { clear IH. induction acc as [|[k' v'] acc IHacc]; [reflexivity|].
      simpl in H |- *. apply andb_true_iff in H as [Hk' Hrest].
      apply negb_true_iff in Hk'.
      apply existsb_app_false in Hk' as [_ Hk']. simpl in Hk'.
      apply orb_false_iff in Hk' as [Hk' _].
      rewrite String.eqb_sym, Hk'. simpl. apply IHacc. exact Hrest. }
    rewrite obj_set_fresh by exact Hfresh.
    rewrite IH.
    + rewrite <- app_assoc. reflexivity.
    + rewrite fmap_app. simpl. rewrite <- app_assoc. exact H.
Qed.

Lemma parse_text v : representable v = true -> parses v.
Proof.
  induction v as [| |b|n|s|l IH|l IH] using value_ind'; intros Hv;
    try discriminate Hv; intros fuel rest Hfuel Hd;
    (destruct fuel as [|fuel]; [simpl in Hfuel; lia|]).
  - reflexivity.
  - destruct b; reflexivity.
  - destruct n as [z|m e| | |]; try discriminate Hv.
    destruct (safe_integer z Hv) as [Hsafe Hs].
    change (text (Num (NInt z))) with (string_of_number (NInt z)).
    pose proof (parse_string_of_Z z rest Hsafe Hd) as Hz.
    destruct (text_head (Num (NInt z)) Hv) as (c & t & E & Hc).
    change (text (Num (NInt z))) with (string_of_number (NInt z)) in E.
    rewrite Hs in E |- *.
    simpl parse_value. rewrite E, append_cons in Hz |- *.
    rewrite skip_ws_opens by exact Hc. rewrite Hz.
    destruct z as [|p|p]; simpl in E.
    + injection E as <- <-. reflexivity.
    + destruct (digits_head (Npos p)) as (c' & t' & E' & Hc').
      rewrite E' in E. injection E as <- <-.
      destruct c' as [[] [] [] [] [] [] [] []]; try discriminate Hc'; reflexivity.
    + injection E as <- <-. reflexivity.
  - unfold text. simpl serialize. simpl default.
    rewrite parse_quote. simpl. rewrite parse_escape. reflexivity.
  - simpl in Hv, Hfuel. rewrite text_Arr.
    destruct l as [|x l]; [reflexivity|].
    assert (Hall : Forall (fun x => representable x = true /\ parses x) (x :: l)).
    { apply List.Forall_forall. intros y Hy. rewrite List.Forall_forall in IH.
      rewrite forallb_forall in Hv. split; [|apply IH]; auto. }
    pose proof (parse_elements_text (x :: l) ltac:(discriminate) Hall fuel rest
                  ltac:(lia)) as He.
    destruct (text_head x) as (c & t & E & Hc).
    { apply Forall_cons in Hall as [[Hx _] _]. exact Hx. }
    remember (join "," (List.map text (x :: l))) as j.
    assert (Ej : exists t', j = String c t').
    { subst j. simpl. rewrite E. destruct (List.map text l); eauto. }
    destruct Ej as [t' Ej]. 
    rewrite !append_assoc. simpl parse_value. rewrite append_nil_l.
    change (j +:+ "]" +:+ rest) with (j +:+ String "]" rest).
    rewrite He. rewrite Ej, append_cons, skip_ws_opens by exact Hc.
    unfold opens in Hc.
    destruct c as [[] [] [] [] [] [] [] []]; try discriminate Hc; reflexivity.
  - simpl in Hv, Hfuel. apply andb_true_iff in Hv as [Hk Hv].
    rewrite text_Obj by exact Hv.
    destruct l as [|[k x] l]; [reflexivity|].
    assert (Hall : Forall (fun p => representable (snd p) = true /\ parses (snd p))
                          ((k, x) :: l)).
    { apply List.Forall_forall. intros y Hy. rewrite List.Forall_forall in IH.
      rewrite forallb_forall in Hv. split; [|apply IH]; auto. }
    pose proof (parse_members_text ((k, x) :: l) ltac:(discriminate) Hall fuel rest
                  ltac:(lia)) as He.
    remember (join "," (List.map member ((k, x) :: l))) as j.
    assert (Ej : exists t', j = String "034" t').
    { assert (Hm : exists t0, member (k, x) = String "034" t0).
      { unfold member, quote. simpl fst. rewrite append_cons. eauto. }
      destruct Hm as [t0 Hm]. subst j. simpl List.map.
      destruct (List.map member l) as [|m ms]; simpl join;
        rewrite Hm, ?append_cons; eauto. }
    destruct Ej as [t' Ej].
    rewrite !append_assoc. simpl parse_value. rewrite append_nil_l.
    change (j +:+ "}" +:+ rest) with (j +:+ String "}" rest).
    rewrite He. rewrite Ej, append_cons. simpl skip_ws. cbv iota.
    rewrite (obj_of_members_nodup ((k, x) :: l) []) by exact Hk.
    reflexivity.
Qed.

Lemma join_length {A} (f : A -> string) (g : A -> nat) (l : list A) :
  Forall (fun x => (g x <= String.length (f x))%nat) l ->
  (list_sum (List.map (fun x => Datatypes.S (g x)) l)
   <= String.length (join "," (List.map f l)) + 1)%nat.
Proof.
  induction 1 as [|x l Hx Hl IH]; [simpl; lia|].
  simpl List.map. simpl list_sum.
  destruct l as [|y l].
  - simpl. lia.
  - change (join "," (f x :: List.map f (y :: l)))
      with (f x +:+ "," +:+ join "," (List.map f (y :: l))).
    rewrite !length_append. simpl String.length at 2. simpl List.map in *. lia.
Qed.

Lemma size_le_length v :
  representable v = true -> (size v <= String.length (text v))%nat.
Proof.
  induction v as [| |b|n|s|l IH|l IH] using value_ind'; intros Hv;
    try discriminate Hv.
  - simpl. lia.
  - destruct b; simpl; lia.
  - destruct (text_head (Num n) Hv) as (c & t & -> & _). simpl. lia.
  - destruct (text_head (Str s) Hv) as (c & t & -> & _). simpl. lia.
  - rewrite text_Arr, !length_append. simpl in Hv |- *.
    assert (H : Forall (fun x => (size x <= String.length (text x))%nat) l).
    { apply List.Forall_forall. intros y Hy. rewrite List.Forall_forall in IH.
      rewrite forallb_forall in Hv. auto. }
    pose proof (join_length text size l H). lia.
  - simpl in Hv. apply andb_true_iff in Hv as [Hk Hv].
    rewrite text_Obj, !length_append by exact Hv. simpl.
    assert (H : Forall (fun p => (size (snd p) <= String.length (member p))%nat) l).
    { apply List.Forall_forall. intros y Hy. rewrite List.Forall_forall in IH.
      rewrite forallb_forall in Hv. unfold member. rewrite !length_append.
      specialize (IH y Hy (Hv y Hy)). lia. }
    pose proof (join_length member (fun p => size (snd p)) l H). lia.
Qed.

(** Writing a representable value and reading the text back gives the
    value. *)
Lemma JSON_roundtrip v :
  representable v = true ->
  exists t, JSON_stringify v = Some t /\ JSON_parse t = Some v.
Proof.
  intros Hv. exists (text v). split.
  - apply serialize_representable. exact Hv.
  - unfold JSON_parse.
    pose proof (parse_text v Hv (Datatypes.S (String.length (text v))) ""
                  ltac:(pose proof (size_le_length v Hv); lia) I) as H.
    rewrite append_nil_r in H. rewrite H. reflexivity.
Qed.

(** *** Reading and writing at work *)

(** Numbers are read in the whole JSON notation and rounded to the nearest
    double; what is no number literal is refused.  Numbers are written in
    the shortest digits that read back. *)
Example number_examples :
  JSON_parse "1.5" = Some (Num (NDyadic 3 1)) /\
  JSON_parse "1e3" = Some (Num (NInt 1000)) /\
  JSON_parse "-2.5E-1" = Some (Num (NDyadic (-1) 2)) /\
  JSON_parse "0.1" = Some (Num (NDyadic 3602879701896397 55)) /\
  JSON_parse "9007199254740993" = Some (Num (NInt 9007199254740992)) /\
  JSON_parse "1e400" = Some (Num (NInf false)) /\
  JSON_parse "1e-400" = Some (Num (NInt 0)) /\
  JSON_parse "-0" = Some (Num NNegZero) /\
  serialize (Num NNegZero) = Some "0" /\
  JSON_parse "1." = None /\
  JSON_parse ".5" = None /\
  JSON_parse "01" = None /\
  JSON_parse "1e" = None /\
  JSON_parse "+1" = None /\
  serialize (Num (NDyadic 3 1)) = Some "1.5" /\
  serialize (Num (NDyadic 3602879701896397 55)) = Some "0.1" /\
  serialize (Num (NDyadic (-1) 20)) = Some "-9.5367431640625e-7" /\
  serialize (Num (NInt (10 ^ 21))) = Some "1e+21" /\
  serialize (Num (NInt (2 ^ 60))) = Some "1152921504606847000" /\
  serialize (Num (NDyadic 1 1074)) = Some "5e-324".
Proof. vm_compute. repeat split. Qed.

(** Escapes are read for every code unit; an escaped surrogate pair is one
    character.  A character is written as it is, a surrogate on its own as
    an escape. *)
Example string_examples :
  JSON_parse (in_quotes "\u0041\u00e9\u0100\u20AC") = Some (Str "AéĀ€") /\
  JSON_parse (in_quotes "\ud83d\ude00") = Some (Str "😀") /\
  JSON_parse (in_quotes "\uD83D") = Some (Str (utf8 55357)) /\
  JSON_parse (in_quotes "\u12") = None /\
  JSON_parse (in_quotes "\x41") = None /\
  serialize (Str "AéĀ€😀") = Some (in_quotes "AéĀ€😀") /\
  serialize (Str (utf8 55357 +:+ "A")) = Some (in_quotes "\ud83dA") /\
  serialize (Str (utf8 56832 +:+ utf8 55357)) = Some (in_quotes "\ude00\ud83d").
Proof. vm_compute. repeat split. Qed.

End JSONFacts.

(** ** Traces *)

Section TraceFacts.
Context {S : Type}.

Lemma new_events_app (w : world S) s' d :
  new_events w {| store := s'; trace := trace w ++ d |} = d.
Proof. unfold new_events. simpl. apply drop_app_length. Qed.

Lemma new_events_refl (w : world S) : new_events w w = [].
Proof. unfold new_events. apply drop_all. Qed.

Lemma acked_app tr1 tr2 : acked (tr1 ++ tr2) = acked tr1 ++ acked tr2.
Proof. unfold acked. apply omap_app. Qed.

Lemma calls_app tr1 tr2 : calls (tr1 ++ tr2) = calls tr1 ++ calls tr2.
Proof. unfold calls. apply omap_app. Qed.

Lemma purges_app tr1 tr2 : purges (tr1 ++ tr2) = (purges tr1 + purges tr2)%nat.
Proof. unfold purges. rewrite List.filter_app, length_app. reflexivity. Qed.

Lemma acked_cons e tr : acked (e :: tr) = acked [e] ++ acked tr.
Proof. apply (acked_app [e] tr). Qed.

Lemma calls_cons e tr : calls (e :: tr) = calls [e] ++ calls tr.
Proof. apply (calls_app [e] tr). Qed.

Lemma purges_cons e tr : purges (e :: tr) = (purges [e] + purges tr)%nat.
Proof. apply (purges_app [e] tr). Qed.

(** A stretch of the trace without commands has no acknowledgment and no
    purge in it. *)
Lemma no_calls tr : calls tr = [] -> acked tr = [] /\ purges tr = 0%nat.
Proof.
  induction tr as [|[c r| |] tr IH]; simpl; try discriminate; auto.
Qed.

Lemma In_calls c r tr : In (Call c r) tr -> In c (calls tr).
Proof.
  induction tr as [|ev tr IH]; [easy|].
  intros [-> | H].
  - rewrite calls_cons. left. reflexivity.
  - rewrite calls_cons. apply in_or_app. right. apply IH. exact H.
Qed.
End TraceFacts.

(** Unfolding a method down to the replies of the store. *)
Ltac unfold_M :=
  unfold console_error, console_log, JSON_parse_M;
  unfold try_catch, bind, ret, throw, gets, log_event, when, call,
    with_locals, lift;
  unfold modify; simpl.

Ltac simpl_trace :=
  repeat rewrite <- app_assoc; simpl;
  rewrite ?new_events_app, ?new_events_refl; simpl.

(** ** MessageStream, against any store *)

Module StreamFacts.
Import MessageStream Errors.

#[local] Arguments deleteProcessedMessages : simpl never.
#[local] Arguments getFailedMessage : simpl never.
#[local] Arguments read_failed : simpl never.
#[local] Arguments read_new : simpl never.
#[local] Arguments acknowledge : simpl never.

Section Any.
Context {S : Type}.
Variable exec : handler S.
Implicit Types this : t S.

Lemma deleteProcessedMessages_empty this :
  processedMessageIds this = [] ->
  deleteProcessedMessages exec this = (Ok tt, this).
Proof.
  intros H. unfold deleteProcessedMessages. unfold_M. rewrite H. reflexivity.
Qed.

Lemma deleteProcessedMessages_nonempty this :
  processedMessageIds this <> [] ->
  deleteProcessedMessages exec this =
  match exec (XDEL (streamName this) (processedMessageIds this))
             (store (client this)) with
  | (Ok n, s') =>
      (Ok tt,
       set_processedMessageIds []
         (set_client
            {| store := s';
               trace := trace (client this)
                        ++ [Call (XDEL (streamName this) (processedMessageIds this))
                                 (Ok n)] |} this))
  | (Throw e, s') =>
      (Throw (StreamPurgeError this),
       set_client
         {| store := s';
            trace := trace (client this)
                     ++ [Call (XDEL (streamName this) (processedMessageIds this))
                              (Throw e);
                         ConsoleError e] |} this)
  end.
Proof.
  destruct this as [u key group consumer w ids]. simpl. intros H.
  unfold deleteProcessedMessages. unfold_M.
  destruct ids as [|x l]; [congruence|].
  simpl. destruct (exec _ _) as [[n|e] s']; simpl; [reflexivity|].
  rewrite <- app_assoc. reflexivity.
Qed.

(** What [getFailedMessage] makes of the reply to its XAUTOCLAIM. *)
Lemma getFailedMessage_spec this :
  let c := XAUTOCLAIM (streamName this) (consumerGroup this) (consumerId this)
                      0 "0" 0 1 in
  let reply := exec c (store (client this)) in
  exists d,
    calls d = [] /\
    snd (getFailedMessage exec this)
    = set_client {| store := snd reply;
                    trace := trace (client this) ++ Call c (fst reply) :: d |} this /\
    match fst reply with
    | Throw e => fst (getFailedMessage exec this) = Throw e
    | Ok None => fst (getFailedMessage exec this) = Ok absent
    | Ok (Some r) =>
        match ac_messages r with
        | [] => fst (getFailedMessage exec this) = Ok absent
        | None :: _ => fst (getFailedMessage exec this) = Throw TypeError
        | Some m :: _ =>
            match JS.JSON_parse (default "undefined" (data_of m)) with
            | Some v =>
                fst (getFailedMessage exec this)
                = Ok {| id := Some (sm_id m); message := v |}
            | None => fst (getFailedMessage exec this) = Throw SyntaxError
            end
        end
    end.
Proof.
  destruct this as [u key group consumer w ids]. simpl.
  unfold getFailedMessage, parse_data, set_id, set_message, this. unfold_M.
  destruct (exec _ _) as [[[r|]|e] s']; simpl.
  - destruct (ac_messages r) as [|[m|] ms]; simpl.
    + exists []. repeat split.
    + destruct (JS.JSON_parse _); simpl.
      * exists []. repeat split.
      * exists [ConsoleError SyntaxError]. rewrite <- app_assoc. repeat split.
    + exists [ConsoleError TypeError]. rewrite <- app_assoc. repeat split.
  - exists []. repeat split.
  - exists [ConsoleError e]. rewrite <- app_assoc. repeat split.
Qed.

(** The first block sends one XAUTOCLAIM and never throws. *)
Lemma read_failed_spec (l : message_data) this :
  exists l' s' d,
    read_failed exec (l, this)
    = (Ok tt, (l', set_client {| store := s';
                                 trace := trace (client this) ++ d |} this)) /\
    calls d = [XAUTOCLAIM (streamName this) (consumerGroup this)
                          (consumerId this) 0 "0" 0 1] /\
    acked d = [] /\ purges d = 0%nat /\
    ((exists e, fst (getFailedMessage exec this) = Throw e /\ l' = l) \/
     (exists md, fst (getFailedMessage exec this) = Ok md /\ l' = md)).
Proof.
  destruct (getFailedMessage_spec this) as (d & Hd & Hsnd & Hfst).
  unfold read_failed, set_id, set_message. unfold_M.
  destruct (getFailedMessage exec this) as [r this'] eqn:E. simpl in Hsnd, Hfst.
  subst this'. destruct this as [u key group consumer w ids]. simpl in *.
  set (c := XAUTOCLAIM key group consumer 0 "0" 0 1) in *.
  destruct (no_calls d Hd) as [Ha Hp].
  destruct r as [md|e]; simpl.
  - exists md, (snd (exec c (store w))), (Call c (fst (exec c (store w))) :: d).
    split; [destruct md; reflexivity|].
    rewrite calls_cons, acked_cons, purges_cons, Hd, Ha, Hp.
    repeat split. right. exists md. destruct md; auto.
  - exists l, (snd (exec c (store w))),
      (Call c (fst (exec c (store w))) :: d ++ [ConsoleError e]).
    split; [rewrite <- app_assoc; reflexivity|].
    rewrite calls_cons, acked_cons, purges_cons, calls_app, acked_app,
      purges_app, Hd, Ha, Hp.
    repeat split. left. eauto.
Qed.

(** The second block sends one XREADGROUP and never throws. *)
Lemma read_new_spec (l : message_data) this :
  exists l' s' d,
    read_new exec (l, this)
    = (Ok tt, (l', set_client {| store := s';
                                 trace := trace (client this) ++ d |} this)) /\
    calls d = [XREADGROUP (consumerGroup this) (consumerId this)
                          (streamName this) ">" 2000 1] /\
    acked d = [] /\ purges d = 0%nat.
Proof.
  destruct this as [u key group consumer w ids]. simpl.
  unfold read_new, parse_data, set_id, set_message, this. unfold_M.
  destruct (exec _ _) as [[[[|r rs]|]|e] s']; simpl.
  - do 3 eexists. split; [rewrite <- app_assoc; reflexivity|]. repeat split.
  - destruct (sr_messages r) as [|m ms]; simpl.
    + do 3 eexists. split; [rewrite <- app_assoc; reflexivity|]. repeat split.
    + destruct (JS.JSON_parse _); simpl.
      * do 3 eexists. split; [reflexivity|]. repeat split.
      * do 3 eexists. split; [rewrite <- app_assoc; reflexivity|]. repeat split.
  - do 3 eexists. split; [rewrite <- app_assoc; reflexivity|]. repeat split.
  - do 3 eexists. split; [rewrite <- app_assoc; reflexivity|]. repeat split.
Qed.

(** What the third block does, by the outcome of its XACK and of the purge
    it may trigger. *)
Lemma acknowledge_spec (i : string) (l : message_data) this :
  let c := XACK (streamName this) (consumerGroup this) i in
  let w := client this in
  let ids := set_add i (processedMessageIds this) in
  let del := XDEL (streamName this) ids in
  exists s' d ids',
    acknowledge exec i (l, this)
    = (Ok tt, (l, set_processedMessageIds ids'
                    (set_client {| store := s'; trace := trace w ++ d |} this))) /\
    ((exists e, d = [Call c (Throw e); ConsoleError e] /\
                ids' = processedMessageIds this) \/
     (exists n, d = [Call c (Ok n)] /\ ids' = ids /\
                set_size ids <= MAX_PROCESSED_IDS) \/
     (exists n m, d = [Call c (Ok n); Call del (Ok m)] /\ ids' = [] /\
                  MAX_PROCESSED_IDS < set_size ids) \/
     (exists n e, d = [Call c (Ok n); Call del (Throw e); ConsoleError e;
                       ConsoleError (StreamPurgeError this)] /\
                  ids' = ids /\ MAX_PROCESSED_IDS < set_size ids)).
Proof.
  destruct this as [u key group consumer w ids]. simpl.
  unfold acknowledge, this. unfold_M.
  destruct (exec (XACK _ _ _) _) as [[n|e] s1]; simpl.
  - destruct (MAX_PROCESSED_IDS <? set_size (set_add i ids)) eqn:Hmax; simpl.
    + apply Z.ltb_lt in Hmax.
      assert (Hne : set_add i ids <> []).
      { intros E. rewrite E in Hmax. unfold MAX_PROCESSED_IDS, set_size in Hmax.
        simpl in Hmax. lia. }
      unfold set_processedMessageIds. simpl.
      rewrite deleteProcessedMessages_nonempty by exact Hne.
      simpl. destruct (exec (XDEL _ _) _) as [[m|e] s2]; simpl.
      * do 3 eexists. split; [rewrite <- app_assoc; reflexivity|].
        right. right. left. eauto.
      * do 3 eexists. split; [rewrite <- !app_assoc; reflexivity|].
        right. right. right. eauto.
    + apply Z.ltb_ge in Hmax.
      do 3 eexists. split; [reflexivity|]. right. left. eauto.
  - do 3 eexists. split; [rewrite <- app_assoc; reflexivity|]. left. eauto.
Qed.

(** One call of [consumeMessage]: it never throws; the read part [d] of
    what it does holds no acknowledgment and no purge; the rest [d_ack] is
    the acknowledgment of the entry it returns, with the purge it may
    trigger. *)
Lemma consumeMessage_spec this :
  let cA := XAUTOCLAIM (streamName this) (consumerGroup this) (consumerId this)
                       0 "0" 0 1 in
  let cR := XREADGROUP (consumerGroup this) (consumerId this) (streamName this)
                       ">" 2000 1 in
  let ids := processedMessageIds this in
  exists md s' d d_ack ids',
    consumeMessage exec this
    = (Ok md,
       set_processedMessageIds ids'
         (set_client {| store := s';
                        trace := trace (client this) ++ d ++ d_ack |} this)) /\
    acked d = [] /\ purges d = 0%nat /\
    match fst (getFailedMessage exec this) with
    | Ok md0 =>
        if JS.truthy (message md0) then calls d = [cA] /\ md = md0
        else calls d = [cA; cR]
    | Throw _ => calls d = [cA; cR]
    end /\
    ((JS.truthy_id (id md) = false /\ d_ack = [] /\ ids' = ids) \/
     (exists i, id md = Some i /\ JS.truthy_id (Some i) = true /\
        let c := XACK (streamName this) (consumerGroup this) i in
        let del := XDEL (streamName this) (set_add i ids) in
        ((exists e, d_ack = [Call c (Throw e); ConsoleError e] /\ ids' = ids) \/
         (exists n, d_ack = [Call c (Ok n)] /\ ids' = set_add i ids /\
                    set_size (set_add i ids) <= MAX_PROCESSED_IDS) \/
         (exists n m, d_ack = [Call c (Ok n); Call del (Ok m)] /\ ids' = [] /\
                      MAX_PROCESSED_IDS < set_size (set_add i ids)) \/
         (exists n e, d_ack = [Call c (Ok n); Call del (Throw e); ConsoleError e;
                               ConsoleError (StreamPurgeError this)] /\
                      ids' = set_add i ids /\
                      MAX_PROCESSED_IDS < set_size (set_add i ids))))).
Proof.
  destruct this as [u key group consumer w ids0] eqn:Ethis.
  intros cA cR ids. simpl in cA, cR, ids. rewrite <- Ethis.
  destruct (read_failed_spec absent this) as (l1 & s1 & d1 & E1 & Hc1 & Ha1 & Hp1 & Hl1).
  unfold consumeMessage, with_locals, bind. fold absent. rewrite E1. unfold gets at 1.
  set (this1 := set_client {| store := s1; trace := trace (client this) ++ d1 |} this).
  assert (Hread : exists l2 s2 d,
    when (negb (JS.truthy (message l1))) (read_new exec) (l1, this1)
    = (Ok tt, (l2, set_client {| store := s2; trace := trace (client this) ++ d |} this))
    /\ acked d = [] /\ purges d = 0%nat /\
    match fst (getFailedMessage exec this) with
    | Ok md0 =>
        if JS.truthy (message md0) then calls d = [cA] /\ l2 = md0
        else calls d = [cA; cR]
    | Throw _ => calls d = [cA; cR]
    end).
  { destruct (JS.truthy (message l1)) eqn:Ht; simpl.
    - exists l1, s1, d1. split; [reflexivity|]. repeat split; try assumption.
      rewrite Ethis in Hc1. simpl in Hc1.
      destruct Hl1 as [(e & _ & ->) | (md0 & -> & ->)]; [discriminate Ht|].
      simpl. rewrite Ht. auto.
    - destruct (read_new_spec l1 this1) as (l2 & s2 & d2 & E2 & Hc2 & Ha2 & Hp2).
      rewrite E2. exists l2, s2, (d1 ++ d2).
      split.
      { unfold this1. rewrite Ethis. simpl. rewrite <- app_assoc. reflexivity. }
      rewrite acked_app, purges_app, calls_app, Ha1, Ha2, Hp1, Hp2, Hc1, Hc2.
      unfold this1. rewrite Ethis. simpl. fold cA cR.
      repeat split.
      rewrite <- Ethis.
      destruct Hl1 as [(e & -> & ->) | (md0 & -> & ->)].
      + reflexivity.
      + rewrite Ht. reflexivity. }
  destruct Hread as (l2 & s2 & d & E2 & Ha & Hp & Hm).
  cbn [fst]. rewrite E2. unfold gets at 1. cbn [fst snd].
  set (this2 := set_client {| store := s2; trace := trace (client this) ++ d |} this).
  assert (Hnone : set_processedMessageIds ids
                    (set_client {| store := s2;
                                   trace := trace (client this) ++ d ++ [] |} this)
                  = this2).
  { unfold this2. rewrite Ethis. simpl. rewrite app_nil_r. reflexivity. }
  destruct (id l2) as [i|] eqn:Hid.
  - destruct (JS.truthy_id (Some i)) eqn:Hti.
    + destruct (acknowledge_spec i l2 this2) as (s3 & d3 & ids' & E3 & Hcases).
      unfold when. rewrite E3. unfold gets. simpl.
      exists l2, s3, d, d3, ids'. split.
      { unfold this2. rewrite Ethis. simpl. rewrite <- app_assoc. reflexivity. }
      repeat split; try assumption.
      right. exists i. repeat split; try assumption.
      unfold this2 in Hcases. rewrite Ethis in Hcases |- *. simpl in Hcases |- *.
      exact Hcases.
    + unfold when, ret, gets. simpl.
      exists l2, s2, d, [], ids.
      split; [f_equal; symmetry; exact Hnone|].
      repeat split; try assumption. left. rewrite Hid. auto.
  - unfold ret, gets. simpl.
    exists l2, s2, d, [], ids.
    split; [f_equal; symmetry; exact Hnone|].
    repeat split; try assumption. left. rewrite Hid. auto.
Qed.
End Any.
End StreamFacts.

(** ** MessageQueue, against any store *)

Module QueueFacts.
Import MessageQueue Errors.

Section Any.
Context {S : Type}.
Variable exec : handler S.
Implicit Types q : t S.

Lemma queue_connect_spec q :
  fst (connect exec q) =
  match fst (exec Connect (store (client q))) with
  | Ok _ => Ok tt
  | Throw _ => Throw ConnectionError
  end.
Proof.
  destruct q as [u name w]. unfold connect. unfold_M.
  destruct (exec _ _) as [[[]|e] s']; reflexivity.
Qed.

Lemma queue_disconnect_spec q :
  fst (disconnect exec q) =
  match fst (exec Disconnect (store (client q))) with
  | Ok _ => Ok tt
  | Throw _ => Throw DisconnectError
  end.
Proof.
  destruct q as [u name w]. unfold disconnect. unfold_M.
  destruct (exec _ _) as [[[]|e] s']; reflexivity.
Qed.

Lemma queue_push_spec data q :
  fst (push exec data q) =
  match fst (exec (RPUSH (queueName q) (JS.JSON_stringify data))
                  (store (client q))) with
  | Ok _ => Ok tt
  | Throw _ => Throw (QueueWriteError (queueName q))
  end.
Proof.
  destruct q as [u name w]. unfold push. unfold_M.
  destruct (exec _ _) as [[n|e] s']; reflexivity.
Qed.

Lemma queue_pop_spec q :
  fst (pop exec q) =
  match fst (exec (LPOP (queueName q)) (store (client q))) with
  | Throw _ => Throw (QueueReadError (queueName q))
  | Ok None => Ok JS.Null
  | Ok (Some text) =>
      match JS.JSON_parse text with
      | Some v => Ok v
      | None => Throw (QueueReadError (queueName q))
      end
  end.
Proof.
  destruct q as [u name w]. unfold pop. unfold_M.
  destruct (exec _ _) as [[[text|]|e] s']; simpl; try reflexivity.
  destruct (JS.JSON_parse text); reflexivity.
Qed.

Lemma queue_size_spec q :
  fst (size exec q) =
  match fst (exec (LLEN (queueName q)) (store (client q))) with
  | Ok n => Ok n
  | Throw _ => Throw (QueueQueryError (queueName q))
  end.
Proof.
  destruct q as [u name w]. unfold size. unfold_M.
  destruct (exec _ _) as [[n|e] s']; reflexivity.
Qed.
End Any.
End QueueFacts.

Module StreamLifecycleFacts.
Import MessageStream Errors StreamFacts.
#[local] Arguments deleteProcessedMessages : simpl never.

Section Any.
Context {S : Type}.
Variable exec : handler S.
Implicit Types this : t S.

Lemma connect_spec this :
  let create := XGROUP_CREATE (streamName this) (consumerGroup this) "$" true in
  let swallow e :=
    if is_BUSYGROUP e then Ok tt
    else Throw (StreamConnectError (streamName this)) in
  fst (connect exec this) =
  match exec Connect (store (client this)) with
  | (Throw e, _) => swallow e
  | (Ok _, s1) =>
      match fst (exec create s1) with
      | Ok _ => Ok tt
      | Throw e => swallow e
      end
  end
  /\ calls (new_events (client this) (client (snd (connect exec this))))
     = match fst (exec Connect (store (client this))) with
       | Ok _ => [Connect; create]
       | Throw _ => [Connect]
       end
  /\ store (client (snd (connect exec this)))
     = match exec Connect (store (client this)) with
       | (Throw e, s1) => s1
       | (Ok _, s1) => snd (exec create s1)
       end.
Proof.
  destruct this as [u key group consumer w ids]. unfold connect, is_BUSYGROUP.
  unfold_M.
  destruct (exec Connect _) as [[[]|e] s1]; simpl.
  - destruct (exec _ s1) as [[r|e] s2]; simpl.
    + simpl_trace. repeat split.
    + destruct (String.eqb _ _); simpl; simpl_trace; repeat split.
  - destruct (String.eqb _ _); simpl; simpl_trace; repeat split.
Qed.

Lemma addMessage_spec data this :
  fst (addMessage exec data this) =
  match fst (exec (XADD (streamName this) "*" [("data", JS.JSON_stringify data)])
                  (store (client this))) with
  | Ok messageId => Ok messageId
  | Throw _ => Throw (StreamWriteError (streamName this))
  end.
Proof.
  destruct this as [u key group consumer w ids]. unfold addMessage. unfold_M.
  destruct (exec _ _) as [[n|e] s']; reflexivity.
Qed.

Lemma length_spec this :
  fst (length exec this) =
  match fst (exec (XLEN (streamName this)) (store (client this))) with
  | Ok n => Ok n
  | Throw _ => Throw (StreamQueryError (streamName this))
  end.
Proof.
  destruct this as [u key group consumer w ids]. unfold length. unfold_M.
  destruct (exec _ _) as [[n|e] s']; reflexivity.
Qed.

(** [deleteProcessedMessages], by the state of the buffer and the outcome
    of the bulk delete. *)
Lemma deleteProcessedMessages_spec this :
  let del := XDEL (streamName this) (processedMessageIds this) in
  let after := snd (deleteProcessedMessages exec this) in
  match processedMessageIds this with
  | [] =>
      deleteProcessedMessages exec this = (Ok tt, this)
  | _ :: _ =>
      calls (new_events (client this) (client after)) = [del] /\
      store (client after) = snd (exec del (store (client this))) /\
      match fst (exec del (store (client this))) with
      | Ok _ =>
          fst (deleteProcessedMessages exec this) = Ok tt /\
          processedMessageIds after = []
      | Throw _ =>
          fst (deleteProcessedMessages exec this) = Throw (StreamPurgeError this) /\
          processedMessageIds after = processedMessageIds this
      end
  end.
Proof.
  destruct (processedMessageIds this) as [|x l] eqn:E.
  - apply deleteProcessedMessages_empty. exact E.
  - simpl. rewrite <- E.
    rewrite deleteProcessedMessages_nonempty by congruence.
    destruct this as [u key group consumer w ids]. simpl.
    destruct (exec _ _) as [[n|e] s']; simpl; simpl_trace; repeat split.
Qed.

(** The flush inside [disconnect] never fails the call: only closing the
    connection does. *)
Lemma disconnect_spec this :
  let flushed := snd (deleteProcessedMessages exec this) in
  fst (disconnect exec this) =
  match fst (exec Disconnect (store (client flushed))) with
  | Ok _ => Ok tt
  | Throw _ => Throw (StreamDisconnectError (streamName this))
  end.
Proof.
  simpl. unfold disconnect. unfold try_catch at 1. unfold bind at 1.
  unfold try_catch at 1.
  destruct (processedMessageIds this) as [|x l] eqn:E.
  - rewrite deleteProcessedMessages_empty by exact E.
    destruct this as [u key group consumer w ids].
    unfold_M. destruct (exec _ _) as [[[]|e] s']; reflexivity.
  - rewrite deleteProcessedMessages_nonempty by congruence.
    destruct this as [u key group consumer w ids]. simpl.
    destruct (exec (XDEL _ _) _) as [[n|e] s1]; simpl;
      unfold_M; destruct (exec Disconnect _) as [[[]|e'] s']; reflexivity.
Qed.
End Any.
End StreamLifecycleFacts.

(** ** The Redis model *)

Module RedisFacts.
Import Redis.

Lemma autoclaim_count count consumer es p :
  (List.length (fst (autoclaim count consumer es p)) <= count)%nat.
Proof.
  revert count. induction p as [|[n owner] p IH]; intros count.
  - destruct count; simpl; lia.
  - destruct count as [|count]; simpl; [lia|].
    destruct (find_entry n es).
    + specialize (IH count). destruct (autoclaim count consumer es p). simpl in *. lia.
    + specialize (IH (Datatypes.S count)). exact IH.
Qed.

(** XAUTOCLAIM with COUNT 1 hands over at most one entry. *)
Lemma XAUTOCLAIM_at_most_one key name consumer minIdle start block s :
  match fst (exec (XAUTOCLAIM key name consumer minIdle start block 1) s) with
  | Ok (Some r) => (List.length (ac_messages r) <= 1)%nat
  | _ => True
  end.
Proof.
  simpl. destruct (streams s !! key) as [st|]; [|exact I].
  destruct (groups st !! name) as [g|]; [|exact I].
  destruct (minIdle <=? 0); [|simpl; lia].
  pose proof (autoclaim_count (Z.to_nat 1) consumer (entries st) (pel g)) as H.
  destruct (autoclaim _ _ _ _) as [ms p]. simpl in *.
  rewrite length_fmap. exact H.
Qed.

(** Creating a group that exists is refused and changes nothing. *)
Lemma XGROUP_CREATE_existing key name id mk s st g :
  streams s !! key = Some st -> groups st !! name = Some g ->
  exec (XGROUP_CREATE key name id mk) s = (Throw BUSYGROUP, s).
Proof. intros Hst Hg. simpl. rewrite Hst, Hg. reflexivity. Qed.

Lemma list_at_set_list key l s : list_at (set_list key l s) key = l.
Proof. unfold list_at, set_list. simpl. rewrite lookup_insert_eq. reflexivity. Qed.

End RedisFacts.

(** * The claims *)

Import Errors.

(** What [consumeMessage] writes to the console: the error of every
    command that failed in it, the error [getFailedMessage] threw, and the
    purge error when the bulk delete it triggered failed. *)
Section ConsumeLogs.
Import MessageStream StreamFacts.
#[local] Arguments acknowledge : simpl never.

Lemma consumeMessage_logs {S} (exec : handler S) (this : t S) :
  let after := snd (consumeMessage exec this) in
  let d := new_events (client this) (client after) in
  incl (failures d) (console_errors d) /\
  (forall e, fst (getFailedMessage exec this) = Throw e ->
             In e (console_errors d)) /\
  (existsb failed_purge d = true ->
   In (StreamPurgeError this) (console_errors d)).
Proof.
  destruct this as [u key group consumer [s tr] ids].
  unfold consumeMessage, read_failed, read_new, getFailedMessage, parse_data,
    set_id, set_message, MessageStream.this.
  unfold_M.
  destruct (exec (XAUTOCLAIM _ _ _ _ _ _ _) s) as [[[r0|]|e] s1]; simpl;
    [destruct (ac_messages r0) as [|[m0|] ms0]; simpl;
     [|destruct (JS.JSON_parse _) as [v|]; simpl;
       [destruct (JS.truthy v); simpl|]|]| |];
    try (destruct (exec (XREADGROUP _ _ _ _ _ _) s1) as [[[[|r' rs]|]|e'] s2];
         simpl;
         [|destruct (sr_messages r') as [|m ms]; simpl;
           [|destruct (JS.JSON_parse _); simpl]| |]);
    repeat match goal with
    | |- context [negb (String.eqb ?x ?y)] => destruct (negb (String.eqb x y)); simpl
    end;
    repeat match goal with
    | |- context [acknowledge exec ?i (?l, ?t)] =>
        let E := fresh "E" in
        let Hc := fresh "Hc" in
        destruct (acknowledge_spec exec i l t) as (? & ? & ? & E & Hc);
        simpl in E; rewrite E; simpl;
        destruct Hc as [(? & -> & _) | [(? & -> & _)
                       | [(? & ? & -> & _) | (? & ? & -> & _)]]]
    end;
    repeat rewrite <- (app_assoc tr); rewrite ?app_nil_r;
    rewrite ?new_events_app, ?new_events_refl; simpl;
    (split; [intros err Herr; simpl in Herr |- *; tauto|]);
    (split; [intros err Herr; try discriminate Herr; injection Herr as <-;
             simpl; tauto|]);
    intros Hpurge; try discriminate Hpurge; simpl; tauto.
Qed.
End ConsumeLogs.

(** C1, as amended.  Every store-facing operation wraps a failure of its
    command and raises its own error, with these exceptions:
    [getFailedMessage] raises the store's error as it is; the flush inside
    [disconnect] cannot fail the call; [connect] lets a failure pass whose
    message is the BUSYGROUP one; and [consumeMessage] never raises at all:
    it always returns a pair, and what failed in it is on the console: the
    error of every command that failed, the error [getFailedMessage] threw,
    and the purge error when the bulk delete it triggered failed. *)
Theorem error_propagation_policy {S} (exec : handler S) :
  (forall q : MessageQueue.t S,
     let s := store (MessageQueue.client q) in
     let name := MessageQueue.queueName q in
     fst (MessageQueue.connect exec q)
     = match fst (exec Connect s) with
       | Ok _ => Ok tt
       | Throw _ => Throw ConnectionError
       end /\
     fst (MessageQueue.disconnect exec q)
     = match fst (exec Disconnect s) with
       | Ok _ => Ok tt
       | Throw _ => Throw DisconnectError
       end /\
     (forall data,
        fst (MessageQueue.push exec data q)
        = match fst (exec (RPUSH name (JS.JSON_stringify data)) s) with
          | Ok _ => Ok tt
          | Throw _ => Throw (QueueWriteError name)
          end) /\
     match fst (exec (LPOP name) s) with
     | Ok _ => True
     | Throw _ => fst (MessageQueue.pop exec q) = Throw (QueueReadError name)
     end /\
     fst (MessageQueue.size exec q)
     = match fst (exec (LLEN name) s) with
       | Ok n => Ok n
       | Throw _ => Throw (QueueQueryError name)
       end) /\
  (forall this : MessageStream.t S,
     let s := store (MessageStream.client this) in
     let key := MessageStream.streamName this in
     let create := XGROUP_CREATE key (MessageStream.consumerGroup this) "$" true in
     let claim := XAUTOCLAIM key (MessageStream.consumerGroup this)
                             (MessageStream.consumerId this) 0 "0" 0 1 in
     let del := XDEL key (MessageStream.processedMessageIds this) in
     let flushed := snd (MessageStream.deleteProcessedMessages exec this) in
     let swallow e :=
       if is_BUSYGROUP e then Ok tt else Throw (StreamConnectError key) in
     fst (MessageStream.connect exec this)
     = match exec Connect s with
       | (Throw e, _) => swallow e
       | (Ok _, s1) =>
           match fst (exec create s1) with
           | Ok _ => Ok tt
           | Throw e => swallow e
           end
       end /\
     (forall data,
        fst (MessageStream.addMessage exec data this)
        = match fst (exec (XADD key "*" [("data", JS.JSON_stringify data)]) s) with
          | Ok messageId => Ok messageId
          | Throw _ => Throw (StreamWriteError key)
          end) /\
     match MessageStream.processedMessageIds this with
     | [] => fst (MessageStream.deleteProcessedMessages exec this) = Ok tt
     | _ :: _ =>
         fst (MessageStream.deleteProcessedMessages exec this)
         = match fst (exec del s) with
           | Ok _ => Ok tt
           | Throw _ => Throw (StreamPurgeError this)
           end
     end /\
     fst (MessageStream.length exec this)
     = match fst (exec (XLEN key) s) with
       | Ok n => Ok n
       | Throw _ => Throw (StreamQueryError key)
       end /\
     fst (MessageStream.disconnect exec this)
     = match fst (exec Disconnect (store (MessageStream.client flushed))) with
       | Ok _ => Ok tt
       | Throw _ => Throw (StreamDisconnectError key)
       end /\
     match fst (exec claim s) with
     | Throw e => fst (MessageStream.getFailedMessage exec this) = Throw e
     | Ok _ => True
     end /\
     (exists md, fst (MessageStream.consumeMessage exec this) = Ok md) /\
     let d := new_events (MessageStream.client this)
                (MessageStream.client
                   (snd (MessageStream.consumeMessage exec this))) in
     incl (failures d) (console_errors d) /\
     (forall e, fst (MessageStream.getFailedMessage exec this) = Throw e ->
                In e (console_errors d)) /\
     (existsb failed_purge d = true ->
      In (StreamPurgeError this) (console_errors d))).
Proof.
  split.
  - intros q s name. repeat split.
    + apply QueueFacts.queue_connect_spec.
    + apply QueueFacts.queue_disconnect_spec.
    + intros data. apply QueueFacts.queue_push_spec.
    + pose proof (QueueFacts.queue_pop_spec exec q) as H. revert H. unfold s, name.
      destruct (fst (exec _ _)); [intros _; exact I|intros H; exact H].
    + apply QueueFacts.queue_size_spec.
  - intros this s key create claim del flushed swallow.
    split; [|split; [|split; [|split; [|split; [|split; [|split]]]]]].
    + apply StreamLifecycleFacts.connect_spec.
    + intros data. apply StreamLifecycleFacts.addMessage_spec.
    + pose proof (StreamLifecycleFacts.deleteProcessedMessages_spec exec this) as H.
      simpl in H. fold del s in H.
      destruct (MessageStream.processedMessageIds this).
      * rewrite H. reflexivity.
      * destruct H as (_ & _ & H). revert H. unfold del, key.
        destruct (exec _ s) as [[n|e] s1]; simpl; intros [H _]; exact H.
    + apply StreamLifecycleFacts.length_spec.
    + apply StreamLifecycleFacts.disconnect_spec.
    + destruct (StreamFacts.getFailedMessage_spec exec this) as (d & _ & _ & H).
      revert H. unfold claim, key, s.
      destruct (fst (exec _ _)); [intros _; exact I|intros H; exact H].
    + destruct (StreamFacts.consumeMessage_spec exec this)
        as (md & s' & d & d_ack & ids' & E & _).
      exists md. rewrite E. reflexivity.
    + exact (consumeMessage_logs exec this).
Qed.


(** C1, as stated, fails: on a connected stream of the Redis model, a
    transport failure of the blocking group read, or of the acknowledgment,
    is recorded in the trace, and [consumeMessage] returns normally. *)
Lemma consumeMessage_swallows_transport_failures :
  let read_fails c :=
    match c with XREADGROUP _ _ _ _ _ _ => Some Redis.ECONNRESET | _ => None end in
  let ack_fails c :=
    match c with XACK _ _ _ => Some Redis.ECONNRESET | _ => None end in
  let this0 := MessageStream.constructor "S" None None Redis.empty in
  let this1 := snd (MessageStream.connect Redis.exec this0) in
  let this2 := snd (MessageStream.addMessage Redis.exec (JS.Str "job") this1) in
  let '(r, this3) := MessageStream.consumeMessage (Redis.failing read_fails Redis.exec) this2 in
  let '(r', this4) := MessageStream.consumeMessage (Redis.failing ack_fails Redis.exec) this2 in
  (In (Call (XREADGROUP "S:consumer:group" "0" "stream:S" ">" 2000 1)
            (Throw Redis.ECONNRESET))
      (new_events (MessageStream.client this2) (MessageStream.client this3))
   /\ r = Ok absent)
  /\
  (In (Call (XACK "stream:S" "S:consumer:group" "0-1") (Throw Redis.ECONNRESET))
      (new_events (MessageStream.client this2) (MessageStream.client this4))
   /\ r' = Ok {| MessageStream.id := Some "0-1"; MessageStream.message := JS.Str "job" |}).
Proof.
  vm_compute. repeat split; auto.
Qed.

(** C4.  [getFailedMessage] sends one command, an XAUTOCLAIM with minimum
    idle time 0 and COUNT 1, and uses at most the first entry of the reply;
    with no entry it returns [{ id: undefined, message: undefined }]; an
    error of the store is raised as it is.  On the Redis model such a
    command hands over at most one entry. *)
Theorem getFailedMessage_claims_one_and_rethrows {S} (exec : handler S)
    (this : MessageStream.t S) :
  let claim := XAUTOCLAIM (MessageStream.streamName this)
                          (MessageStream.consumerGroup this)
                          (MessageStream.consumerId this) 0 "0" 0 1 in
  let reply := fst (exec claim (store (MessageStream.client this))) in
  let r := fst (MessageStream.getFailedMessage exec this) in
  let after := snd (MessageStream.getFailedMessage exec this) in
  calls (new_events (MessageStream.client this) (MessageStream.client after))
  = [claim] /\
  match reply with
  | Throw e => r = Throw e
  | Ok None => r = Ok absent
  | Ok (Some rep) =>
      match ac_messages rep with
      | [] => r = Ok absent
      | None :: _ => r = Throw TypeError
      | Some m :: _ =>
          match JS.JSON_parse (default "undefined" (MessageStream.data_of m)) with
          | Some v =>
              r = Ok {| MessageStream.id := Some (sm_id m);
                        MessageStream.message := v |}
          | None => r = Throw SyntaxError
          end
      end
  end /\
  forall (s : Redis.server) key group consumer,
    match fst (Redis.exec (XAUTOCLAIM key group consumer 0 "0" 0 1) s) with
    | Ok (Some rep) => (List.length (ac_messages rep) <= 1)%nat
    | _ => True
    end.
Proof.
  intros claim reply r after.
  destruct (StreamFacts.getFailedMessage_spec exec this) as (d & Hd & Hsnd & Hfst).
  repeat split.
  - unfold after. rewrite Hsnd. destruct this as [u key group consumer w ids].
    unfold set_client. cbn [MessageStream.stream_HasClient MessageStream.client].
    rewrite new_events_app, calls_cons, Hd. reflexivity.
  - exact Hfst.
  - intros s key group consumer. apply RedisFacts.XAUTOCLAIM_at_most_one.
Qed.

(** C5.  [connect] treats a failure whose message says that the group
    exists as success and sends nothing after it; any failure with another
    message is raised as the connect error of the stream.  On the Redis
    model, [connect] on a stream whose group exists returns normally and
    leaves the store, the group's cursor included, as it was. *)
Theorem connect_is_idempotent {S} (exec : handler S) (this : MessageStream.t S) :
  let key := MessageStream.streamName this in
  let create := XGROUP_CREATE key (MessageStream.consumerGroup this) "$" true in
  let swallow e :=
    if is_BUSYGROUP e then Ok tt else Throw (StreamConnectError key) in
  let after := snd (MessageStream.connect exec this) in
  fst (MessageStream.connect exec this)
  = match exec Connect (store (MessageStream.client this)) with
    | (Throw e, _) => swallow e
    | (Ok _, s1) =>
        match fst (exec create s1) with
        | Ok _ => Ok tt
        | Throw e => swallow e
        end
    end /\
  calls (new_events (MessageStream.client this) (MessageStream.client after))
  = match fst (exec Connect (store (MessageStream.client this))) with
    | Ok _ => [Connect; create]
    | Throw _ => [Connect]
    end /\
  forall m : MessageStream.t Redis.server,
    let s := store (MessageStream.client m) in
    match Redis.streams s !! MessageStream.streamName m with
    | Some st =>
        match Redis.groups st !! MessageStream.consumerGroup m with
        | Some g =>
            fst (MessageStream.connect Redis.exec m) = Ok tt /\
            store (MessageStream.client (snd (MessageStream.connect Redis.exec m)))
            = s
        | None => True
        end
    | None => True
    end.
Proof.
  intros key create swallow after.
  destruct (StreamLifecycleFacts.connect_spec exec this) as (Hr & Hc & Hs).
  repeat split; try assumption.
  intros m s.
  destruct (Redis.streams s !! _) as [st|] eqn:Hst; [|exact I].
  destruct (Redis.groups st !! _) as [g|] eqn:Hg; [|exact I].
  destruct (StreamLifecycleFacts.connect_spec Redis.exec m) as (Hr' & _ & Hs').
  rewrite Hr', Hs'. fold s. simpl.
  rewrite Hst, Hg. simpl. split; reflexivity.
Qed.

(** C6.  [deleteProcessedMessages] on an empty buffer sends nothing, changes
    nothing and returns; otherwise it sends one XDEL with the ids of the
    buffer, and either the delete succeeds and the buffer is emptied, or it
    fails, the purge error is raised and the buffer is what it was. *)
Theorem deleteProcessedMessages_atomic {S} (exec : handler S)
    (this : MessageStream.t S) :
  let del := XDEL (MessageStream.streamName this)
                  (MessageStream.processedMessageIds this) in
  let r := fst (MessageStream.deleteProcessedMessages exec this) in
  let after := snd (MessageStream.deleteProcessedMessages exec this) in
  match MessageStream.processedMessageIds this with
  | [] => r = Ok tt /\ after = this
  | _ :: _ =>
      calls (new_events (MessageStream.client this) (MessageStream.client after))
      = [del] /\
      match fst (exec del (store (MessageStream.client this))) with
      | Ok _ => r = Ok tt /\ MessageStream.processedMessageIds after = []
      | Throw _ =>
          r = Throw (StreamPurgeError this) /\
          MessageStream.processedMessageIds after
          = MessageStream.processedMessageIds this
      end
  end.
Proof.
  intros del r after.
  pose proof (StreamLifecycleFacts.deleteProcessedMessages_spec exec this) as H.
  simpl in H. unfold r, after, del.
  destruct (MessageStream.processedMessageIds this) as [|x l].
  - rewrite H. split; reflexivity.
  - destruct H as (Hc & _ & H). split; assumption.
Qed.

(** C7.  [pop] raises, and then the read error of the queue, exactly when
    LPOP fails or the stored text is not JSON; a [null] reply, which is what
    an empty queue of the Redis model answers, makes it return [null]. *)
Theorem pop_empty_is_absent {S} (exec : handler S) (q : MessageQueue.t S) :
  fst (MessageQueue.pop exec q)
  = match fst (exec (LPOP (MessageQueue.queueName q))
                    (store (MessageQueue.client q))) with
    | Throw _ => Throw (QueueReadError (MessageQueue.queueName q))
    | Ok None => Ok JS.Null
    | Ok (Some text) =>
        match JS.JSON_parse text with
        | Some v => Ok v
        | None => Throw (QueueReadError (MessageQueue.queueName q))
        end
    end /\
  forall q' : MessageQueue.t Redis.server,
    match Redis.list_at (store (MessageQueue.client q')) (MessageQueue.queueName q') with
    | [] =>
        fst (MessageQueue.pop Redis.exec q') = Ok JS.Null /\
        store (MessageQueue.client (snd (MessageQueue.pop Redis.exec q')))
        = store (MessageQueue.client q')
    | _ :: _ => True
    end.
Proof.
  split; [apply QueueFacts.queue_pop_spec|].
  intros [u name [s tr]]. simpl.
  destruct (Redis.list_at s name) as [|x l] eqn:E; [|exact I].
  unfold MessageQueue.pop. unfold_M.
  rewrite E. split; reflexivity.
Qed.





(** C2, at a failing input.  On the Redis model, entry 0-1 with payload [0]
    is pending (it was read, and its acknowledgment failed) and entry 0-2 is
    new.  [getFailedMessage] yields 0-1; [consumeMessage] all the same sends
    the blocking XREADGROUP and returns 0-2, leaving 0-1 pending. *)
Theorem consumeMessage_skips_falsy_failed_entry :
  let ack_fails c :=
    match c with XACK _ _ _ => Some Redis.ECONNRESET | _ => None end in
  let this0 := MessageStream.constructor "S" None None Redis.empty in
  let this1 := snd (MessageStream.connect Redis.exec this0) in
  let this2 := snd (MessageStream.addMessage Redis.exec (JS.Num (JS.NInt 0)) this1) in
  let this3 := snd (MessageStream.consumeMessage
                      (Redis.failing ack_fails Redis.exec) this2) in
  let this4 := snd (MessageStream.addMessage Redis.exec
                      (JS.Obj [("hello", JS.Str "world")]) this3) in
  let '(r, this5) := MessageStream.consumeMessage Redis.exec this4 in
  fst (MessageStream.getFailedMessage Redis.exec this4)
  = Ok {| MessageStream.id := Some "0-1";
          MessageStream.message := JS.Num (JS.NInt 0) |} /\
  calls (new_events (MessageStream.client this4) (MessageStream.client this5))
  = [XAUTOCLAIM "stream:S" "S:consumer:group" "0" 0 "0" 0 1;
     XREADGROUP "S:consumer:group" "0" "stream:S" ">" 2000 1;
     XACK "stream:S" "S:consumer:group" "0-2"] /\
  r = Ok {| MessageStream.id := Some "0-2";
            MessageStream.message := JS.Obj [("hello", JS.Str "world")] |} /\
  fst (MessageStream.getFailedMessage Redis.exec this5)
  = Ok {| MessageStream.id := Some "0-1";
          MessageStream.message := JS.Num (JS.NInt 0) |}.
Proof.
  vm_compute. repeat split.
Qed.

(** The read path of [consumeMessage] in general: the blocking XREADGROUP
    (cursor [>], BLOCK 2000, COUNT 1) is sent exactly when
    [getFailedMessage] threw or yielded a falsy payload; a failed entry
    with a truthy payload is the one returned. *)
Lemma consumeMessage_read_path {S} (exec : handler S) (this : MessageStream.t S) :
  let read := XREADGROUP (MessageStream.consumerGroup this)
                         (MessageStream.consumerId this)
                         (MessageStream.streamName this) ">" 2000 1 in
  let d := new_events (MessageStream.client this)
             (MessageStream.client (snd (MessageStream.consumeMessage exec this))) in
  match fst (MessageStream.getFailedMessage exec this) with
  | Ok failed =>
      if JS.truthy (MessageStream.message failed)
      then fst (MessageStream.consumeMessage exec this) = Ok failed /\
           ~ In read (calls d)
      else In read (calls d)
  | Throw _ => In read (calls d)
  end.
Proof.
  intros read d.
  destruct (StreamFacts.consumeMessage_spec exec this)
    as (md & s' & d0 & d_ack & ids' & E & _ & _ & Hcalls & Hack).
  assert (Hd : calls d = calls d0 ++ calls d_ack).
  { unfold d. rewrite E. destruct this. simpl. rewrite new_events_app.
    apply calls_app. }
  rewrite Hd, E. simpl fst.
  assert (Hno : ~ In read (calls d_ack)).
  { destruct Hack as [(_ & -> & _) | (i & _ & _ & Hcases)]; [intros []|].
    destruct Hcases as [(e & -> & _) | [(n & -> & _)
                       | [(n & m & -> & _) | (n & e & -> & _)]]];
      simpl; intros H; repeat (destruct H as [H | H]; [discriminate H|]);
      exact H. }
  destruct (fst (MessageStream.getFailedMessage exec this)) as [failed|e].
  - destruct (JS.truthy (MessageStream.message failed)).
    + destruct Hcalls as [Hc ->]. split; [reflexivity|].
      rewrite Hc. intros [H | H]; [discriminate H|exact (Hno H)].
    + rewrite Hcalls. apply in_or_app. left. right. left. reflexivity.
  - rewrite Hcalls. apply in_or_app. left. right. left. reflexivity.
Qed.





Section AckFailure.
Import MessageStream.
#[local] Arguments set_add : simpl never.
#[local] Arguments set_size : simpl never.
#[local] Arguments Z.ltb : simpl never.



End AckFailure.






Lemma step_ok_same key ids d : step_ok key ids d ids.
Proof. split; [auto|]. left. apply incl_refl. Qed.

Lemma In_set_add x i ids :
  In x (MessageStream.set_add i ids) <-> x = i \/ In x ids.
Proof.
  unfold MessageStream.set_add.
  destruct (existsb (String.eqb i) ids) eqn:E.
  - split; [auto|]. intros [-> | H]; [|exact H].
    apply existsb_exists in E as (y & Hy & Heq).
    apply String.eqb_eq in Heq. subst y. exact Hy.
  - rewrite in_app_iff. simpl. intuition (subst; auto).
Qed.

Lemma step_ok_app key ids d d' ids' :
  step_ok key ids d ids' -> step_ok key ids (d ++ d') ids'.
Proof.
  intros [H1 H2]. split.
  - intros x Hx. destruct (H1 x Hx) as [H | H]; [auto|].
    right. rewrite acked_app. apply in_or_app. auto.
  - destruct H2 as [H | (-> & del & n & Hin & Hincl)]; [auto|].
    right. split; [reflexivity|]. exists del, n. split; [|exact Hincl].
    apply in_or_app. auto.
Qed.

Section Steps.
Import MessageStream StreamOps StreamFacts.
Context {S : Type}.
Variable exec : handler S.
#[local] Arguments deleteProcessedMessages : simpl never.

Lemma delete_step (this : t S) :
  exists r s' d ids',
    deleteProcessedMessages exec this
    = (r, set_processedMessageIds ids'
            (set_client {| store := s'; trace := trace (client this) ++ d |} this)) /\
    step_ok (streamName this) (processedMessageIds this) d ids'.
Proof.
  destruct (processedMessageIds this) as [|x l] eqn:E.
  - rewrite deleteProcessedMessages_empty by exact E.
    exists (Ok tt), (store (client this)), [], []. split; [|apply step_ok_same].
    destruct this as [u key group consumer [s tr] ids]. simpl in *. subst ids.
    unfold set_processedMessageIds. simpl. rewrite app_nil_r. reflexivity.
  - rewrite deleteProcessedMessages_nonempty by congruence.
    destruct this as [u key group consumer w ids]. simpl in *. subst ids.
    destruct (exec _ _) as [[n|e] s']; simpl.
    + do 4 eexists. split; [reflexivity|]. split; [intros y []|].
      right. split; [reflexivity|]. exists (x :: l), n.
      split; [left; reflexivity|apply incl_refl].
    + do 4 eexists. split; [reflexivity|]. apply step_ok_same.
Qed.

Lemma perform_step (o : op) (this : t S) :
  exists s' d ids',
    snd (perform exec o this)
    = set_processedMessageIds ids'
        (set_client {| store := s'; trace := trace (client this) ++ d |} this) /\
    step_ok (streamName this) (processedMessageIds this) d ids'.
Proof.
  destruct o as [| |data| | | |]; simpl.
  - (* connect *)
    destruct this as [u key group consumer w ids]. unfold connect. unfold_M.
    destruct (exec Connect _) as [[[]|e] s1]; simpl.
    + destruct (exec _ s1) as [[r|e] s2]; simpl.
      * do 3 eexists. split; [rewrite <- !app_assoc; reflexivity|apply step_ok_same].
      * destruct (String.eqb _ _); simpl;
          (do 3 eexists; split; [rewrite <- ?app_assoc; reflexivity|apply step_ok_same]).
    + destruct (String.eqb _ _); simpl;
        (do 3 eexists; split; [rewrite <- ?app_assoc; reflexivity|apply step_ok_same]).
  - (* disconnect *)
    destruct (delete_step this) as (r & s1 & d1 & ids1 & E1 & Hok).
    unfold disconnect. unfold try_catch at 1. unfold bind at 1.
    unfold try_catch at 1. rewrite E1.
    destruct this as [u key group consumer w ids]. simpl in *.
    destruct r as [[]|e]; unfold_M;
      destruct (exec Disconnect _) as [[[]|e'] s2]; simpl;
      (do 3 eexists; split;
       [unfold set_processedMessageIds; simpl; rewrite <- ?app_assoc; reflexivity
       |apply step_ok_app; exact Hok]).
  - (* addMessage *)
    destruct this as [u key group consumer w ids]. unfold addMessage. unfold_M.
    destruct (exec _ _) as [[r|e] s1]; simpl;
      (do 3 eexists; split; [rewrite <- ?app_assoc; reflexivity|apply step_ok_same]).
  - (* getFailedMessage *)
    destruct (getFailedMessage_spec exec this) as (d & _ & Hsnd & _).
    destruct (getFailedMessage exec this) as [r m]. simpl in *. subst m.
    do 3 eexists. split; [|apply step_ok_same].
    destruct this; reflexivity.
  - (* consumeMessage *)
    destruct (consumeMessage_spec exec this)
      as (md & s' & d & d_ack & ids' & E & Ha & Hp & _ & Hack).
    rewrite E. simpl. exists s', (d ++ d_ack), ids'. split; [reflexivity|].
    destruct Hack as [(_ & -> & ->) | (i & _ & _ & Hcases)];
      [apply step_ok_same|].
    assert (Hgain : forall n tl,
              d_ack = Call (XACK (streamName this) (consumerGroup this) i) (Ok n) :: tl ->
              forall x, In x (set_add i (processedMessageIds this)) ->
                        In x (processedMessageIds this) \/ In x (acked (d ++ d_ack))).
    { intros n tl -> x Hx. apply In_set_add in Hx as [-> | Hx]; [|auto].
      right. rewrite acked_app, acked_cons. apply in_or_app. right. left.
      reflexivity. }
    assert (Hincl : incl (processedMessageIds this)
                         (set_add i (processedMessageIds this))).
    { intros x Hx. apply In_set_add. auto. }
    destruct Hcases as [(e & _ & ->) | [(n & Hd & -> & _)
                       | [(n & m & Hd & -> & _) | (n & e & Hd & -> & _)]]].
    + apply step_ok_same.
    + split; [exact (Hgain n _ Hd)|auto].
    + split; [intros x []|]. right. split; [reflexivity|].
      exists (set_add i (processedMessageIds this)), m. split; [|exact Hincl].
      apply in_or_app. right. rewrite Hd. right. left. reflexivity.
    + split; [exact (Hgain n _ Hd)|auto].
  - (* deleteProcessedMessages *)
    destruct (delete_step this) as (r & s1 & d1 & ids1 & E1 & Hok).
    rewrite E1. simpl. eauto.
  - (* length *)
    destruct this as [u key group consumer w ids]. unfold length. unfold_M.
    destruct (exec _ _) as [[r|e] s1]; simpl;
      (do 3 eexists; split; [rewrite <- ?app_assoc; reflexivity|apply step_ok_same]).
Qed.
End Steps.



Section Crossing.
Import MessageStream StreamOps StreamFacts.
Context {S : Type}.
Variable exec : handler S.

Lemma set_add_fresh i ids : ~ In i ids -> set_add i ids = ids ++ [i].
Proof.
  intros H. unfold set_add.
  destruct (existsb (String.eqb i) ids) eqn:E; [|reflexivity].
  exfalso. apply H. apply existsb_exists in E as (y & Hy & Heq).
  apply String.eqb_eq in Heq. subst y. exact Hy.
Qed.

Lemma NoDup_snoc (l : list string) (i : string) :
  List.NoDup (l ++ [i]) -> List.NoDup l /\ ~ In i l.
Proof.
  intros H. apply NoDup_remove in H. rewrite app_nil_r in H. exact H.
Qed.

Lemma consume_many_inv (this : t S) (n : nat) :
  processedMessageIds this = [] ->
  exists s' d ids',
    consume_many exec n this
    = set_processedMessageIds ids'
        (set_client {| store := s'; trace := trace (client this) ++ d |} this) /\
    (List.NoDup (acked d) -> Z.of_nat (List.length (acked d)) <= MAX_PROCESSED_IDS ->
     ids' = acked d /\ purges d = 0%nat) /\
    (List.NoDup (acked d) -> Z.of_nat (List.length (acked d)) = MAX_PROCESSED_IDS + 1 ->
     crossed exec this n d ids').
Proof.
  intros Hempty. induction n as [|n IH].
  - exists (store (client this)), [], []. split; [|split].
    + destruct this as [u key group consumer [s tr] ids]. simpl in *. subst ids.
      unfold set_processedMessageIds. simpl. rewrite app_nil_r. reflexivity.
    + intros _ _. split; reflexivity.
    + intros _ H. unfold MAX_PROCESSED_IDS in H. simpl in H. lia.
  - destruct IH as (sn & dn & idsn & En & IH1 & IH2).
    change (consume_many exec (Datatypes.S n) this)
      with (snd (consumeMessage exec (consume_many exec n this))).
    destruct (consumeMessage_spec exec (consume_many exec n this))
      as (md & s' & d & d_ack & ids' & E & Ha & Hp & _ & Hack).
    rewrite E. simpl snd. 
    assert (Hnew : new_events (client (consume_many exec n this))
                     (client (consume_many exec (Datatypes.S n) this))
                   = d ++ d_ack).
    { change (consume_many exec (Datatypes.S n) this)
        with (snd (consumeMessage exec (consume_many exec n this))).
      rewrite E. destruct (consume_many exec n this). simpl.
      apply new_events_app. }
    clear E. rewrite En in Hack |- *. 
    destruct this as [u key group consumer w ids]. simpl in *. subst ids.
    unfold set_processedMessageIds. simpl.
    exists s', (dn ++ d ++ d_ack), ids'.
    split; [rewrite <- app_assoc; reflexivity|].
    rewrite !acked_app, !purges_app, Ha, Hp. simpl.
    (* an extension of the run without acknowledgment or purge *)
    assert (Hquiet : acked d_ack = [] -> purges d_ack = 0%nat -> ids' = idsn ->
      (List.NoDup (acked dn ++ acked d_ack) ->
       Z.of_nat (List.length (acked dn ++ acked d_ack)) <= MAX_PROCESSED_IDS ->
       ids' = acked dn ++ acked d_ack /\ (purges dn + purges d_ack)%nat = 0%nat) /\
      (List.NoDup (acked dn ++ acked d_ack) ->
       Z.of_nat (List.length (acked dn ++ acked d_ack)) = MAX_PROCESSED_IDS + 1 ->
       crossed exec
         {| url := u; streamName := key; consumerGroup := group;
            consumerId := consumer; client := w; processedMessageIds := [] |}
         (Datatypes.S n) (dn ++ d ++ d_ack) ids')).
    { intros Hqa Hqp ->. rewrite Hqa, Hqp, app_nil_r, Nat.add_0_r.
      split; [exact IH1|].
      intros Hnd Hlen.
      destruct (IH2 Hnd Hlen)
        as (Hpur & pre & post & last & n_ack & r & Hd & Hpost & Hbuf & k & read & tail
            & Hk & Hcall & Htail).
      split.
      { rewrite !purges_app, Hp, Hqp. lia. }
      exists pre, (post ++ d ++ d_ack), last, n_ack, r. simpl in *.
      rewrite !acked_app, Ha, Hqa, !app_nil_r.
      split; [rewrite Hd at 1; rewrite <- !app_assoc; reflexivity|].
      split; [rewrite Hpost; reflexivity|].
      split; [exact Hbuf|].
      exists k, read, tail. split; [lia|]. split; [exact Hcall|exact Htail]. }
    destruct Hack as [(_ & -> & ->) | (i & _ & _ & Hcases)];
      [apply Hquiet; reflexivity|].
    destruct Hcases as [(e & -> & ->) | [(n0 & -> & -> & Hsize)
                       | [(n0 & m & -> & -> & Hsize) | (n0 & e & -> & -> & Hsize)]]].
    + apply Hquiet; reflexivity.
    + simpl. split.
      * intros Hnd Hlen. apply NoDup_snoc in Hnd as [Hnd Hi].
        rewrite length_app in Hlen. change (List.length [i]) with 1%nat in Hlen.
        destruct (IH1 Hnd ltac:(lia)) as [-> Hpn].
        rewrite set_add_fresh by exact Hi.
        split; [reflexivity|rewrite Hpn; reflexivity].
      * intros Hnd Hlen. exfalso. apply NoDup_snoc in Hnd as [Hnd Hi].
        rewrite length_app in Hlen. change (List.length [i]) with 1%nat in Hlen.
        destruct (IH1 Hnd ltac:(lia)) as [-> Hpn].
        rewrite set_add_fresh in Hsize by exact Hi.
        unfold set_size in Hsize. rewrite length_app in Hsize.
        change (List.length [i]) with 1%nat in Hsize. lia.
    + simpl. split.
      * intros Hnd Hlen. exfalso. apply NoDup_snoc in Hnd as [Hnd Hi].
        rewrite length_app in Hlen. change (List.length [i]) with 1%nat in Hlen.
        destruct (IH1 Hnd ltac:(lia)) as [-> Hpn].
        rewrite set_add_fresh in Hsize by exact Hi.
        unfold set_size in Hsize. rewrite length_app in Hsize.
        change (List.length [i]) with 1%nat in Hsize. lia.
      * intros Hnd Hlen. apply NoDup_snoc in Hnd as [Hnd Hi].
        rewrite length_app in Hlen. change (List.length [i]) with 1%nat in Hlen.
        destruct (IH1 Hnd ltac:(lia)) as [-> Hpn].
        rewrite set_add_fresh in * by exact Hi.
        split; [rewrite !purges_app, Hp, Hpn; reflexivity|].
        exists (dn ++ d), [], i, n0, (Ok m). simpl.
        rewrite !acked_app, Ha. simpl.
        split; [rewrite <- app_assoc; reflexivity|].
        split; [reflexivity|].
        split; [split; [reflexivity|unfold set_size, MAX_PROCESSED_IDS; simpl; lia]|].
        exists n, d, []. split; [lia|]. split; [|reflexivity].
        exact Hnew.
    + simpl. split.
      * intros Hnd Hlen. exfalso. apply NoDup_snoc in Hnd as [Hnd Hi].
        rewrite length_app in Hlen. change (List.length [i]) with 1%nat in Hlen.
        destruct (IH1 Hnd ltac:(lia)) as [-> Hpn].
        rewrite set_add_fresh in Hsize by exact Hi.
        unfold set_size in Hsize. rewrite length_app in Hsize.
        change (List.length [i]) with 1%nat in Hsize. lia.
      * intros Hnd Hlen. apply NoDup_snoc in Hnd as [Hnd Hi].
        rewrite length_app in Hlen. change (List.length [i]) with 1%nat in Hlen.
        destruct (IH1 Hnd ltac:(lia)) as [-> Hpn].
        rewrite set_add_fresh in * by exact Hi.
        split; [rewrite !purges_app, Hp, Hpn; reflexivity|].
        exists (dn ++ d),
          [ConsoleError e;
           ConsoleError (Errors.StreamPurgeError
             {| url := u; streamName := key; consumerGroup := group;
                consumerId := consumer;
                client := {| store := sn; trace := trace w ++ dn |};
                processedMessageIds := acked dn |})],
          i, n0, (Throw e). simpl.
        rewrite !acked_app, Ha. simpl.
        split; [rewrite <- app_assoc; reflexivity|].
        split; [reflexivity|]. split; [reflexivity|].
        eexists n, d, _. split; [lia|]. split; [exact Hnew|reflexivity].
Qed.
End Crossing.


(** ** Runs against the feeding store *)

Section FeedFacts.
Import MessageStream StreamOps.


Lemma digits_inj n m : JS.digits n = JS.digits m -> n = m.
Proof.
  unfold JS.digits. intros H.
  apply DecimalN.Unsigned.to_uint_inj.
  pose proof (NilEmpty.usu (N.to_uint n)) as Hn.
  pose proof (NilEmpty.usu (N.to_uint m)) as Hm.
  rewrite H in Hn. rewrite Hn in Hm. injection Hm as Hm. exact Hm.
Qed.

Lemma feed_id_inj k k' : Feed.feed_id k = Feed.feed_id k' -> k = k'.
Proof.
  unfold Feed.feed_id, Redis.entry_id. intros H.
  injection H as H. apply digits_inj in H. lia.
Qed.

Lemma feed_ids_NoDup c n : List.NoDup (List.map Feed.feed_id (seq c n)).
Proof.
  induction n as [|n IH] in c |- *; simpl; constructor.
  - intros Hin. apply in_map_iff in Hin as (k & Hk & Hin).
    apply feed_id_inj in Hk. apply in_seq in Hin. lia.
  - apply IH.
Qed.

#[local] Arguments set_add : simpl never.
#[local] Arguments set_size : simpl never.
#[local] Arguments Z.ltb : simpl never.

(** One call against the feeding store acknowledges the next entry; when
    the store refuses bulk deletes, the buffer only grows. *)
Lemma feed_step (purge_ok : bool) (this : t nat) :
  let i := Feed.feed_id (store (client this)) in
  exists d ids',
    snd (consumeMessage (Feed.exec purge_ok) this)
    = set_processedMessageIds ids'
        (set_client {| store := Datatypes.S (store (client this));
                       trace := trace (client this) ++ d |} this) /\
    acked d = [i] /\
    (purge_ok = false -> ids' = set_add i (processedMessageIds this)).
Proof.
  destruct this as [u key group consumer [c tr] ids]. simpl.
  unfold consumeMessage, read_failed, read_new, acknowledge, getFailedMessage,
    deleteProcessedMessages, parse_data, set_id, set_message, this.
  unfold_M.
  change (Redis.entry_id (N.of_nat c)) with (Feed.feed_id c).
  destruct (MAX_PROCESSED_IDS <? set_size (set_add (Feed.feed_id c) ids)) eqn:Hmax; simpl.
  - assert (Hpos : (0 <? set_size (set_add (Feed.feed_id c) ids)) = true).
    { apply Z.ltb_lt. apply Z.ltb_lt in Hmax. unfold MAX_PROCESSED_IDS in Hmax. lia. }
    rewrite Hpos. simpl. destruct purge_ok; simpl.
    + do 2 eexists. split; [rewrite <- !app_assoc; reflexivity|].
      split; [reflexivity|discriminate].
    + do 2 eexists. split; [rewrite <- !app_assoc; reflexivity|].
      split; [reflexivity|reflexivity].
  - do 2 eexists. split; [rewrite <- !app_assoc; reflexivity|].
    split; [reflexivity|reflexivity].
Qed.

(** [n] calls acknowledge the next [n] entries. *)
Lemma feed_run (purge_ok : bool) (this : t nat) (n : nat) :
  let c := store (client this) in
  exists d ids',
    consume_many (Feed.exec purge_ok) n this
    = set_processedMessageIds ids'
        (set_client {| store := (c + n)%nat;
                       trace := trace (client this) ++ d |} this) /\
    acked d = List.map Feed.feed_id (seq c n) /\
    (purge_ok = false -> processedMessageIds this = [] -> c = 0%nat ->
     ids' = List.map Feed.feed_id (seq 0 n)).
Proof.
  simpl. induction n as [|n IH].
  - exists [], (processedMessageIds this). split; [|split].
    + destruct this as [u key group consumer [c tr] ids]. simpl.
      unfold set_processedMessageIds. simpl.
      rewrite app_nil_r, Nat.add_0_r. reflexivity.
    + reflexivity.
    + intros _ -> _. reflexivity.
  - destruct IH as (d & ids' & E & Ha & Hbuf).
    change (consume_many (Feed.exec purge_ok) (Datatypes.S n) this)
      with (snd (consumeMessage (Feed.exec purge_ok)
                   (consume_many (Feed.exec purge_ok) n this))).
    destruct (feed_step purge_ok (consume_many (Feed.exec purge_ok) n this))
      as (d1 & ids1 & E1 & Ha1 & Hbuf1).
    rewrite E1, E. clear E1.
    rewrite E in Ha1, Hbuf1.
    destruct this as [u key group consumer [c tr] ids].
    unfold set_processedMessageIds in *.
    cbn [client store trace processedMessageIds set_client stream_HasClient
         streamName consumerGroup consumerId url] in *.
    exists (d ++ d1), ids1. split; [|split].
    + rewrite <- app_assoc, Nat.add_succ_r. reflexivity.
    + rewrite acked_app, Ha, Ha1, seq_S, map_app. reflexivity.
    + intros Hp -> ->. rewrite (Hbuf1 Hp), (Hbuf Hp eq_refl eq_refl).
      rewrite seq_S, map_app. cbn [List.map Nat.add].
      apply set_add_fresh.
      intros Hin. apply in_map_iff in Hin as (k & Hk & Hin).
      apply feed_id_inj in Hk. apply in_seq in Hin. lia.
Qed.
End FeedFacts.


(** A run of [consumeMessage] calls that starts with an empty buffer and
    acknowledges [MAX_PROCESSED_IDS + 1] distinct ids crosses the mark
    once. *)
Lemma crossing_run {S} (exec : handler S) (this : MessageStream.t S) (n : nat) :
  MessageStream.processedMessageIds this = [] ->
  let after := StreamOps.consume_many exec n this in
  let d := new_events (MessageStream.client this) (MessageStream.client after) in
  List.NoDup (acked d) ->
  Z.of_nat (List.length (acked d)) = MessageStream.MAX_PROCESSED_IDS + 1 ->
  crossed exec this n d (MessageStream.processedMessageIds after).
Proof.
  intros Hempty after d.
  destruct (consume_many_inv exec this n Hempty) as (s' & d0 & ids' & E & _ & H).
  assert (Hd : d = d0).
  { unfold d, after. rewrite E. destruct this. simpl. apply new_events_app. }
  assert (Hids : MessageStream.processedMessageIds after = ids').
  { unfold after. rewrite E. destruct this. reflexivity. }
  rewrite Hd, Hids. exact H.
Qed.

(** C3, as amended.  In a run of [consumeMessage] calls that starts with an
    empty buffer and acknowledges [MAX_PROCESSED_IDS + 1] distinct ids,
    exactly one XDEL is sent; it is sent by the call that made the last of
    these acknowledgments, right after that acknowledgment and before the
    call returns, with all the ids acknowledged.  When this delete succeeds
    the buffer is empty afterwards; when it fails the failure is swallowed
    and the buffer holds all the ids. *)
Theorem purge_after_high_water_mark {S} (exec : handler S)
    (this : MessageStream.t S) (n : nat) :
  MessageStream.processedMessageIds this = [] ->
  let after := StreamOps.consume_many exec n this in
  let d := new_events (MessageStream.client this) (MessageStream.client after) in
  List.NoDup (acked d) ->
  Z.of_nat (List.length (acked d)) = MessageStream.MAX_PROCESSED_IDS + 1 ->
  crossed exec this n d (MessageStream.processedMessageIds after).
Proof. exact (crossing_run exec this n). Qed.

(** What [MAX_PROCESSED_IDS + 1] calls against the feeding store record. *)
Lemma feed_crossing (purge_ok : bool) :
  let n := Z.to_nat (MessageStream.MAX_PROCESSED_IDS + 1) in
  let this := MessageStream.constructor "S" None None 0%nat in
  let after := StreamOps.consume_many (Feed.exec purge_ok) n this in
  let d := new_events (MessageStream.client this) (MessageStream.client after) in
  MessageStream.processedMessageIds this = [] /\
  List.NoDup (acked d) /\
  Z.of_nat (List.length (acked d)) = MessageStream.MAX_PROCESSED_IDS + 1 /\
  (purge_ok = false ->
   MessageStream.set_size (MessageStream.processedMessageIds after)
   = MessageStream.MAX_PROCESSED_IDS + 1).
Proof.
  intros n this after d.
  assert (Hn : Z.of_nat n = MessageStream.MAX_PROCESSED_IDS + 1).
  { unfold n. apply Z2Nat.id. unfold MessageStream.MAX_PROCESSED_IDS. lia. }
  clearbody n.
  destruct (feed_run purge_ok this n) as (d0 & ids' & E & Ha & Hbuf).
  assert (Hd : d = d0).
  { unfold d, after. rewrite E. apply new_events_app. }
  assert (Hids : MessageStream.processedMessageIds after = ids').
  { unfold after. rewrite E. reflexivity. }
  split; [reflexivity|].
  rewrite Hd, Ha, Hids. split; [apply feed_ids_NoDup|].
  split; [rewrite length_map, length_seq; exact Hn|].
  intros Hp. rewrite (Hbuf Hp eq_refl eq_refl).
  unfold MessageStream.set_size.
  rewrite length_map, length_seq. exact Hn.
Qed.

Lemma purge_after_high_water_mark_witness :
  let n := Z.to_nat (MessageStream.MAX_PROCESSED_IDS + 1) in
  let this := MessageStream.constructor "S" None None 0%nat in
  let after := StreamOps.consume_many (Feed.exec true) n this in
  let d := new_events (MessageStream.client this) (MessageStream.client after) in
  MessageStream.processedMessageIds this = [] /\
  List.NoDup (acked d) /\
  Z.of_nat (List.length (acked d)) = MessageStream.MAX_PROCESSED_IDS + 1 /\
  crossed (Feed.exec true) this n d (MessageStream.processedMessageIds after).
Proof.
  destruct (feed_crossing true) as (H0 & Hnd & Hlen & _).
  split; [exact H0|]. split; [exact Hnd|]. split; [exact Hlen|].
  exact (purge_after_high_water_mark (Feed.exec true)
           (MessageStream.constructor "S" None None 0%nat)
           (Z.to_nat (MessageStream.MAX_PROCESSED_IDS + 1)) H0 Hnd Hlen).
Defined.

(** C3, as stated, fails: against a store that hands out
    [MAX_PROCESSED_IDS + 1] entries, acknowledges each and refuses the bulk
    delete, the one purge is triggered and the buffer is left with
    [MAX_PROCESSED_IDS + 1] ids, above the mark. *)
Lemma failed_purge_leaves_buffer_over_mark :
  let n := Z.to_nat (MessageStream.MAX_PROCESSED_IDS + 1) in
  let this := MessageStream.constructor "S" None None 0%nat in
  let after := StreamOps.consume_many (Feed.exec false) n this in
  let d := new_events (MessageStream.client this) (MessageStream.client after) in
  MessageStream.processedMessageIds this = [] /\
  List.NoDup (acked d) /\
  Z.of_nat (List.length (acked d)) = MessageStream.MAX_PROCESSED_IDS + 1 /\
  purges d = 1%nat /\
  MessageStream.set_size (MessageStream.processedMessageIds after)
  = MessageStream.MAX_PROCESSED_IDS + 1 /\
  MessageStream.MAX_PROCESSED_IDS
  < MessageStream.set_size (MessageStream.processedMessageIds after).
Proof.
  destruct (feed_crossing false) as (H0 & Hnd & Hlen & Hsize).
  specialize (Hsize eq_refl).
  split; [exact H0|]. split; [exact Hnd|]. split; [exact Hlen|].
  split.
  - apply (crossing_run (Feed.exec false)
             (MessageStream.constructor "S" None None 0%nat)
             (Z.to_nat (MessageStream.MAX_PROCESSED_IDS + 1)) H0 Hnd Hlen).
  - split; [exact Hsize|]. rewrite Hsize. lia.
Qed.


(** C9.  Every operation of a MessageStream keeps the buffer within the ids
    this instance acknowledged successfully; and it either keeps every id
    of the buffer, or leaves the buffer empty after an XDEL that succeeded
    and covered them all. *)
Theorem processed_buffer_invariant {S} (exec : handler S) (o : StreamOps.op)
    (this : MessageStream.t S) :
  buffer_acked this ->
  let after := snd (StreamOps.perform exec o this) in
  let d := new_events (MessageStream.client this) (MessageStream.client after) in
  buffer_acked after /\
  (incl (MessageStream.processedMessageIds this)
        (MessageStream.processedMessageIds after) \/
   (MessageStream.processedMessageIds after = [] /\
    exists del n,
      In (Call (XDEL (MessageStream.streamName this) del) (Ok n)) d /\
      incl (MessageStream.processedMessageIds this) del)).
Proof.
  intros Hinv after d.
  destruct (perform_step exec o this) as (s' & d0 & ids' & E & Hgain & Hloss).
  assert (Hd : d = d0).
  { unfold d, after. rewrite E. destruct this. simpl. apply new_events_app. }
  assert (Hids : MessageStream.processedMessageIds after = ids').
  { unfold after. rewrite E. destruct this. reflexivity. }
  rewrite Hd, Hids. split; [|exact Hloss].
  intros i Hi. rewrite Hids in Hi.
  assert (Htr : trace (MessageStream.client after)
                = trace (MessageStream.client this) ++ d0).
  { unfold after. rewrite E. destruct this. reflexivity. }
  rewrite Htr, acked_app. apply in_or_app.
  destruct (Hgain i Hi) as [H | H]; [left; apply Hinv; exact H | right; exact H].
Qed.

Lemma processed_buffer_invariant_witness :
  let this0 := MessageStream.constructor "S" None None Redis.empty in
  let this1 := snd (MessageStream.connect Redis.exec this0) in
  let this2 := snd (MessageStream.addMessage Redis.exec (JS.Str "job") this1) in
  let this := snd (MessageStream.consumeMessage Redis.exec this2) in
  let after := snd (StreamOps.perform Redis.exec StreamOps.OpDeleteProcessedMessages this) in
  MessageStream.processedMessageIds this = ["0-1"] /\
  buffer_acked this /\
  buffer_acked after /\
  MessageStream.processedMessageIds after = [].
Proof.
  intros this0 this1 this2 this after.
  assert (Hinv : buffer_acked this).
  { intros i Hi. vm_compute in Hi. destruct Hi as [<- | []]. vm_compute. auto. }
  split; [reflexivity|]. split; [exact Hinv|].
  split.
  - exact (proj1 (processed_buffer_invariant Redis.exec
                    StreamOps.OpDeleteProcessedMessages this Hinv)).
  - reflexivity.
Defined.

(** The invariant holds after any sequence of operations on a new
    instance. *)
Lemma buffer_acked_reachable {S} (exec : handler S) (ops : list StreamOps.op)
    name url pm (s : S) :
  buffer_acked (StreamOps.run exec ops (MessageStream.constructor name url pm s)).
Proof.
  unfold StreamOps.run.
  assert (H0 : buffer_acked (MessageStream.constructor name url pm s)).
  { intros i []. }
  revert H0. generalize (MessageStream.constructor name url pm s).
  induction ops as [|o ops IH]; intros m Hm; [exact Hm|].
  simpl. apply IH.
  destruct (perform_step exec o m) as (s' & d0 & ids' & E & Hgain & _).
  rewrite E. intros i Hi. destruct m. simpl in *.
  rewrite acked_app. apply in_or_app.
  destruct (Hgain i Hi) as [H | H]; [left; apply Hm; exact H | right; exact H].
Qed.




(** * Further properties

    ** The queue as a FIFO list *)

Section QueueRefinement.
Import MessageQueue QueueOps.









End QueueRefinement.

(** ** Edges of the queue *)

Section QueueEdges.
Import MessageQueue QueueOps.

(** X3.  [pop] takes the head out of the store before it parses it: when the
    head is not JSON text, [pop] raises its read error, the parse error is
    written to the console, and the element is gone from the queue all the
    same. *)
Theorem pop_malformed_head_is_lost (q : t Redis.server) (head : string)
    (rest : list string) :
  Redis.list_at (store (client q)) (queueName q) = head :: rest ->
  JS.JSON_parse head = None ->
  let after := snd (pop Redis.exec q) in
  fst (pop Redis.exec q) = Throw (QueueReadError (queueName q)) /\
  Redis.list_at (store (client after)) (queueName q) = rest /\
  new_events (client q) (client after)
  = [Call (LPOP (queueName q)) (Ok (Some head)); ConsoleError SyntaxError].
Proof.
  destruct q as [u name [s tr]]. simpl. intros Hq Hparse.
  unfold pop. unfold_M. rewrite Hq. simpl. rewrite Hparse. simpl.
  rewrite RedisFacts.list_at_set_list.
  repeat split. rewrite <- app_assoc. apply new_events_app.
Qed.

Lemma pop_malformed_head_is_lost_witness :
  let s := Redis.set_list "queue:Q" ["{oops"; "1"] Redis.empty in
  let q := constructor "Q" None s in
  let after := snd (pop Redis.exec q) in
  Redis.list_at (store (client q)) (queueName q) = ["{oops"; "1"] /\
  JS.JSON_parse "{oops" = None /\
  fst (pop Redis.exec q) = Throw (QueueReadError "queue:Q") /\
  fst (pop Redis.exec after) = Ok (JS.Num (JS.NInt 1)).
Proof.
  intros s q after.
  assert (Hq : Redis.list_at (store (client q)) (queueName q) = ["{oops"; "1"])
    by reflexivity.
  assert (Hp : JS.JSON_parse "{oops" = None) by reflexivity.
  split; [exact Hq|]. split; [exact Hp|].
  split; [exact (proj1 (pop_malformed_head_is_lost q "{oops" ["1"] Hq Hp))|].
  reflexivity.
Defined.

(** A queue operation touches the list under the queue's own key only. *)
Lemma perform_other_keys (o : op) (q : t Redis.server) (other : string) :
  other <> queueName q ->
  let after := snd (perform Redis.exec o q) in
  Redis.list_at (store (client after)) other
  = Redis.list_at (store (client q)) other /\
  Redis.streams (store (client after)) = Redis.streams (store (client q)) /\
  queueName after = queueName q.
Proof.
  destruct q as [u name [s tr]]. simpl. intros Hne.
  assert (Hset : forall l, Redis.list_at (Redis.set_list name l s) other
                           = Redis.list_at s other).
  { intros l. unfold Redis.list_at, Redis.set_list. simpl.
    rewrite lookup_insert_ne by congruence. reflexivity. }
  destruct o as [| |data| |]; simpl.
  - unfold connect. unfold_M. auto.
  - unfold disconnect. unfold_M. auto.
  - unfold push. unfold_M. destruct (JS.JSON_stringify data); simpl; auto.
  - unfold pop. unfold_M. destruct (Redis.list_at s name) as [|x l]; simpl.
    + auto.
    + destruct (JS.JSON_parse x); simpl; auto.
  - unfold size. unfold_M. auto.
Qed.

(** X4.  Queues of different names do not meet: on the Redis model, whatever
    is done to the queue named [a], with any values, the list of the queue
    named [b] and all streams of the store stay as they were. *)
Theorem queues_are_isolated (a b : string) (url : option string)
    (s : Redis.server) (ops : list op) :
  a <> b ->
  let after := snd (run Redis.exec ops (constructor a url s)) in
  Redis.list_at (store (client after)) (queueName (constructor b url s))
  = Redis.list_at s (queueName (constructor b url s)) /\
  Redis.streams (store (client after)) = Redis.streams s.
Proof.
  intros Hab. simpl.
  assert (Hne : "queue:" +:+ b <> queueName (constructor a url s)).
  { simpl. intros H. injection H as H. apply Hab. symmetry. exact H. }
  change s with (store (client (constructor a url s))) at 2 4.
  revert Hne. generalize (constructor a url s). clear.
  induction ops as [|o ops IH]; intros q Hne; [split; reflexivity|].
  simpl.
  destruct (perform_other_keys o q _ Hne) as (Hl & Hs & Hn).
  destruct (perform Redis.exec o q) as [r q']. simpl in Hl, Hs, Hn.
  rewrite <- Hn in Hne. destruct (IH q' Hne) as [IHl IHs].
  destruct (run Redis.exec ops q') as [rs q'']. simpl in *.
  split; congruence.
Qed.

Lemma queues_are_isolated_witness :
  let s := Redis.set_list "queue:b" ["1"] Redis.empty in
  let ops := [OpPush (JS.Str "x"); OpPop; OpPop; OpPush JS.Undefined; OpSize] in
  let after := snd (run Redis.exec ops (constructor "a" None s)) in
  "a" <> "b" /\
  Redis.list_at (store (client after)) "queue:b" = ["1"].
Proof.
  intros s ops after.
  assert (Hab : "a" <> "b") by discriminate.
  split; [exact Hab|].
  exact (proj1 (queues_are_isolated "a" "b" None s ops Hab)).
Defined.
End QueueEdges.

(** ** The stream on the Redis model *)

Section StreamOnRedis.
Import MessageStream.
#[local] Arguments set_add : simpl never.
#[local] Arguments set_size : simpl never.
#[local] Arguments Z.ltb : simpl never.
#[local] Arguments N.ltb : simpl never.
#[local] Arguments N.leb : simpl never.
#[local] Arguments Redis.entry_id : simpl never.

(** No entry of [es] is past the cursor [ld]: the group read finds nothing. *)
Lemma filter_delivered (ld : N) (es : list (N * Redis.fields)) :
  forallb (fun e => (fst e <=? ld)%N) es = true ->
  List.filter (fun e => (ld <? fst e)%N) es = [].
Proof.
  induction es as [|e es IH]; simpl; [reflexivity|].
  intros H. apply andb_prop in H as [H1 H2].
  apply N.leb_le in H1.
  destruct (N.ltb_spec ld (fst e)); [lia|]. apply IH. exact H2.
Qed.



(** A bulk delete of the one id [n] takes the entry [n] out and leaves
    the older entries. *)
Lemma filter_purged (ld n : N) (f : Redis.fields) (es : list (N * Redis.fields)) :
  forallb (fun e => (fst e <=? ld)%N) es = true ->
  (ld < n)%N ->
  List.filter (fun e => negb (existsb (String.eqb (Redis.entry_id (fst e)))
                                      [Redis.entry_id n]))
              (es ++ [(n, f)]) = es.
Proof.
  intros Hold Hlt. rewrite List.filter_app.
  cbn [List.filter existsb fst]. rewrite String.eqb_refl.
  cbn [orb negb]. rewrite app_nil_r.
  apply forallb_filter_id. apply forallb_forall. intros e He.
  rewrite forallb_forall in Hold. specialize (Hold e He). apply N.leb_le in Hold.
  destruct (String.eqb_spec (Redis.entry_id (fst e)) (Redis.entry_id n)) as [E|E].
  - unfold Redis.entry_id in E. injection E as E. apply digits_inj in E. lia.
  - reflexivity.
Qed.

(** X6.  An entry that was consumed and acknowledged is still in the stream:
    on the Redis model, with an empty buffer, [length] after [addMessage]
    and [consumeMessage] counts the entry, whose id is now the buffer;
    [deleteProcessedMessages] then succeeds, removes that entry and no
    other, and empties the buffer. *)
Theorem consumed_entry_stays_until_purge (this : t Redis.server)
    (st : Redis.stream) (g : Redis.group) (v : JS.value) :
  Redis.streams (store (client this)) !! streamName this = Some st ->
  Redis.groups st !! consumerGroup this = Some g ->
  Redis.pel g = [] ->
  forallb (fun e => (fst e <=? Redis.last_delivered g)%N) (Redis.entries st) = true ->
  (Redis.last_delivered g <= Redis.last_seq st)%N ->
  representable v = true ->
  processedMessageIds this = [] ->
  let consumed := snd (consumeMessage Redis.exec (snd (addMessage Redis.exec v this))) in
  let purged := snd (deleteProcessedMessages Redis.exec consumed) in
  let n := Z.of_nat (List.length (Redis.entries st)) in
  fst (length Redis.exec this) = Ok n /\
  fst (length Redis.exec consumed) = Ok (n + 1) /\
  processedMessageIds consumed = [Redis.entry_id (Redis.last_seq st + 1)] /\
  fst (deleteProcessedMessages Redis.exec consumed) = Ok tt /\
  fst (length Redis.exec purged) = Ok n /\
  processedMessageIds purged = [] /\
  Redis.entries <$> (Redis.streams (store (client purged)) !! streamName this)
  = Some (Redis.entries st).
Proof.
  destruct this as [u key group consumer [s tr] ids]. simpl.
  intros Hst Hg Hpel Hold Hld Hv ->.
  destruct (JSONFacts.JSON_roundtrip v Hv) as (t & Hs & Hp).
  split.
  { unfold length. unfold_M. rewrite Hst. reflexivity. }
  unfold addMessage. unfold_M. rewrite Hs. simpl. rewrite Hst. simpl.
  unfold consumeMessage, read_failed, read_new, acknowledge,
    getFailedMessage, parse_data, set_id, set_message, MessageStream.this.
  unfold_M.
  rewrite !lookup_insert_eq. simpl. rewrite Hg, Hpel. simpl.
  rewrite !lookup_insert_eq. simpl. rewrite !lookup_insert_eq. simpl.
  rewrite List.filter_app, (filter_delivered _ _ Hold). simpl.
  assert (Hlt : (Redis.last_delivered g <? Redis.last_seq st + 1)%N = true)
    by (apply N.ltb_lt; lia).
  rewrite Hlt. simpl. rewrite Hp. simpl.
  rewrite !lookup_insert_eq. simpl. rewrite !lookup_insert_eq. simpl.
  rewrite String.eqb_refl. simpl.
  change (MAX_PROCESSED_IDS <? set_size (set_add _ [])) with false. simpl.
  rewrite !lookup_insert_eq. simpl.
  split.
  { rewrite length_app. simpl. f_equal. lia. }
  split; [reflexivity|].
  rewrite StreamFacts.deleteProcessedMessages_nonempty by (simpl; discriminate).
  simpl. rewrite !lookup_insert_eq. simpl.
  split; [reflexivity|].
  rewrite !lookup_insert_eq. simpl.
  change (set_add _ []) with [Redis.entry_id (Redis.last_seq st + 1)].
  assert (Hn : (Redis.last_delivered g < Redis.last_seq st + 1)%N) by lia.
  match goal with
  | |- context [List.filter ?f (Redis.entries st ++ ?l)] =>
      replace (List.filter f (Redis.entries st ++ l)) with (Redis.entries st)
        by (symmetry; exact (filter_purged _ _ _ _ Hold Hn))
  end.
  repeat split.
Qed.

Lemma consumed_entry_stays_until_purge_witness :
  let this := snd (connect Redis.exec (constructor "S" None None Redis.empty)) in
  let g := {| Redis.last_delivered := 0; Redis.pel := [] |} in
  let st := {| Redis.entries := []; Redis.last_seq := 0;
               Redis.groups := {[ "S:consumer:group" := g ]} |} in
  let v := JS.Str "job" in
  let consumed := snd (consumeMessage Redis.exec (snd (addMessage Redis.exec v this))) in
  let purged := snd (deleteProcessedMessages Redis.exec consumed) in
  Redis.streams (store (client this)) !! streamName this = Some st /\
  Redis.groups st !! consumerGroup this = Some g /\
  fst (length Redis.exec consumed) = Ok 1 /\
  fst (length Redis.exec purged) = Ok 0.
Proof.
  intros this g st v consumed purged.
  assert (H1 : Redis.streams (store (client this)) !! streamName this = Some st)
    by reflexivity.
  assert (H2 : Redis.groups st !! consumerGroup this = Some g) by reflexivity.
  assert (H3 : (Redis.last_delivered g <= Redis.last_seq st)%N) by (simpl; lia).
  split; [exact H1|]. split; [exact H2|].
  destruct (consumed_entry_stays_until_purge this st g v H1 H2 eq_refl
              eq_refl H3 eq_refl eq_refl) as (_ & Hc & _ & _ & Hp & _).
  split; [exact Hc|exact Hp].
Defined.

(** X7.  [connect] creates the group at the end of the stream (cursor [$]):
    on the Redis model, when the stream exists without the group, the
    entries added before [connect] are not delivered; [consumeMessage]
    after [connect] returns the absent pair and acknowledges nothing. *)
Theorem connect_skips_earlier_entries (this : t Redis.server) (st : Redis.stream) :
  Redis.streams (store (client this)) !! streamName this = Some st ->
  Redis.groups st !! consumerGroup this = None ->
  forallb (fun e => (fst e <=? Redis.last_seq st)%N) (Redis.entries st) = true ->
  let connected := snd (connect Redis.exec this) in
  let consumed := consumeMessage Redis.exec connected in
  fst (connect Redis.exec this) = Ok tt /\
  fst consumed = Ok Errors.absent /\
  acked (new_events (client connected) (client (snd consumed))) = [] /\
  fst (length Redis.exec (snd consumed))
  = Ok (Z.of_nat (List.length (Redis.entries st))).
Proof.
  destruct this as [u key group consumer [s tr] ids]. simpl.
  intros Hst Hg Hold.
  unfold connect. unfold_M. rewrite Hst, Hg. simpl.
  split; [reflexivity|].
  match goal with
  | |- context [new_events {| store := _; trace := ?t |} _] =>
      generalize t; intros tr1
  end.
  unfold consumeMessage, read_failed, read_new, acknowledge,
    getFailedMessage, parse_data, set_id, set_message, MessageStream.this.
  unfold_M.
  repeat (rewrite !lookup_insert_eq; simpl).
  rewrite (filter_delivered _ _ Hold). simpl.
  repeat rewrite <- (app_assoc tr1).
  rewrite new_events_app.
  repeat (rewrite !lookup_insert_eq; simpl).
  repeat split.
Qed.

Lemma connect_skips_earlier_entries_witness :
  let this := snd (addMessage Redis.exec (JS.Num (JS.NInt 7))
                     (constructor "S" None None Redis.empty)) in
  let st := {| Redis.entries := [(1%N, [("data", "7")])]; Redis.last_seq := 1;
               Redis.groups := ∅ |} in
  let connected := snd (connect Redis.exec this) in
  Redis.streams (store (client this)) !! streamName this = Some st /\
  Redis.groups st !! consumerGroup this = None /\
  fst (consumeMessage Redis.exec connected) = Ok Errors.absent /\
  fst (length Redis.exec connected) = Ok 1.
Proof.
  intros this st connected.
  assert (H1 : Redis.streams (store (client this)) !! streamName this = Some st)
    by reflexivity.
  assert (H2 : Redis.groups st !! consumerGroup this = None) by reflexivity.
  split; [exact H1|]. split; [exact H2|].
  split; [|reflexivity].
  exact (proj1 (proj2 (connect_skips_earlier_entries this st H1 H2 eq_refl))).
Defined.

(** One call of [consumeMessage] while the oldest pending entry of the
    group does not parse and nothing new is in the stream. *)
Lemma stuck_step (this : t Redis.server) (st : Redis.stream) (g : Redis.group)
    (n : N) (owner : string) (rest : list (N * string)) (e : N * Redis.fields) :
  Redis.streams (store (client this)) !! streamName this = Some st ->
  Redis.groups st !! consumerGroup this = Some g ->
  Redis.pel g = (n, owner) :: rest ->
  Redis.find_entry n (Redis.entries st) = Some e ->
  JS.JSON_parse (default "undefined" (data_of (Redis.to_message e))) = None ->
  List.filter (fun x => (Redis.last_delivered g <? fst x)%N) (Redis.entries st) = [] ->
  let r := consumeMessage Redis.exec this in
  fst (getFailedMessage Redis.exec this) = Throw SyntaxError /\
  fst r = Ok Errors.absent /\
  (streamName (snd r) = streamName this /\
   consumerGroup (snd r) = consumerGroup this /\
   consumerId (snd r) = consumerId this /\
   processedMessageIds (snd r) = processedMessageIds this) /\
  (exists d, trace (client (snd r)) = trace (client this) ++ d /\ acked d = []) /\
  exists st' g',
    Redis.streams (store (client (snd r))) !! streamName this = Some st' /\
    Redis.groups st' !! consumerGroup this = Some g' /\
    Redis.pel g' = (n, consumerId this) :: rest /\
    Redis.entries st' = Redis.entries st /\
    Redis.last_delivered g' = Redis.last_delivered g.
Proof.
  destruct this as [u key group consumer [s tr] ids]. simpl.
  intros Hst Hg Hpel Hfind Hparse Hnew.
  unfold consumeMessage, read_failed, read_new, acknowledge,
    getFailedMessage, parse_data, set_id, set_message, MessageStream.this.
  unfold_M. rewrite Hst, Hg, Hpel. simpl. rewrite Hfind. simpl.
  replace (Redis.autoclaim 0 consumer (Redis.entries st) rest) with
    (@nil stream_message, rest) by (destruct rest; reflexivity).
  simpl. rewrite Hparse. simpl.
  repeat (rewrite !lookup_insert_eq; simpl).
  rewrite Hnew. simpl.
  split; [reflexivity|]. split; [reflexivity|]. split; [repeat split|].
  split.
  - eexists. split; [repeat rewrite <- (app_assoc tr); reflexivity|reflexivity].
  - do 2 eexists. split; [apply lookup_insert_eq|].
    split; [apply lookup_insert_eq|]. repeat split.
Qed.

(** X8.  A pending entry whose data is not JSON text is never cleared by
    this code.  On the Redis model, when the oldest pending entry of the
    group does not parse and the stream has nothing new, then after any
    number of [consumeMessage] calls the entry is still the oldest pending
    one, nothing was acknowledged, [getFailedMessage] still throws the
    parse error, and [consumeMessage] still returns the absent pair: the
    pending entries behind it are not reclaimed. *)
Theorem malformed_pending_entry_is_stuck (this : t Redis.server)
    (st : Redis.stream) (g : Redis.group) (n : N) (owner : string)
    (rest : list (N * string)) (e : N * Redis.fields) (k : nat) :
  Redis.streams (store (client this)) !! streamName this = Some st ->
  Redis.groups st !! consumerGroup this = Some g ->
  Redis.pel g = (n, owner) :: rest ->
  Redis.find_entry n (Redis.entries st) = Some e ->
  JS.JSON_parse (default "undefined" (data_of (Redis.to_message e))) = None ->
  List.filter (fun x => (Redis.last_delivered g <? fst x)%N) (Redis.entries st) = [] ->
  let after := StreamOps.consume_many Redis.exec k this in
  fst (getFailedMessage Redis.exec after) = Throw SyntaxError /\
  fst (consumeMessage Redis.exec after) = Ok Errors.absent /\
  acked (new_events (client this) (client after)) = [] /\
  exists st' g',
    Redis.streams (store (client after)) !! streamName this = Some st' /\
    Redis.groups st' !! consumerGroup this = Some g' /\
    fst <$> Redis.pel g' = n :: (fst <$> rest).
Proof.
  intros Hst Hg Hpel Hfind Hparse Hnew after.
  assert (Inv : exists st' g' owner' d,
    (streamName after = streamName this /\
     consumerGroup after = consumerGroup this /\
     consumerId after = consumerId this) /\
    Redis.streams (store (client after)) !! streamName this = Some st' /\
    Redis.groups st' !! consumerGroup this = Some g' /\
    Redis.pel g' = (n, owner') :: rest /\
    Redis.entries st' = Redis.entries st /\
    Redis.last_delivered g' = Redis.last_delivered g /\
    trace (client after) = trace (client this) ++ d /\ acked d = []).
  { subst after. induction k as [|k IH].
    - exists st, g, owner, []. simpl. rewrite app_nil_r. repeat split; assumption.
    - destruct IH as (st1 & g1 & o1 & d1 & (Hk & Hgr & Hc) & Hst1 & Hg1 & Hp1
                      & He1 & Hl1 & Ht1 & Ha1).
      change (StreamOps.consume_many Redis.exec (Datatypes.S k) this)
        with (snd (consumeMessage Redis.exec
                     (StreamOps.consume_many Redis.exec k this))).
      set (m := StreamOps.consume_many Redis.exec k this) in *.
      rewrite <- Hk in Hst1. rewrite <- Hgr in Hg1.
      rewrite <- He1 in Hfind. rewrite <- He1, <- Hl1 in Hnew.
      destruct (stuck_step m st1 g1 n o1 rest e Hst1 Hg1 Hp1 Hfind Hparse Hnew)
        as (_ & _ & (Hk2 & Hgr2 & Hc2 & _) & (d2 & Ht2 & Ha2)
            & st2 & g2 & Hst2 & Hg2 & Hp2 & He2 & Hl2).
      exists st2, g2, (consumerId m), (d1 ++ d2).
      rewrite Hk2, Hgr2, Hc2, <- Hk, <- Hgr.
      repeat split; try assumption; try congruence.
      + rewrite Ht2, Ht1, app_assoc. reflexivity.
      + rewrite acked_app, Ha1, Ha2. reflexivity. }
  destruct Inv as (st1 & g1 & o1 & d1 & (Hk & Hgr & Hc) & Hst1 & Hg1 & Hp1
                   & He1 & Hl1 & Ht1 & Ha1).
  assert (Hst1' := Hst1). assert (Hg1' := Hg1).
  rewrite <- Hk in Hst1'. rewrite <- Hgr in Hg1'.
  rewrite <- He1 in Hfind. rewrite <- He1, <- Hl1 in Hnew.
  destruct (stuck_step after st1 g1 n o1 rest e Hst1' Hg1' Hp1 Hfind Hparse Hnew)
    as (Hf & Hr & _).
  split; [exact Hf|]. split; [exact Hr|]. split.
  - unfold new_events. rewrite Ht1, drop_app_length. exact Ha1.
  - exists st1, g1. rewrite Hp1. repeat split; assumption.
Qed.

Lemma malformed_pending_entry_is_stuck_witness :
  let g := {| Redis.last_delivered := 2; Redis.pel := [(1%N, "7"); (2%N, "7")] |} in
  let st := {| Redis.entries := [(1%N, [("data", "{oops")]); (2%N, [("data", "1")])];
               Redis.last_seq := 2;
               Redis.groups := {[ "S:consumer:group" := g ]} |} in
  let this := constructor "S" None None (Redis.set_stream "stream:S" st Redis.empty) in
  let after := StreamOps.consume_many Redis.exec 3 this in
  Redis.streams (store (client this)) !! streamName this = Some st /\
  Redis.groups st !! consumerGroup this = Some g /\
  Redis.find_entry 1 (Redis.entries st) = Some (1%N, [("data", "{oops")]) /\
  fst (getFailedMessage Redis.exec after) = Throw SyntaxError /\
  fst (consumeMessage Redis.exec after) = Ok Errors.absent.
Proof.
  intros g st this after.
  assert (H1 : Redis.streams (store (client this)) !! streamName this = Some st)
    by reflexivity.
  assert (H2 : Redis.groups st !! consumerGroup this = Some g) by reflexivity.
  assert (H3 : Redis.find_entry 1 (Redis.entries st)
               = Some (1%N, [("data", "{oops")])) by reflexivity.
  split; [exact H1|]. split; [exact H2|]. split; [exact H3|].
  destruct (malformed_pending_entry_is_stuck this st g 1 "7" [(2%N, "7")]
              (1%N, [("data", "{oops")]) 3 H1 H2 eq_refl H3 eq_refl eq_refl)
    as (Hf & Hc & _).
  split; [exact Hf|exact Hc].
Defined.
End StreamOnRedis.

(** ** More on [consumeMessage], against any store *)

Section ConsumeEdges.
Import MessageStream StreamFacts.
#[local] Arguments getFailedMessage : simpl never.
#[local] Arguments acknowledge : simpl never.

(** The instance [getFailedMessage] leaves behind differs from the one it
    found in its client only. *)
Lemma getFailedMessage_fields {S} (exec : handler S) (this : t S) :
  let after := snd (getFailedMessage exec this) in
  after = set_client (client after) this.
Proof.
  destruct (getFailedMessage_spec exec this) as (d & _ & Hsnd & _).
  simpl. rewrite Hsnd. destruct this; reflexivity.
Qed.

(** X9.  Nothing to read.  When [getFailedMessage] finds no failed entry and
    the group read that follows comes back empty ([null], or no stream),
    [consumeMessage] returns the absent pair: it sent the XAUTOCLAIM and
    the XREADGROUP and nothing else, acknowledged nothing, left the buffer
    as it was, and wrote the no-message error to the console. *)
Theorem consumeMessage_nothing_to_read {S} (exec : handler S) (this : t S) :
  let cA := XAUTOCLAIM (streamName this) (consumerGroup this) (consumerId this)
                       0 "0" 0 1 in
  let cR := XREADGROUP (consumerGroup this) (consumerId this) (streamName this)
                       ">" 2000 1 in
  let s1 := store (client (snd (getFailedMessage exec this))) in
  fst (getFailedMessage exec this) = Ok Errors.absent ->
  fst (exec cR s1) = Ok None \/ fst (exec cR s1) = Ok (Some []) ->
  let after := snd (consumeMessage exec this) in
  let d := new_events (client this) (client after) in
  fst (consumeMessage exec this) = Ok Errors.absent /\
  calls d = [cA; cR] /\
  console_errors d = [NoMessageFoundError] /\
  processedMessageIds after = processedMessageIds this /\
  store (client after) = snd (exec cR s1).
Proof.
  destruct this as [u key group consumer [s tr] ids]. simpl.
  unfold consumeMessage, read_failed, read_new, getFailedMessage, parse_data,
    set_id, set_message, MessageStream.this.
  unfold_M.
  destruct (exec (XAUTOCLAIM _ _ _ _ _ _ _) s) as [[[r|]|e] s1]; simpl;
    [destruct (ac_messages r) as [|[m|] ms]; simpl;
     [|destruct (JS.JSON_parse _); simpl|]| |];
    intros Hfst Hread; try discriminate Hfst;
    (destruct (exec (XREADGROUP _ _ _ _ _ _) s1) as [[[[|r' rs]|]|e'] s2];
     simpl in Hread |- *;
     destruct Hread as [Hread|Hread]; try discriminate Hread;
     repeat rewrite <- (app_assoc tr); rewrite new_events_app;
     repeat split).
Qed.

Lemma consumeMessage_nothing_to_read_witness :
  let this := snd (connect Redis.exec (constructor "S" None None Redis.empty)) in
  let cR := XREADGROUP (consumerGroup this) (consumerId this) (streamName this)
                       ">" 2000 1 in
  let s1 := store (client (snd (getFailedMessage Redis.exec this))) in
  fst (getFailedMessage Redis.exec this) = Ok Errors.absent /\
  fst (Redis.exec cR s1) = Ok None /\
  fst (consumeMessage Redis.exec this) = Ok Errors.absent.
Proof.
  intros this cR s1.
  assert (H1 : fst (getFailedMessage Redis.exec this) = Ok Errors.absent)
    by reflexivity.
  assert (H2 : fst (Redis.exec cR s1) = Ok None) by reflexivity.
  split; [exact H1|]. split; [exact H2|].
  exact (proj1 (consumeMessage_nothing_to_read Redis.exec this H1 (or_introl H2))).
Defined.

(** The third block starts with the XACK; what follows it records no
    acknowledgment. *)
Lemma acknowledge_trace {S} (exec : handler S) (i : string) (l : message_data)
    (this : t S) :
  let c := XACK (streamName this) (consumerGroup this) i in
  let w := client this in
  exists s' d ids',
    acknowledge exec i (l, this)
    = (Ok tt, (l, set_processedMessageIds ids'
                    (set_client
                       {| store := s';
                          trace := trace w ++ Call c (fst (exec c (store w))) :: d |}
                       this))) /\
    acked d = [] /\
    match fst (exec c (store w)) with
    | Ok _ => True
    | Throw e => d = [ConsoleError e] /\ ids' = processedMessageIds this
    end.
Proof.
  destruct (acknowledge_spec exec i l this) as (s' & d & ids' & E & _).
  revert E. destruct this as [u key group consumer [s tr] ids]. simpl.
  unfold acknowledge, MessageStream.this. unfold_M.
  destruct (exec (XACK _ _ _) s) as [[n|e] s1]; simpl.
  - destruct (MAX_PROCESSED_IDS <? set_size (set_add i ids)) eqn:Hmax; simpl.
    + apply Z.ltb_lt in Hmax.
      assert (Hne : set_add i ids <> []).
      { intros E. rewrite E in Hmax. unfold MAX_PROCESSED_IDS, set_size in Hmax.
        simpl in Hmax. lia. }
      unfold set_processedMessageIds. simpl.
      rewrite deleteProcessedMessages_nonempty by exact Hne.
      simpl. destruct (exec (XDEL _ _) _) as [[m|e] s2]; simpl; intros _.
      * do 3 eexists. split; [rewrite <- app_assoc; reflexivity|]. split; reflexivity.
      * do 3 eexists. split; [rewrite <- !app_assoc; reflexivity|]. split; reflexivity.
    + intros _. exists s1, [], (set_add i ids). repeat split.
  - intros _. exists s1, [ConsoleError e], ids.
    split; [rewrite <- app_assoc; reflexivity|]. repeat split.
Qed.

(** X10.  A new entry that does not parse is consumed all the same.  When
    no failed entry is found and the entry the group read hands out has
    data that is not JSON text, [consumeMessage] has the entry's id before
    the parse fails: it returns the id with an undefined message, writes
    the parse error to the console, and sends the XACK for that id, so the
    entry is acknowledged without having been processed. *)
Theorem unparsed_new_entry_is_acknowledged {S} (exec : handler S) (this : t S)
    (r : stream_reply) (rs : list stream_reply) (m : stream_message)
    (ms : list stream_message) :
  let cR := XREADGROUP (consumerGroup this) (consumerId this) (streamName this)
                       ">" 2000 1 in
  let ack := XACK (streamName this) (consumerGroup this) (sm_id m) in
  let s1 := store (client (snd (getFailedMessage exec this))) in
  fst (getFailedMessage exec this) = Ok Errors.absent ->
  fst (exec cR s1) = Ok (Some (r :: rs)) ->
  sr_messages r = m :: ms ->
  JS.JSON_parse (default "undefined" (data_of m)) = None ->
  JS.truthy_id (Some (sm_id m)) = true ->
  let after := snd (consumeMessage exec this) in
  let d := new_events (client this) (client after) in
  fst (consumeMessage exec this)
  = Ok {| id := Some (sm_id m); message := JS.Undefined |} /\
  In ack (calls d) /\
  In SyntaxError (console_errors d) /\
  acked d = match fst (exec ack (snd (exec cR s1))) with
            | Ok _ => [sm_id m]
            | Throw _ => []
            end.
Proof.
  destruct this as [u key group consumer [s tr] ids]. simpl.
  unfold consumeMessage, read_failed, read_new, getFailedMessage, parse_data,
    set_id, set_message, MessageStream.this.
  unfold_M.
  destruct (exec (XAUTOCLAIM _ _ _ _ _ _ _) s) as [[[r0|]|e] s1]; simpl;
    [destruct (ac_messages r0) as [|[m0|] ms0]; simpl;
     [|destruct (JS.JSON_parse _); simpl|]| |];
    intros Hfst Hread Hm Hparse Hid; try discriminate Hfst;
    (destruct (exec (XREADGROUP _ _ _ _ _ _) s1) as [rep s2];
     simpl in Hread |- *; subst rep; simpl; rewrite Hm; simpl;
     rewrite Hparse; simpl; simpl in Hid; rewrite Hid;
     match goal with
     | |- context [acknowledge exec ?i (?l, ?t)] =>
         destruct (acknowledge_trace exec i l t) as (s3 & d3 & ids3 & E & Ha & _);
         simpl in E; rewrite E
     end;
     simpl; repeat rewrite <- (app_assoc tr); rewrite new_events_app;
     simpl; rewrite ?calls_app, ?acked_app; simpl; rewrite Ha;
     split; [reflexivity|];
     split; [right; right; left; reflexivity|];
     split; [left; reflexivity|];
     match goal with
     | |- context [match ?x with Ok _ => Some _ | Throw _ => None end] =>
         destruct x
     end; reflexivity).
Qed.

Lemma unparsed_new_entry_is_acknowledged_witness :
  let st := {| Redis.entries := [(1%N, [("data", "{oops")])];
               Redis.last_seq := 1; Redis.groups := ∅ |} in
  let g := {| Redis.last_delivered := 0; Redis.pel := [] |} in
  let s := Redis.set_stream "stream:S" (Redis.set_group "S:consumer:group" g st)
             Redis.empty in
  let this := constructor "S" None None s in
  let m := Redis.to_message (1%N, [("data", "{oops")]) in
  let cR := XREADGROUP (consumerGroup this) (consumerId this) (streamName this)
                       ">" 2000 1 in
  let s1 := store (client (snd (getFailedMessage Redis.exec this))) in
  fst (getFailedMessage Redis.exec this) = Ok Errors.absent /\
  fst (Redis.exec cR s1)
  = Ok (Some [{| sr_name := "stream:S"; sr_messages := [m] |}]) /\
  JS.JSON_parse (default "undefined" (data_of m)) = None /\
  fst (consumeMessage Redis.exec this)
  = Ok {| id := Some "0-1"; message := JS.Undefined |} /\
  acked (trace (client (snd (consumeMessage Redis.exec this)))) = ["0-1"].
Proof.
  intros st g s this m cR s1.
  assert (H1 : fst (getFailedMessage Redis.exec this) = Ok Errors.absent)
    by reflexivity.
  assert (H2 : fst (Redis.exec cR s1)
               = Ok (Some [{| sr_name := "stream:S"; sr_messages := [m] |}]))
    by reflexivity.
  assert (H3 : JS.JSON_parse (default "undefined" (data_of m)) = None)
    by reflexivity.
  split; [exact H1|]. split; [exact H2|]. split; [exact H3|].
  split; [|reflexivity].
  exact (proj1 (unparsed_new_entry_is_acknowledged Redis.exec this _ _ m []
                  H1 H2 eq_refl H3 eq_refl)).
Defined.

(** The pair [consumeMessage] returns has a message only together with an
    id. *)
Lemma consumeMessage_message_has_id {S} (exec : handler S) (this : t S)
    (md : message_data) :
  fst (consumeMessage exec this) = Ok md ->
  id md = None -> message md = JS.Undefined.
Proof.
  destruct this as [u key group consumer [s tr] ids].
  unfold consumeMessage, read_failed, read_new, getFailedMessage, parse_data,
    set_id, set_message, MessageStream.this.
  unfold_M.
  destruct (exec (XAUTOCLAIM _ _ _ _ _ _ _) s) as [[[r0|]|e] s1]; simpl;
    [destruct (ac_messages r0) as [|[m0|] ms0]; simpl;
     [|destruct (JS.JSON_parse _) as [v|]; simpl;
       [destruct (JS.truthy v); simpl|]|]| |];
    try (destruct (exec (XREADGROUP _ _ _ _ _ _) s1) as [[[[|r' rs]|]|e'] s2];
         simpl;
         [|destruct (sr_messages r') as [|m ms]; simpl;
           [|destruct (JS.JSON_parse _); simpl]| |]);
    repeat match goal with
    | |- context [negb (String.eqb ?x ?y)] => destruct (negb (String.eqb x y)); simpl
    end;
    repeat match goal with
    | |- context [acknowledge exec ?i (?l, ?t)] =>
        let E := fresh "E" in
        destruct (acknowledge_trace exec i l t) as (? & ? & ? & E & _);
        simpl in E; rewrite E; simpl
    end;
    intros H Hid; injection H as <-; simpl in Hid |- *;
    first [reflexivity | discriminate Hid].
Qed.

Lemma Call_command (c c' : command) (r : result (reply c)) (r' : result (reply c')) :
  Call c r = Call c' r' -> c = c'.
Proof.
  intros H.
  apply (f_equal (fun e => match e with Call x _ => Some x | _ => None end)) in H.
  injection H as H. exact H.
Qed.

Lemma set_size_add (i : string) (ids : list string) :
  set_size ids <= set_size (set_add i ids) <= set_size ids + 1.
Proof.
  unfold set_size, set_add. destruct (existsb _ ids); [lia|].
  rewrite length_app. simpl. lia.
Qed.

(** X11.  What one [consumeMessage] call does to the stream.  Every XACK it
    sends carries the id of the pair it returns, on the instance's stream
    and group; it acknowledges at most that one entry; a pair without id
    has no message; and while the buffer is below the high-water mark no
    bulk delete is sent. *)
Theorem consumeMessage_acknowledges_what_it_returns {S} (exec : handler S)
    (this : t S) :
  let after := snd (consumeMessage exec this) in
  let d := new_events (client this) (client after) in
  exists md,
    fst (consumeMessage exec this) = Ok md /\
    (forall key group i r,
        In (Call (XACK key group i) r) d ->
        id md = Some i /\ key = streamName this /\ group = consumerGroup this) /\
    (acked d = [] \/ exists i, id md = Some i /\ acked d = [i]) /\
    (id md = None -> message md = JS.Undefined) /\
    (set_size (processedMessageIds this) < MAX_PROCESSED_IDS ->
     purges d = 0%nat).
Proof.
  intros after d.
  destruct (consumeMessage_spec exec this)
    as (md & s' & d0 & d_ack & ids' & E & Ha & Hp & Hcalls & Hack).
  assert (Hfst : fst (consumeMessage exec this) = Ok md) by (rewrite E; reflexivity).
  assert (Hd : d = d0 ++ d_ack).
  { unfold d, after. rewrite E. destruct this. simpl. apply new_events_app. }
  assert (Hno : forall key group i r, ~ In (Call (XACK key group i) r) d0).
  { intros key group i r Hin. apply In_calls in Hin.
    destruct (fst (getFailedMessage exec this)) as [md0|e];
      [destruct (JS.truthy (message md0)); [destruct Hcalls as [Hcalls _]|]|];
      rewrite Hcalls in Hin; simpl in Hin;
      repeat (destruct Hin as [Hin|Hin]; [discriminate Hin|]); exact Hin. }
  exists md. split; [exact Hfst|].
  split; [|split; [|split]].
  - intros key group i r Hin. rewrite Hd in Hin.
    apply in_app_or in Hin as [Hin|Hin]; [destruct (Hno _ _ _ _ Hin)|].
    destruct Hack as [(_ & -> & _) | (j & Hj & _ & Hcases)]; [destruct Hin|].
    destruct Hcases as [(e & -> & _) | [(n & -> & _)
                       | [(n & m & -> & _) | (n & e & -> & _)]]];
      simpl in Hin;
      repeat (destruct Hin as [Hin|Hin];
              [first [discriminate Hin
                     |apply Call_command in Hin; first [discriminate Hin
                        |injection Hin as <- <- <-; auto]]|]);
      destruct Hin.
  - rewrite Hd, acked_app, Ha. simpl.
    destruct Hack as [(_ & -> & _) | (j & Hj & _ & Hcases)]; [left; reflexivity|].
    destruct Hcases as [(e & -> & _) | [(n & -> & _)
                       | [(n & m & -> & _) | (n & e & -> & _)]]];
      simpl; eauto.
  - exact (consumeMessage_message_has_id exec this md Hfst).
  - intros Hlow. rewrite Hd, purges_app, Hp. simpl.
    destruct Hack as [(_ & -> & _) | (j & Hj & _ & Hcases)]; [reflexivity|].
    pose proof (set_size_add j (processedMessageIds this)) as Hsz.
    destruct Hcases as [(e & -> & _) | [(n & -> & _)
                       | [(n & m & _ & _ & Hhigh) | (n & e & _ & _ & Hhigh)]]];
      try reflexivity; lia.
Qed.
End ConsumeEdges.

(** ** The buffer and the high-water mark *)

Section BufferBound.
Import MessageStream StreamOps StreamFacts.
#[local] Arguments deleteProcessedMessages : simpl never.
#[local] Arguments consumeMessage : simpl never.
#[local] Arguments getFailedMessage : simpl never.

Lemma set_size_nil : set_size [] <= MAX_PROCESSED_IDS.
Proof. unfold set_size, MAX_PROCESSED_IDS. simpl. lia. Qed.

(** The bulk delete either empties the buffer or fails and leaves it. *)
Lemma delete_size {S} (exec : handler S) (this : t S) :
  exists r s' d ids',
    deleteProcessedMessages exec this
    = (r, set_processedMessageIds ids'
            (set_client {| store := s'; trace := trace (client this) ++ d |} this)) /\
    (ids' = [] \/ (ids' = processedMessageIds this /\ existsb failed_purge d = true)).
Proof.
  destruct (processedMessageIds this) as [|x l] eqn:E.
  - rewrite deleteProcessedMessages_empty by exact E.
    exists (Ok tt), (store (client this)), [], []. split; [|left; reflexivity].
    destruct this as [u key group consumer [s tr] ids]. simpl in *. subst ids.
    unfold set_processedMessageIds. simpl. rewrite app_nil_r. reflexivity.
  - rewrite deleteProcessedMessages_nonempty by congruence.
    destruct this as [u key group consumer w ids]. simpl in *. subst ids.
    destruct (exec _ _) as [[n|e] s']; simpl.
    + do 4 eexists. split; [reflexivity|]. left. reflexivity.
    + do 4 eexists. split; [reflexivity|]. right. split; reflexivity.
Qed.

(** One operation: the buffer stays within the mark unless a bulk delete
    failed in it. *)
Lemma perform_size {S} (exec : handler S) (o : op) (this : t S) :
  exists s' d ids',
    snd (perform exec o this)
    = set_processedMessageIds ids'
        (set_client {| store := s'; trace := trace (client this) ++ d |} this) /\
    (set_size (processedMessageIds this) <= MAX_PROCESSED_IDS ->
     existsb failed_purge d = false ->
     set_size ids' <= MAX_PROCESSED_IDS).
Proof.
  destruct o as [| |data| | | |]; simpl.
  - (* connect *)
    destruct this as [u key group consumer w ids]. unfold connect. unfold_M.
    destruct (exec Connect _) as [[[]|e] s1]; simpl.
    + destruct (exec _ s1) as [[r|e] s2]; simpl.
      * do 3 eexists. split; [rewrite <- !app_assoc; reflexivity|auto].
      * destruct (String.eqb _ _); simpl;
          (do 3 eexists; split; [rewrite <- ?app_assoc; reflexivity|auto]).
    + destruct (String.eqb _ _); simpl;
        (do 3 eexists; split; [rewrite <- ?app_assoc; reflexivity|auto]).
  - (* disconnect *)
    destruct (delete_size exec this) as (r & s1 & d1 & ids1 & E1 & Hids).
    unfold disconnect. unfold try_catch at 1. unfold bind at 1.
    unfold try_catch at 1. rewrite E1.
    destruct this as [u key group consumer w ids]. simpl in *.
    destruct r as [[]|e]; unfold_M;
      destruct (exec Disconnect _) as [[[]|e'] s2]; simpl;
      (do 3 eexists; split;
       [unfold set_processedMessageIds; simpl; rewrite <- ?app_assoc; reflexivity|];
       intros Hle Hok; destruct Hids as [->|[-> Hf]];
       [apply set_size_nil
       |rewrite ?existsb_app, Hf in Hok; simpl in Hok; discriminate Hok]).
  - (* addMessage *)
    destruct this as [u key group consumer w ids]. unfold addMessage. unfold_M.
    destruct (exec _ _) as [[r|e] s1]; simpl;
      (do 3 eexists; split; [rewrite <- ?app_assoc; reflexivity|auto]).
  - (* getFailedMessage *)
    destruct (getFailedMessage_spec exec this) as (d & _ & Hsnd & _).
    destruct (getFailedMessage exec this) as [r m]. simpl in *. subst m.
    do 3 eexists. split; [destruct this; reflexivity|].
    destruct this; simpl; auto.
  - (* consumeMessage *)
    destruct (consumeMessage_spec exec this)
      as (md & s' & d & d_ack & ids' & E & _ & _ & _ & Hack).
    rewrite E. simpl. exists s', (d ++ d_ack), ids'. split; [reflexivity|].
    intros Hle Hok.
    destruct Hack as [(_ & _ & ->) | (i & _ & _ & Hcases)]; [exact Hle|].
    destruct Hcases as [(e & _ & ->) | [(n & _ & -> & Hsz)
                       | [(n & m & _ & -> & _) | (n & e & -> & _ & _)]]].
    + exact Hle.
    + exact Hsz.
    + apply set_size_nil.
    + rewrite existsb_app in Hok. simpl in Hok.
      rewrite orb_true_r in Hok. discriminate Hok.
  - (* deleteProcessedMessages *)
    destruct (delete_size exec this) as (r & s1 & d1 & ids1 & E1 & Hids).
    rewrite E1. simpl. exists s1, d1, ids1. split; [reflexivity|].
    intros Hle Hok.
    destruct Hids as [->|[-> Hf]]; [apply set_size_nil|].
    rewrite Hf in Hok. discriminate Hok.
  - (* length *)
    destruct this as [u key group consumer w ids]. unfold length. unfold_M.
    destruct (exec _ _) as [[r|e] s1]; simpl;
      (do 3 eexists; split; [rewrite <- ?app_assoc; reflexivity|auto]).
Qed.

Lemma run_size {S} (exec : handler S) (ops : list op) (this : t S) :
  exists d,
    trace (client (run exec ops this)) = trace (client this) ++ d /\
    (set_size (processedMessageIds this) <= MAX_PROCESSED_IDS ->
     existsb failed_purge d = false ->
     set_size (processedMessageIds (run exec ops this)) <= MAX_PROCESSED_IDS).
Proof.
  revert this. induction ops as [|o ops IH]; intros this.
  - exists []. simpl. rewrite app_nil_r. auto.
  - destruct (perform_size exec o this) as (s1 & d1 & ids1 & E1 & H1).
    change (run exec (o :: ops) this)
      with (run exec ops (snd (perform exec o this))).
    destruct (IH (snd (perform exec o this))) as (d2 & Ht2 & H2).
    rewrite E1 in Ht2, H2 |- *.
    replace (trace (client (set_processedMessageIds ids1
               (set_client {| store := s1; trace := trace (client this) ++ d1 |} this))))
      with (trace (client this) ++ d1) in Ht2 by (destruct this; reflexivity).
    replace (processedMessageIds (set_processedMessageIds ids1
               (set_client {| store := s1; trace := trace (client this) ++ d1 |} this)))
      with ids1 in H2 by (destruct this; reflexivity).
    exists (d1 ++ d2). split.
    + rewrite Ht2, app_assoc. reflexivity.
    + intros Hle Hok. rewrite existsb_app in Hok.
      apply orb_false_elim in Hok as [Hok1 Hok2].
      apply H2; [apply H1; assumption|exact Hok2].
Qed.

(** X12.  The high-water mark bounds the buffer as long as no bulk delete
    fails.  For any sequence of operations on an instance whose buffer is
    within MAX_PROCESSED_IDS: if no XDEL failed along the way, the buffer is
    within MAX_PROCESSED_IDS at the end. *)
Theorem buffer_within_mark_unless_purge_failed {S} (exec : handler S)
    (ops : list op) (this : t S) :
  set_size (processedMessageIds this) <= MAX_PROCESSED_IDS ->
  existsb failed_purge
    (new_events (client this) (client (run exec ops this))) = false ->
  set_size (processedMessageIds (run exec ops this)) <= MAX_PROCESSED_IDS.
Proof.
  intros Hle Hok.
  destruct (run_size exec ops this) as (d & Ht & H).
  apply H; [exact Hle|].
  unfold new_events in Hok. rewrite Ht, drop_app_length in Hok. exact Hok.
Qed.

Lemma buffer_within_mark_unless_purge_failed_witness :
  let this := constructor "S" None None Redis.empty in
  let ops := [OpConnect; OpAddMessage JS.Null; OpConsumeMessage; OpLength;
              OpGetFailedMessage; OpAddMessage (JS.Bool true); OpConsumeMessage;
              OpDisconnect] in
  set_size (processedMessageIds this) <= MAX_PROCESSED_IDS /\
  existsb failed_purge
    (new_events (client this) (client (run Redis.exec ops this))) = false /\
  set_size (processedMessageIds (run Redis.exec ops this)) <= MAX_PROCESSED_IDS.
Proof.
  intros this ops.
  assert (H1 : set_size (processedMessageIds this) <= MAX_PROCESSED_IDS)
    by (vm_compute; discriminate).
  assert (H2 : existsb failed_purge
                 (new_events (client this) (client (run Redis.exec ops this)))
               = false) by reflexivity.
  split; [exact H1|]. split; [exact H2|].
  exact (buffer_within_mark_unless_purge_failed Redis.exec ops this H1 H2).
Defined.
End BufferBound.

(** ** Closing, logging, and the instance's own keys *)

Section Conduct.
Import MessageStream StreamFacts.
#[local] Arguments deleteProcessedMessages : simpl never.
#[local] Arguments consumeMessage : simpl never.
#[local] Arguments getFailedMessage : simpl never.

(** X13.  [disconnect] flushes, then closes, whatever the flush did.  With
    an empty buffer the only command is the closing of the connection;
    otherwise it is the XDEL of the buffer followed by the closing, which
    is sent also when the XDEL failed.  The buffer is emptied when the XDEL
    succeeded and kept when it failed; in that case the purge error is on
    the console and the call still succeeds when the closing does. *)
Theorem disconnect_flushes_then_closes {S} (exec : handler S) (this : t S) :
  let del := XDEL (streamName this) (processedMessageIds this) in
  let after := snd (disconnect exec this) in
  let d := new_events (client this) (client after) in
  match processedMessageIds this with
  | [] => calls d = [Disconnect] /\ processedMessageIds after = []
  | _ :: _ =>
      calls d = [del; Disconnect] /\
      match exec del (store (client this)) with
      | (Ok _, _) => processedMessageIds after = []
      | (Throw e, s1) =>
          processedMessageIds after = processedMessageIds this /\
          In (Errors.StreamPurgeError this) (console_errors d) /\
          (fst (disconnect exec this) = Ok tt <->
           exists u, fst (exec Disconnect s1) = Ok u)
      end
  end.
Proof.
  simpl. remember (disconnect exec this) as res eqn:Hres.
  unfold disconnect in Hres. unfold try_catch at 1 in Hres.
  unfold bind at 1 in Hres. unfold try_catch at 1 in Hres.
  destruct (processedMessageIds this) as [|x l] eqn:E.
  - rewrite deleteProcessedMessages_empty in Hres by exact E.
    destruct this as [u key group consumer [s tr] ids]. simpl in E. subst ids.
    revert Hres. unfold_M.
    destruct (exec Disconnect _) as [[[]|e] s']; simpl; intros ->; simpl;
      repeat rewrite <- (app_assoc tr); rewrite new_events_app; split; reflexivity.
  - rewrite deleteProcessedMessages_nonempty in Hres by congruence.
    rewrite <- E. clear E x l.
    destruct this as [u key group consumer [s tr] ids]. simpl in *.
    revert Hres.
    destruct (exec (XDEL _ _) _) as [[n|e] s1]; simpl;
      unfold_M; destruct (exec Disconnect _) as [[[]|e'] s']; simpl;
      intros ->; simpl;
      repeat rewrite <- (app_assoc tr); rewrite new_events_app; simpl;
      repeat split; auto; try (intros _; eexists; reflexivity);
      try (intros H; discriminate H); try (intros [? H]; discriminate H).
Qed.

Lemma console_errors_app (tr1 tr2 : list event) :
  console_errors (tr1 ++ tr2) = console_errors tr1 ++ console_errors tr2.
Proof. unfold console_errors. apply omap_app. Qed.

(** X14.  No stream method fails silently: whenever one of the seven
    methods raises an error to its caller, it has written an error to the
    console during that call. *)
Theorem stream_errors_are_logged {S} (exec : handler S) (o : StreamOps.op)
    (this : t S) (err : error) :
  fst (StreamOps.perform exec o this) = Some err ->
  console_errors
    (new_events (client this) (client (snd (StreamOps.perform exec o this))))
  <> [].
Proof.
  destruct o as [| |data| | | |]; simpl.
  - (* connect *)
    destruct this as [u key group consumer [s tr] ids]. unfold connect. unfold_M.
    destruct (exec Connect _) as [[[]|e] s1]; simpl.
    + destruct (exec _ s1) as [[r|e] s2]; simpl; [discriminate|].
      destruct (String.eqb _ _); simpl; [discriminate|].
      repeat rewrite <- (app_assoc tr). rewrite new_events_app. discriminate.
    + destruct (String.eqb _ _); simpl; [discriminate|].
      repeat rewrite <- (app_assoc tr). rewrite new_events_app. discriminate.
  - (* disconnect *)
    remember (disconnect exec this) as res eqn:Hres.
    unfold disconnect in Hres. unfold try_catch at 1 in Hres.
    unfold bind at 1 in Hres. unfold try_catch at 1 in Hres.
    destruct (delete_size exec this) as (r & s1 & d1 & ids1 & E1 & _).
    rewrite E1 in Hres. revert Hres.
    destruct this as [u key group consumer [s tr] ids]. simpl.
    destruct r as [[]|e]; unfold_M;
      destruct (exec Disconnect _) as [[[]|e'] s2]; simpl; intros ->; simpl;
      try discriminate; intros _;
      repeat rewrite <- (app_assoc tr); rewrite new_events_app;
      rewrite ?console_errors_app; simpl;
      destruct (console_errors d1); discriminate.
  - (* addMessage *)
    destruct this as [u key group consumer [s tr] ids]. unfold addMessage. unfold_M.
    destruct (exec _ _) as [[r|e] s1]; simpl; [discriminate|].
    repeat rewrite <- (app_assoc tr). rewrite new_events_app. discriminate.
  - (* getFailedMessage *)
    destruct this as [u key group consumer [s tr] ids].
    unfold getFailedMessage, parse_data, set_id, set_message, MessageStream.this.
    unfold_M.
    destruct (exec _ _) as [[[r|]|e] s1]; simpl;
      [destruct (ac_messages r) as [|[m|] ms]; simpl;
       [|destruct (JS.JSON_parse _); simpl|]| |];
      try discriminate; intros _;
      repeat rewrite <- (app_assoc tr); rewrite new_events_app; discriminate.
  - (* consumeMessage *)
    destruct (consumeMessage_spec exec this) as (md & s' & d & d_ack & ids' & E & _).
    rewrite E. discriminate.
  - (* deleteProcessedMessages *)
    destruct (processedMessageIds this) as [|x l] eqn:E.
    + rewrite deleteProcessedMessages_empty by exact E. discriminate.
    + rewrite deleteProcessedMessages_nonempty by congruence.
      destruct this as [u key group consumer [s tr] ids]. simpl.
      destruct (exec _ _) as [[n|e] s1]; simpl; [discriminate|]. intros _.
      rewrite new_events_app. discriminate.
  - (* length *)
    destruct this as [u key group consumer [s tr] ids]. unfold length. unfold_M.
    destruct (exec _ _) as [[r|e] s1]; simpl; [discriminate|].
    repeat rewrite <- (app_assoc tr). rewrite new_events_app. discriminate.
Qed.

Lemma stream_errors_are_logged_witness :
  let fault c := match c with XADD _ _ _ => Some Redis.ECONNRESET | _ => None end in
  let exec := Redis.failing fault Redis.exec in
  let this := constructor "S" None None Redis.empty in
  let o := StreamOps.OpAddMessage JS.Null in
  fst (StreamOps.perform exec o this) = Some (Errors.StreamWriteError "stream:S") /\
  console_errors
    (new_events (client this) (client (snd (StreamOps.perform exec o this))))
  <> [].
Proof.
  intros fault exec this o.
  assert (H : fst (StreamOps.perform exec o this)
              = Some (Errors.StreamWriteError "stream:S")) by reflexivity.
  split; [exact H|].
  exact (stream_errors_are_logged exec o this _ H).
Defined.

(** X15.  No queue method fails silently either: whenever [connect],
    [disconnect], [push], [pop] or [size] raises an error to its caller, it
    has written an error to the console during that call. *)
Theorem queue_errors_are_logged {S} (exec : handler S) (o : QueueOps.op)
    (q : MessageQueue.t S) (err : error) :
  fst (QueueOps.perform exec o q) = QueueOps.Raised err ->
  console_errors
    (new_events (MessageQueue.client q)
       (MessageQueue.client (snd (QueueOps.perform exec o q))))
  <> [].
Proof.
  destruct q as [u name [s tr]].
  destruct o as [| |data| |]; simpl;
    unfold MessageQueue.connect, MessageQueue.disconnect, MessageQueue.push,
      MessageQueue.pop, MessageQueue.size; unfold_M;
    destruct (exec _ _) as [[r|e] s1]; simpl;
    try destruct (JS.JSON_parse _); simpl;
    try discriminate; intros _;
    repeat rewrite <- (app_assoc tr); rewrite new_events_app; discriminate.
Qed.

Lemma queue_errors_are_logged_witness :
  let q := MessageQueue.constructor "Q" None Redis.empty in
  let o := QueueOps.OpPush JS.Undefined in
  fst (QueueOps.perform Redis.exec o q)
  = QueueOps.Raised (Errors.QueueWriteError "queue:Q") /\
  console_errors
    (new_events (MessageQueue.client q)
       (MessageQueue.client (snd (QueueOps.perform Redis.exec o q))))
  <> [].
Proof.
  intros q o.
  assert (H : fst (QueueOps.perform Redis.exec o q)
              = QueueOps.Raised (Errors.QueueWriteError "queue:Q")) by reflexivity.
  split; [exact H|].
  exact (queue_errors_are_logged Redis.exec o q _ H).
Defined.

Lemma own_command_fields {S} (this : t S) (ids : list string) (w : world S) :
  own_command (set_processedMessageIds ids (set_client w this)) = own_command this.
Proof. destruct this; reflexivity. Qed.

Ltac own_commands :=
  rewrite ?calls_app; simpl; rewrite ?String.eqb_refl; reflexivity.

(** One operation sends commands of the instance's own only. *)
Lemma perform_calls {S} (exec : handler S) (o : StreamOps.op) (this : t S) :
  exists s' d ids',
    snd (StreamOps.perform exec o this)
    = set_processedMessageIds ids'
        (set_client {| store := s'; trace := trace (client this) ++ d |} this) /\
    forallb (own_command this) (calls d) = true.
Proof.
  destruct o as [| |data| | | |]; simpl.
  - (* connect *)
    destruct this as [u key group consumer w ids]. unfold connect. unfold_M.
    destruct (exec Connect _) as [[[]|e] s1]; simpl.
    + destruct (exec _ s1) as [[r|e] s2]; simpl.
      * do 3 eexists. split; [rewrite <- !app_assoc; reflexivity|own_commands].
      * destruct (String.eqb _ _); simpl;
          (do 3 eexists; split; [rewrite <- ?app_assoc; reflexivity|own_commands]).
    + destruct (String.eqb _ _); simpl;
        (do 3 eexists; split; [rewrite <- ?app_assoc; reflexivity|own_commands]).
  - (* disconnect *)
    remember (disconnect exec this) as res eqn:Hres.
    unfold disconnect in Hres. unfold try_catch at 1 in Hres.
    unfold bind at 1 in Hres. unfold try_catch at 1 in Hres.
    destruct (processedMessageIds this) as [|x l] eqn:E.
    + rewrite deleteProcessedMessages_empty in Hres by exact E.
      destruct this as [u key group consumer [s tr] ids]. simpl in E. subst ids.
      revert Hres. unfold_M.
      destruct (exec Disconnect _) as [[[]|e] s']; simpl; intros ->; simpl;
        (do 3 eexists; split;
         [unfold set_processedMessageIds; simpl; rewrite <- ?app_assoc; reflexivity
         |own_commands]).
    + rewrite deleteProcessedMessages_nonempty in Hres by congruence.
      rewrite <- E in *. clear E x l.
      destruct this as [u key group consumer [s tr] ids]. simpl in *.
      revert Hres.
      destruct (exec (XDEL _ _) _) as [[n|e] s1]; simpl;
        unfold_M; destruct (exec Disconnect _) as [[[]|e'] s']; simpl;
        intros ->; simpl;
        (do 3 eexists; split;
         [unfold set_processedMessageIds; simpl; rewrite <- ?app_assoc; reflexivity
         |own_commands]).
  - (* addMessage *)
    destruct this as [u key group consumer w ids]. unfold addMessage. unfold_M.
    destruct (exec _ _) as [[r|e] s1]; simpl;
      (do 3 eexists; split; [rewrite <- ?app_assoc; reflexivity|own_commands]).
  - (* getFailedMessage *)
    destruct (getFailedMessage_spec exec this) as (d & Hd & Hsnd & _).
    destruct (getFailedMessage exec this) as [r m]. simpl in *. subst m.
    do 3 eexists. split; [destruct this; reflexivity|].
    rewrite calls_cons, Hd. destruct this. own_commands.
  - (* consumeMessage *)
    destruct (consumeMessage_spec exec this)
      as (md & s' & d & d_ack & ids' & E & _ & _ & Hcalls & Hack).
    rewrite E. simpl. exists s', (d ++ d_ack), ids'. split; [reflexivity|].
    rewrite calls_app, forallb_app. apply andb_true_intro. split.
    + destruct (fst (getFailedMessage exec this)) as [md0|e];
        [destruct (JS.truthy (message md0)); [destruct Hcalls as [Hcalls _]|]|];
        rewrite Hcalls; destruct this; own_commands.
    + destruct Hack as [(_ & -> & _) | (i & _ & _ & Hcases)]; [reflexivity|].
      destruct Hcases as [(e & -> & _) | [(n & -> & _)
                         | [(n & m & -> & _) | (n & e & -> & _)]]];
        destruct this; own_commands.
  - (* deleteProcessedMessages *)
    destruct (processedMessageIds this) as [|x l] eqn:E.
    + rewrite deleteProcessedMessages_empty by exact E.
      exists (store (client this)), [], [].
      destruct this as [u key group consumer [s tr] ids]. simpl in *. subst ids.
      unfold set_processedMessageIds. simpl. rewrite app_nil_r. split; reflexivity.
    + rewrite deleteProcessedMessages_nonempty by congruence.
      destruct this as [u key group consumer [s tr] ids]. simpl in *.
      destruct (exec _ _) as [[n|e] s1]; simpl;
        (do 3 eexists; split; [reflexivity|own_commands]).
  - (* length *)
    destruct this as [u key group consumer w ids]. unfold length. unfold_M.
    destruct (exec _ _) as [[r|e] s1]; simpl;
      (do 3 eexists; split; [rewrite <- ?app_assoc; reflexivity|own_commands]).
Qed.

(** X16.  An instance keeps to its own keys.  Whatever operations are run
    on a MessageStream, every command it sends is the opening or closing of
    the connection or a stream command on the instance's own stream key,
    with its own group and consumer where the command names them; it sends
    no list command. *)
Theorem stream_sends_own_commands_only {S} (exec : handler S)
    (ops : list StreamOps.op) (this : t S) :
  forallb (own_command this)
    (calls (new_events (client this) (client (StreamOps.run exec ops this))))
  = true.
Proof.
  assert (H : exists d,
    trace (client (StreamOps.run exec ops this)) = trace (client this) ++ d /\
    forallb (own_command this) (calls d) = true).
  { revert this. induction ops as [|o ops IH]; intros this.
    - exists []. simpl. rewrite app_nil_r. split; reflexivity.
    - destruct (perform_calls exec o this) as (s1 & d1 & ids1 & E1 & H1).
      change (StreamOps.run exec (o :: ops) this)
        with (StreamOps.run exec ops (snd (StreamOps.perform exec o this))).
      destruct (IH (snd (StreamOps.perform exec o this))) as (d2 & Ht2 & H2).
      rewrite E1 in Ht2, H2 |- *. rewrite own_command_fields in H2.
      replace (trace (client (set_processedMessageIds ids1
                 (set_client {| store := s1; trace := trace (client this) ++ d1 |}
                    this))))
        with (trace (client this) ++ d1) in Ht2 by (destruct this; reflexivity).
      exists (d1 ++ d2). split.
      + rewrite Ht2, app_assoc. reflexivity.
      + rewrite calls_app, forallb_app, H1, H2. reflexivity. }
  destruct H as (d & Ht & H).
  unfold new_events. rewrite Ht, drop_app_length. exact H.
Qed.
End Conduct.
